(** * Watchdogs: the incident-anchoring and synthesis pipeline

    A shallow embedding of [services/xApiService.ts] (the second document of
    [src/server.js]): location extraction, topic tagging, incident anchoring,
    metrics and scoring, the narrative synthesizer and the incident assembler,
    with the properties the specification states about them.

    Modelling conventions.
    - JavaScript strings are modelled as [string] over ASCII characters
      (character codes below 128): [toLowerCase] maps [A-Z] to [a-z] and the
      regular-expression classes are the ASCII ones.
    - JavaScript numbers that hold counts or epoch milliseconds are [Z]; the
      two quotients the code computes ([confidence], [hoursDiff]) are exact
      rationals [Q], which orders them against the literals the code compares
      them with exactly as the double-precision quotients are ordered.
    - The code adds counts in double precision, which is the exact integer
      sum as long as it stays below 2^53; a property that depends on sums
      being exact beyond what a comparison with 500 or 1000 needs carries
      that bound as a hypothesis ([exactTotals]). The location scores of
      [extractLocation] are sums of confidence literals and are kept as exact
      rationals: between two scores that differ by less than the rounding of
      the double sums the code may prefer the other location, so only
      properties that hold for either winner are stated about it.
    - A post's [timestamp] is the value of [new Date(post.timestamp).getTime()]:
      [Some t] for a string that parses to the time value [t] (an integer
      number of milliseconds), [None] for a string that does not, where
      [getTime()] is [NaN]. ISO-8601 parsing itself is outside the model.
    - The awaited results of the network calls ([searchTweets] for the query,
      for each catalogue entry and for the city, police and general searches)
      are inputs of the assembler. *)

From Stdlib Require Import ZArith QArith String Ascii Lia Sorted.
From stdpp Require Import base list gmap sets strings sorting relations.

Local Open Scope string_scope.

(** ** JavaScript string primitives *)

Module JsString.

Definition lowerChar (a : ascii) : ascii :=
  let n := nat_of_ascii a in
  if (65 <=? n)%nat && (n <=? 90)%nat then ascii_of_nat (n + 32) else a.

(** [s.toLowerCase()] *)
Fixpoint toLowerCase (s : string) : string :=
  match s with
  | EmptyString => EmptyString
  | String a s' => String (lowerChar a) (toLowerCase s')
  end.

(** [s.startsWith(t)] *)
Fixpoint startsWith (s t : string) : bool :=
  match t, s with
  | EmptyString, _ => true
  | String _ _, EmptyString => false
  | String b t', String a s' => if Ascii.eqb a b then startsWith s' t' else false
  end.

(** [s.includes(t)] *)
Fixpoint includes (s t : string) : bool :=
  if startsWith s t then true
  else match s with
       | EmptyString => false
       | String _ s' => includes s' t
       end.

Definition isSpace (a : ascii) : bool :=
  let n := nat_of_ascii a in
  ((9 <=? n)%nat && (n <=? 13)%nat) || (n =? 32)%nat.

Fixpoint trimStart (s : string) : string :=
  match s with
  | String a s' => if isSpace a then trimStart s' else s
  | EmptyString => EmptyString
  end.

Fixpoint trimEnd (s : string) : string :=
  match s with
  | EmptyString => EmptyString
  | String a s' =>
      match trimEnd s' with
      | EmptyString => if isSpace a then EmptyString else String a EmptyString
      | t => String a t
      end
  end.

(** [s.trim()] *)
Definition trim (s : string) : string := trimEnd (trimStart s).

(** [l.some(w => s.includes(w))] *)
Definition includesAny (s : string) (ws : list string) : bool :=
  existsb (includes s) ws.

End JsString.

(** ** Regular expressions

    The fragment of ECMAScript regular expressions the location extractor and
    the synthesizer use, with the backtracking semantics of the language:
    alternatives are tried left to right, quantifiers are greedy, an iteration
    of a quantifier that consumes nothing is refused, and [String.prototype.match]
    without the [g] flag returns the match at the leftmost start position. *)

Module Regex.

Inductive re : Type :=
| Eps
| Chr (p : ascii -> bool)
| Seq (r1 r2 : re)
| Alt (r1 r2 : re)
| Rep (r : re) (max : option nat)  (* greedy r{0,max}; [None] is unbounded *)
| Grp (n : nat) (r : re).          (* capturing group number n *)

Definition captures := gmap nat (list ascii).

Section Exec.
Context {R : Type}.

Fixpoint exec (r : re) (s : list ascii) (c : captures)
         (k : list ascii -> captures -> option R) {struct r} : option R :=
  match r with
  | Eps => k s c
  | Chr p =>
      match s with
      | a :: s' => if p a then k s' c else None
      | [] => None
      end
  | Seq r1 r2 => exec r1 s c (fun s' c' => exec r2 s' c' k)
  | Alt r1 r2 =>
      match exec r1 s c k with
      | Some x => Some x
      | None => exec r2 s c k
      end
  | Grp n r1 =>
      exec r1 s c (fun s' c' => k s' (<[n := take (length s - length s') s]> c'))
  | Rep r1 max =>
      (fix loop (fuel : nat) (max : option nat) (s : list ascii) (c : captures)
           {struct fuel} : option R :=
         match fuel with
         | O => k s c
         | S fuel' =>
             match max with
             | Some O => k s c
             | _ =>
                 match exec r1 s c
                         (fun s' c' =>
                            if (length s' <? length s)%nat
                            then loop fuel' (Nat.pred <$> max) s' c'
                            else None) with
                 | Some x => Some x
                 | None => k s c
                 end
             end
         end) (length s) max s c
  end.
End Exec.

(** The match starting exactly at the head of [s]: the captures and the
    unconsumed rest. *)
Definition matchHere (r : re) (s : list ascii) : option (captures * list ascii) :=
  exec r s ∅ (fun s' c => Some (c, s')).

(** [text.match(r)]: leftmost start position first. *)
Fixpoint search (r : re) (s : list ascii) : option captures :=
  match matchHere r s with
  | Some (c, _) => Some c
  | None =>
      match s with
      | [] => None
      | _ :: s' => search r s'
      end
  end.

Definition jsMatch (r : re) (text : string) : option captures :=
  search r (list_ascii_of_string text).

(** [m[n]] as a string; an unset group reads as [undefined] ([None]). *)
Definition group (n : nat) (c : captures) : option string :=
  string_of_list_ascii <$> (c !! n).

(** [text.test(r)] / truthiness of [text.match(r)] *)
Definition test (r : re) (text : string) : bool :=
  match jsMatch r text with Some _ => true | None => false end.

(** [text.replace(r, '')] with the [g] flag, for a pattern that cannot match
    the empty string. *)
Fixpoint removeAllFuel (fuel : nat) (r : re) (s : list ascii) : list ascii :=
  match fuel with
  | O => s
  | S fuel' =>
      match s with
      | [] => []
      | a :: s' =>
          match matchHere r s with
          | Some (_, rest) =>
              if (length rest <? length s)%nat then removeAllFuel fuel' r rest
              else a :: removeAllFuel fuel' r s'
          | None => a :: removeAllFuel fuel' r s'
          end
      end
  end.

Definition removeAll (r : re) (text : string) : string :=
  string_of_list_ascii
    (removeAllFuel (String.length text) r (list_ascii_of_string text)).

(** *** Pattern combinators, all under the [i] flag *)

(** a literal character, case-insensitively *)
Definition chr (a : ascii) : re :=
  Chr (fun x => Ascii.eqb (JsString.lowerChar x) (JsString.lowerChar a)).

(** a literal string, case-insensitively *)
Fixpoint lit (s : string) : re :=
  match s with
  | EmptyString => Eps
  | String a s' => Seq (chr a) (lit s')
  end.

(** [(?:w1|w2|...)] *)
Fixpoint alts (ws : list re) : re :=
  match ws with
  | [] => Chr (fun _ => false)
  | [w] => w
  | w :: ws' => Alt w (alts ws')
  end.

Definition lits (ws : list string) : re := alts (map lit ws).

Fixpoint seqs (rs : list re) : re :=
  match rs with
  | [] => Eps
  | [r] => r
  | r :: rs' => Seq r (seqs rs')
  end.

Definition star (r : re) : re := Rep r None.
Definition plus (r : re) : re := Seq r (Rep r None).
Definition opt (r : re) : re := Rep r (Some 1%nat).
Definition upto (n : nat) (r : re) : re := Rep r (Some n).

Definition isLetter (a : ascii) : bool :=
  let n := nat_of_ascii (JsString.lowerChar a) in (97 <=? n)%nat && (n <=? 122)%nat.
Definition isDigit (a : ascii) : bool :=
  let n := nat_of_ascii a in (48 <=? n)%nat && (n <=? 57)%nat.
Definition isLineTerminator (a : ascii) : bool :=
  let n := nat_of_ascii a in (n =? 10)%nat || (n =? 13)%nat.

(** [[A-Z]] and [[a-z]] coincide under the [i] flag *)
Definition letter : re := Chr isLetter.
(** [\d], [\s], [[^\s]], [.] *)
Definition digit : re := Chr isDigit.
Definition space : re := Chr JsString.isSpace.
Definition nonSpace : re := Chr (fun a => negb (JsString.isSpace a)).
Definition dot : re := Chr (fun a => negb (isLineTerminator a)).

(** [[A-Z][a-z]+] *)
Definition capWord : re := Seq letter (plus letter).

End Regex.

(** ** Data model ([types.ts]) *)

Inductive Severity : Type := critical | high | medium | low.

#[global] Instance Severity_eq_dec : EqDecision Severity.
Proof. solve_decision. Defined.

Record Author : Type := mkAuthor {
  username : string;
  name : string;
  verified : bool
}.

(** [views] is optional in the source; every use treats [undefined] as [0]. *)
Record Engagement : Type := mkEngagement {
  likes : Z;
  retweets : Z;
  replies : Z;
  quotes : Z;
  views : Z
}.

(** The media list of a post is carried through untouched and read by no
    pipeline decision; it is left out of the record. *)
Record XPost : Type := mkXPost {
  id : string;
  text : string;
  author : Author;
  url : string;
  timestamp : option Z;
  engagement : Engagement
}.

Record TLDRCitation : Type := mkCitation {
  cite_id : Z;
  cite_url : string;
  cite_username : string
}.

Record TotalEngagement : Type := mkTotal {
  totalLikes : Z;
  totalRetweets : Z;
  totalReplies : Z;
  totalQuotes : Z;
  totalViews : Z
}.

Inductive Sentiment : Type := positive | neutral | negative.

#[global] Instance Sentiment_eq_dec : EqDecision Sentiment.
Proof. solve_decision. Defined.

Record SentimentResult : Type := mkSentiment {
  sentiment : Sentiment;
  confidence : Q;
  verifiedCount : Z
}.

Record LocationMatch : Type := mkLocation {
  location : string;
  loc_confidence : Q
}.

(** [a < b] and [a > b] on rationals, as booleans *)
Definition Qlt_bool (a b : Q) : bool := negb (Qle_bool b a).
Definition Qgt_bool (a b : Q) : bool := Qlt_bool b a.

(** [Array.prototype.sort] with a consistent comparator: the stable ordering,
    [cmp a b < 0] placing [a] first. *)
Section Sort.
Context {A : Type} (cmp : A -> A -> Z).

Fixpoint sortInsert (x : A) (l : list A) : list A :=
  match l with
  | [] => [x]
  | y :: l' => if (cmp x y <=? 0)%Z then x :: l else y :: sortInsert x l'
  end.

Definition jsSort (l : list A) : list A := foldr sortInsert [] l.
End Sort.

(** [l.find(p)] as the index of the first hit, so that the element found can
    be updated in place. *)
Fixpoint findIndex {A : Type} (p : A -> bool) (l : list A) : option nat :=
  match l with
  | [] => None
  | x :: l' => if p x then Some O else S <$> findIndex p l'
  end.

(** [l.find(p)] *)
Fixpoint jsFind {A : Type} (p : A -> bool) (l : list A) : option A :=
  match l with
  | [] => None
  | x :: l' => if p x then Some x else jsFind p l'
  end.

(** [l.includes(x)] on an array of strings *)
Definition arrIncludes (l : list string) (x : string) : bool := bool_decide (x ∈ l).

(** ** 4.4 Metrics and scoring *)

Definition negativeWords : list string :=
  ["false"; "hoax"; "fake"; "debunked"; "unconfirmed"; "rumor"].
Definition positiveWords : list string :=
  ["confirmed"; "verified"; "official"; "police"; "authorities"].

Record SentimentCounts : Type := mkCounts {
  n_positive : Z; n_negative : Z; n_neutral : Z; n_verified : Z
}.

Definition countPost (acc : SentimentCounts) (post : XPost) : SentimentCounts :=
  let v := if verified (author post) then (n_verified acc + 1)%Z else n_verified acc in
  let text := JsString.toLowerCase (text post) in
  let hasNegative := JsString.includesAny text negativeWords in
  let hasPositive := JsString.includesAny text positiveWords in
  if hasNegative then mkCounts (n_positive acc) (n_negative acc + 1) (n_neutral acc) v
  else if hasPositive then mkCounts (n_positive acc + 1) (n_negative acc) (n_neutral acc) v
  else mkCounts (n_positive acc) (n_negative acc) (n_neutral acc + 1) v.

Definition analyzeSentiment (posts : list XPost) : SentimentResult :=
  let c := fold_left countPost posts (mkCounts 0 0 0 0) in
  let total := Z.of_nat (length posts) in
  let sentiment :=
    if (n_negative c >? n_positive c)%Z then negative
    else if (n_positive c >? n_neutral c)%Z then positive else neutral in
  let confidence :=
    (inject_Z (Z.max (Z.max (n_positive c) (n_negative c)) (n_neutral c)) / inject_Z total)%Q in
  mkSentiment sentiment confidence (n_verified c).

Definition calculateTotalEngagement (posts : list XPost) : TotalEngagement :=
  fold_left (fun acc post =>
    mkTotal (totalLikes acc + likes (engagement post))
            (totalRetweets acc + retweets (engagement post))
            (totalReplies acc + replies (engagement post))
            (totalQuotes acc + quotes (engagement post))
            (totalViews acc + views (engagement post)))%Z
    posts (mkTotal 0 0 0 0 0).

Definition shootingKeywords : list string :=
  ["shooting"; "shots fired"; "active shooter"; "gunfire"].
Definition criticalKeywords : list string :=
  ["emergency"; "evacuate"; "police"; "SWAT"; "lockdown"].

Definition hasShooting (posts : list XPost) : bool :=
  existsb (fun post =>
    existsb (fun keyword => JsString.includes (JsString.toLowerCase (text post)) keyword)
            shootingKeywords) posts.

Definition hasCriticalKeyword (posts : list XPost) : bool :=
  existsb (fun post =>
    existsb (fun keyword => JsString.includes (JsString.toLowerCase (text post)) keyword)
            criticalKeywords) posts.

Definition totalReactions (posts : list XPost) : Z :=
  let totalEngagement := calculateTotalEngagement posts in
  (totalLikes totalEngagement + totalRetweets totalEngagement)%Z.

Definition determineSeverity (posts : list XPost) : Severity :=
  if (length posts =? 0)%nat then low
  else
    if hasShooting posts then
      if (totalReactions posts >? 500)%Z then critical else high
    else if hasCriticalKeyword posts && (totalReactions posts >? 1000)%Z then critical
    else if hasCriticalKeyword posts && (totalReactions posts >? 500)%Z then high
    else if (totalReactions posts >? 1000)%Z then high
    else if (totalReactions posts >? 500)%Z then medium
    else low.

(** [severityOrder] of the final merge *)
Definition severityOrder (s : Severity) : Z :=
  match s with critical => 4 | high => 3 | medium => 2 | low => 1 end.

(** ** 4.2 Topic tagger *)

Definition extractTopics (post : XPost) : list string :=
  let text := JsString.toLowerCase (text post) in
  ((if JsString.includes text "shooting" || JsString.includes text "shots fired"
   then ["shooting"] else []) ++
  (if JsString.includes text "active shooter" then ["active_shooter"] else []) ++
  (if JsString.includes text "arrest" then ["arrest"] else []) ++
  (if JsString.includes text "suspect" then ["suspect"] else []) ++
  (if JsString.includes text "victim" || JsString.includes text "injured"
      || JsString.includes text "killed" then ["casualties"] else []) ++
  (if JsString.includes text "evacuat" then ["evacuation"] else []) ++
  (if JsString.includes text "lockdown" then ["lockdown"] else []))%list.

(** ** 4.1 Location extractor *)

Record Place : Type := mkPlace {
  place_name : string;
  keywords : list string;
  priority : Z
}.

Definition specificPlaces : list Place :=
  [ mkPlace "Westfield Valley Fair"
      ["westfield valley fair"; "valley fair mall"; "valley fair shopping center"] 1;
    mkPlace "Stanford Shopping Center" ["stanford shopping center"; "stanford mall"] 1;
    mkPlace "Stanford University" ["stanford university"; "stanford campus"] 1;
    mkPlace "Hoover Tower" ["hoover tower"] 1;
    mkPlace "Main Quad" ["main quad"] 1;
    mkPlace "Green Library" ["green library"] 1;
    mkPlace "Santana Row" ["santana row"] 1;
    mkPlace "SAP Center" ["sap center"; "sap arena"; "shark tank"] 1;
    mkPlace "Levi's Stadium" ["levi's stadium"; "levis stadium"] 1;
    mkPlace "Stanford Hospital" ["stanford hospital"; "stanford medical center"] 1;
    mkPlace "Valley Medical Center" ["valley medical center"; "vmc"] 1;
    mkPlace "Stanford" ["stanford"] 3;
    mkPlace "Palo Alto" ["palo alto"] 3;
    mkPlace "San Jose" ["san jose"] 3;
    mkPlace "Menlo Park" ["menlo park"] 3;
    mkPlace "Mountain View" ["mountain view"] 3;
    mkPlace "Redwood City" ["redwood city"] 3;
    mkPlace "East Palo Alto" ["east palo alto"] 3;
    mkPlace "Santa Clara" ["santa clara"] 3;
    mkPlace "Cupertino" ["cupertino"] 3;
    mkPlace "Sunnyvale" ["sunnyvale"] 3;
    mkPlace "Fremont" ["fremont"] 3;
    mkPlace "Milpitas" ["milpitas"] 3 ].

(** [specificPlaces.sort((a, b) => a.priority - b.priority)] *)
Definition sortedPlaces : list Place :=
  jsSort (fun a b => (priority a - priority b)%Z) specificPlaces.

(** The two nested [for] loops over places and their keywords: the first place
    one of whose keywords occurs in the lower-cased text. *)
Fixpoint scanPlaces (textLower : string) (places : list Place) : option LocationMatch :=
  match places with
  | [] => None
  | place :: rest =>
      if JsString.includesAny textLower (keywords place)
      then Some (mkLocation (place_name place)
                            (if (priority place =? 1)%Z then 0.95 else 0.75)%Q)
      else scanPlaces textLower rest
  end.

Module Patterns.
Import Regex.

Definition streetTypes : list string :=
  ["Street"; "St"; "Avenue"; "Ave"; "Road"; "Rd"; "Boulevard"; "Blvd"; "Drive"; "Dr";
   "Way"; "Lane"; "Ln"; "Circle"; "Cir"; "Court"; "Ct"; "Place"; "Pl"].

(** [\d+\s+[A-Z][a-z]+(?:\s+[A-Z][a-z]+)*\s+(?:Street|St|...|Pl)\.?] *)
Definition addressCore : re :=
  seqs [plus digit; plus space; capWord; star (Seq (plus space) capWord);
        plus space; lits streetTypes; opt (chr ".")].

Definition addressPatterns : list re :=
  [ seqs [lits ["at"; "on"; "near"; "in"]; plus space; Grp 1 addressCore];
    Grp 1 addressCore;
    Grp 1 (seqs [addressCore;
                 opt (seqs [opt (chr ","); plus space; lits ["in"; "at"; "near"]; plus space]);
                 capWord; star (Seq (plus space) capWord)]) ].

Definition venueTypes : list string :=
  ["Mall"; "Center"; "Centre"; "Store"; "Shop"; "Restaurant"; "Cafe"; "Cafeteria";
   "Hospital"; "Clinic"; "School"; "University"; "Campus"; "Park"; "Plaza"; "Square";
   "Stadium"; "Arena"; "Building"; "Tower"; "Hall"; "Library"; "Museum"; "Theater";
   "Theatre"; "Hotel"; "Inn"; "Market"; "Station"; "Terminal"; "Airport"].

Definition buildingPatterns : list re :=
  [ seqs [lits ["at"; "in"; "near"]; plus space;
          Grp 1 (seqs [capWord; upto 4 (Seq (plus space) capWord); plus space;
                       lits venueTypes])];
    seqs [lits ["at"; "in"; "near"]; plus space; opt (Seq (lit "the") (plus space));
          Grp 1 (seqs [capWord; upto 4 (Seq (plus space) capWord); plus space;
                       lits ["Building"; "Tower"; "Hall"; "Center"; "Library"; "Museum"]])] ].

Definition crossTypes : list string :=
  ["Street"; "St"; "Avenue"; "Ave"; "Road"; "Rd"; "Boulevard"; "Blvd"; "Drive"; "Dr";
   "Way"; "Lane"; "Ln"].

Definition intersectionPattern : re :=
  seqs [lits ["at"; "near"]; plus space;
        Grp 1 (Seq capWord (opt (Seq (plus space) (lits crossTypes))));
        plus space; lits ["and"; "&"]; plus space;
        Grp 2 (Seq capWord (opt (Seq (plus space) (lits crossTypes))))].

Definition neighborhoodPattern : re :=
  seqs [lits ["in"; "at"; "near"]; plus space; opt (Seq (lit "the") (plus space));
        Grp 1 (seqs [capWord; upto 2 (Seq (plus space) capWord); plus space;
                     lits ["neighborhood"; "area"; "district"; "region"; "vicinity"]])].
End Patterns.

(** A captured group that is set and not the empty string (the truthiness test
    [m && m[1]]). *)
Definition truthyGroup (n : nat) (m : option Regex.captures) : option string :=
  match m with
  | Some c =>
      match Regex.group n c with
      | Some EmptyString => None
      | g => g
      end
  | None => None
  end.

(** The [for] loop over [addressPatterns], with its guard against
    false positives. *)
Fixpoint scanAddress (text textLower : string) (patterns : list Regex.re)
  : option LocationMatch :=
  match patterns with
  | [] => None
  | pattern :: rest =>
      match truthyGroup 1 (Regex.jsMatch pattern text) with
      | Some m1 =>
          let address := JsString.trim m1 in
          if negb (JsString.includes textLower "alert")
             || JsString.includes (JsString.toLowerCase address) "st"
             || JsString.includes (JsString.toLowerCase address) "street"
          then Some (mkLocation address 0.9%Q)
          else scanAddress text textLower rest
      | None => scanAddress text textLower rest
      end
  end.

Definition actionWords : list string :=
  ["shooting"; "arrested"; "incident"; "alert"; "emergency"; "police"; "active"; "reported"].

Fixpoint scanBuilding (text : string) (patterns : list Regex.re) : option LocationMatch :=
  match patterns with
  | [] => None
  | pattern :: rest =>
      match truthyGroup 1 (Regex.jsMatch pattern text) with
      | Some m1 =>
          let building := JsString.trim m1 in
          if negb (JsString.includesAny (JsString.toLowerCase building) actionWords)
          then Some (mkLocation building 0.85%Q)
          else scanBuilding text rest
      | None => scanBuilding text rest
      end
  end.

Definition scanIntersection (text : string) : option LocationMatch :=
  let m := Regex.jsMatch Patterns.intersectionPattern text in
  match truthyGroup 1 m, truthyGroup 2 m with
  | Some m1, Some m2 =>
      Some (mkLocation (JsString.trim m1 ++ " & " ++ JsString.trim m2) 0.85%Q)
  | _, _ => None
  end.

Definition scanNeighborhood (text : string) : option LocationMatch :=
  match truthyGroup 1 (Regex.jsMatch Patterns.neighborhoodPattern text) with
  | Some m1 => Some (mkLocation (JsString.trim m1) 0.7%Q)
  | None => None
  end.

(** The stage of the extractor that produced the result. *)
Inductive Stage : Type :=
  StagePlace | StageAddress | StageBuilding | StageIntersection | StageNeighborhood | StageNone.

Definition extractPostLocationStaged (post : XPost) : Stage * LocationMatch :=
  let text := text post in
  let textLower := JsString.toLowerCase text in
  match scanPlaces textLower sortedPlaces with
  | Some r => (StagePlace, r)
  | None =>
  match scanAddress text textLower Patterns.addressPatterns with
  | Some r => (StageAddress, r)
  | None =>
  match scanBuilding text Patterns.buildingPatterns with
  | Some r => (StageBuilding, r)
  | None =>
  match scanIntersection text with
  | Some r => (StageIntersection, r)
  | None =>
  match scanNeighborhood text with
  | Some r => (StageNeighborhood, r)
  | None => (StageNone, mkLocation "" 0%Q)
  end end end end end.

Definition extractPostLocation (post : XPost) : LocationMatch :=
  snd (extractPostLocationStaged post).

(** ** 4.3 Incident anchoring engine *)

Record Cluster : Type := mkCluster {
  c_posts : list XPost;
  c_location : string;
  c_topics : list string;
  c_timestamp : option Z
}.

(** The working state of one anchoring call: the [incidents] array, whose
    elements are updated in place, and the [processed] set of post ids. *)
Record AnchorState : Type := mkAnchor {
  incidents : list Cluster;
  processed : gset string
}.

(** [hoursDiff > 24] for [timeDiff = Math.abs(postTime - incidentTime)]; with
    a [NaN] on either side the difference is [NaN] and the comparison false. *)
Definition outside24h (postTime incidentTime : option Z) : bool :=
  match postTime, incidentTime with
  | Some postTime, Some incidentTime =>
      let timeDiff := Z.abs (postTime - incidentTime) in
      let hoursDiff := (inject_Z timeDiff / inject_Z (1000 * 60 * 60))%Q in
      Qgt_bool hoursDiff 24%Q
  | _, _ => false
  end.

(** [a > b] on time values; false when either is [NaN] *)
Definition laterThan (a b : option Z) : bool :=
  match a, b with
  | Some a, Some b => (a >? b)%Z
  | _, _ => false
  end.

(** [postTopics.forEach(topic => { if (!topics.includes(topic)) topics.push(topic) })] *)
Definition unionTopics (topics postTopics : list string) : list string :=
  fold_left (fun acc topic => if arrIncludes acc topic then acc else (acc ++ [topic])%list)
            postTopics topics.

(** The predicate of [incidents.find] in the first pass. *)
Definition matches1 (postLocation : LocationMatch) (postTopics : list string)
           (postTime : option Z) (incident : Cluster) : bool :=
  let loc1 := JsString.toLowerCase (c_location incident) in
  let loc2 := JsString.toLowerCase (location postLocation) in
  if negb (String.eqb loc1 loc2) && negb (JsString.includes loc1 loc2)
     && negb (JsString.includes loc2 loc1) then false
  else
    let topicOverlap := existsb (arrIncludes postTopics) (c_topics incident) in
    let isShooting := arrIncludes postTopics "shooting"
                      || arrIncludes (c_topics incident) "shooting" in
    if negb topicOverlap && (0 <? length (c_topics incident))%nat
       && (0 <? length postTopics)%nat && isShooting then false
    else if outside24h postTime (c_timestamp incident) then false
    else true.

(** The in-place update of the matched cluster in the first pass. *)
Definition attach1 (post : XPost) (postLocation : LocationMatch)
           (postTopics : list string) (postTime : option Z) (m : Cluster) : Cluster :=
  let posts := (c_posts m ++ [post])%list in
  let topics := unionTopics (c_topics m) postTopics in
  let ts := if laterThan postTime (c_timestamp m) then timestamp post else c_timestamp m in
  let loc :=
    if Qgt_bool (loc_confidence postLocation) 0.8%Q
       && (String.length (c_location m) <? String.length (location postLocation))%nat
    then location postLocation else c_location m in
  mkCluster posts loc topics ts.

Definition pass1Step (st : AnchorState) (post : XPost) : AnchorState :=
  if bool_decide (id post ∈ processed st) then st
  else
    let postLocation := extractPostLocation post in
    if Qlt_bool (loc_confidence postLocation) 0.5%Q then st
    else
      let postTopics := extractTopics post in
      let postTime := timestamp post in
      let incidents' :=
        match findIndex (matches1 postLocation postTopics postTime) (incidents st) with
        | Some i => alter (attach1 post postLocation postTopics postTime) i (incidents st)
        | None =>
            (incidents st ++
              [mkCluster [post] (location postLocation) postTopics (timestamp post)])%list
        end in
      mkAnchor incidents' ({[ id post ]} ∪ processed st).

(** The predicate of [incidents.find] in the second pass. *)
Definition matches2 (postText : string) (postTopics : list string)
           (postTime : option Z) (incident : Cluster) : bool :=
  let mentionsLocation :=
    JsString.includes postText (JsString.toLowerCase (c_location incident)) in
  if negb mentionsLocation then false
  else
    let topicOverlap := existsb (arrIncludes postTopics) (c_topics incident) in
    if negb topicOverlap && (0 <? length (c_topics incident))%nat
       && (0 <? length postTopics)%nat then false
    else if outside24h postTime (c_timestamp incident) then false
    else true.

(** The in-place update of the matched cluster in the second pass. *)
Definition attach2 (post : XPost) (postTopics : list string) (m : Cluster) : Cluster :=
  mkCluster (c_posts m ++ [post])%list (c_location m)
            (unionTopics (c_topics m) postTopics) (c_timestamp m).

Definition pass2Step (st : AnchorState) (post : XPost) : AnchorState :=
  if bool_decide (id post ∈ processed st) then st
  else
    let postTopics := extractTopics post in
    let postTime := timestamp post in
    let postText := JsString.toLowerCase (text post) in
    match findIndex (matches2 postText postTopics postTime) (incidents st) with
    | Some i =>
        mkAnchor (alter (attach2 post postTopics) i (incidents st))
                 ({[ id post ]} ∪ processed st)
    | None => st
    end.

Definition pass1 (posts : list XPost) : AnchorState :=
  fold_left pass1Step posts (mkAnchor [] ∅).

Definition pass2 (posts : list XPost) (st : AnchorState) : AnchorState :=
  fold_left pass2Step posts st.

Definition anchorIncidentsToLocations (posts : list XPost) : list Cluster :=
  let st := pass2 posts (pass1 posts) in
  List.filter (fun incident => (1 <=? length (c_posts incident))%nat) (incidents st).

Definition groupPostsByIncident (posts : list XPost) : list (list XPost * string) :=
  map (fun incident => (c_posts incident, c_location incident))
      (anchorIncidentsToLocations posts).

(** ** 4.6 The engagement filter *)

Definition hasEngagement (post : XPost) : bool :=
  let engagement := engagement post in
  (likes engagement >? 0)%Z || (retweets engagement >? 0)%Z
  || (replies engagement >? 0)%Z || (views engagement >? 0)%Z.

Definition filterLowEngagementPosts (posts : list XPost) : list XPost :=
  List.filter hasEngagement posts.

(** ** 4.5 Narrative synthesizer *)

Record TLDR : Type := mkTLDR {
  summary : string;
  citations : list TLDRCitation
}.

Module TldrPatterns.
Import Regex.

(** case-sensitive literals, for the one pattern without the [i] flag *)
Fixpoint litExact (s : string) : re :=
  match s with
  | EmptyString => Eps
  | String a s' => Seq (Chr (Ascii.eqb a)) (litExact s')
  end.

(** [/https?:\/\/[^\s]+/g] *)
Definition urlPattern : re :=
  seqs [litExact "http"; opt (Chr (Ascii.eqb "s"%char)); litExact "://"; plus nonSpace].

Definition whatWords : list string :=
  ["shooting"; "shots fired"; "gunfire"; "active shooter"].
Definition suspectWords : list string :=
  ["suspect"; "arrested"; "in custody"; "perpetrator"; "shooter"].
Definition resolutionWords : list string :=
  ["resolved"; "cleared"; "evacuated"; "contained"; "under control"; "arrested"; "in custody"].
Definition casualtyWords : list string :=
  ["injured"; "killed"; "wounded"; "victim"; "casualty"; "hospitalized"].

(** [/(.{0,200}(?:w1|w2|...).{0,200})/i]; group 0 is the whole match *)
Definition context (ws : list string) : re :=
  Grp 0 (seqs [upto 200 dot; lits ws; upto 200 dot]).

(** [/(?:suspect|arrested|in custody)/i] *)
Definition suspectPostPattern : re := lits ["suspect"; "arrested"; "in custody"].
End TldrPatterns.

Definition isShootingText (textLower : string) : bool :=
  JsString.includes textLower "shooting" || JsString.includes textLower "shots fired".

Definition likesPlusRetweets (p : XPost) : Z :=
  (likes (engagement p) + retweets (engagement p))%Z.

(** The comparator of the synthesizer's sort: shootings first, then engagement. *)
Definition cmpRelevance (a b : XPost) : Z :=
  let aIsShooting := isShootingText (JsString.toLowerCase (text a)) in
  let bIsShooting := isShootingText (JsString.toLowerCase (text b)) in
  if aIsShooting && negb bIsShooting then (-1)%Z
  else if negb aIsShooting && bIsShooting then 1%Z
  else (likesPlusRetweets b - likesPlusRetweets a)%Z.

Record Extracted : Type := mkExtracted {
  whatHappened : list string;
  suspectInfo : list string;
  resolution : list string;
  casualties : list string
}.

(** One category of the extraction loop: test the lower-cased text, capture
    the context from the cleaned text, push it unless already present. *)
Definition pushContext (ws : list string) (textLower cleanText : string)
           (acc : list string) : list string :=
  if Regex.test (Regex.lits ws) textLower then
    match Regex.jsMatch (TldrPatterns.context ws) cleanText with
    | Some c =>
        match Regex.group 0 c with
        | Some m0 => if arrIncludes acc m0 then acc else (acc ++ [m0])%list
        | None => acc
        end
    | None => acc
    end
  else acc.

(** The body of [topPosts.forEach]; the [times] array it also fills is never
    read afterwards. *)
Definition extractStep (acc : Extracted) (post : XPost) : Extracted :=
  let textLower := JsString.toLowerCase (text post) in
  let cleanText := JsString.trim (Regex.removeAll TldrPatterns.urlPattern (text post)) in
  mkExtracted
    (pushContext TldrPatterns.whatWords textLower cleanText (whatHappened acc))
    (pushContext TldrPatterns.suspectWords textLower cleanText (suspectInfo acc))
    (pushContext TldrPatterns.resolutionWords textLower cleanText (resolution acc))
    (pushContext TldrPatterns.casualtyWords textLower cleanText (casualties acc)).

(** The filter predicate of [locationPosts]. *)
Definition mentionsIncidentLocation (incidentLocation : string) (p : XPost) : bool :=
  let text := JsString.toLowerCase (text p) in
  let locLower := JsString.toLowerCase incidentLocation in
  JsString.includes text locLower
  || (JsString.includes locLower "stanford" && JsString.includes text "stanford")
  || (JsString.includes locLower "westfield"
      && (JsString.includes text "westfield" || JsString.includes text "valley fair"))
  || (JsString.includes locLower "palo alto" && JsString.includes text "palo alto")
  || (JsString.includes locLower "san jose" && JsString.includes text "san jose").

(** The predicate of the [find] that selects the primary post. *)
Definition isPrimaryPost (incidentLocation : string) (p : XPost) : bool :=
  let text := JsString.toLowerCase (text p) in
  let locLower := JsString.toLowerCase incidentLocation in
  (JsString.includes text "shooting" || JsString.includes text "shots fired")
  && (JsString.includes text locLower
      || (JsString.includes locLower "stanford" && JsString.includes text "stanford")
      || (JsString.includes locLower "westfield"
          && (JsString.includes text "westfield" || JsString.includes text "valley fair"))).

Definition isSuspectPost (p : XPost) : bool :=
  Regex.test TldrPatterns.suspectPostPattern (JsString.toLowerCase (text p)).

(** [a || b] on optional objects *)
Definition orElse {A : Type} (a b : option A) : option A :=
  match a with Some x => Some x | None => b end.

(** [s || d] on strings: the empty string is falsy *)
Definition strOr (s d : string) : string :=
  match s with EmptyString => d | _ => s end.

(** The working variables of the summary builder. *)
Record Draft : Type := mkDraft {
  d_summary : string;
  d_citations : list TLDRCitation;
  d_usedUrls : gset string
}.

(** The "what happened" block. Reading [primaryPost.url] when no post was
    selected is a [TypeError]: the result is [None]. *)
Definition whatBlock (incidentLocation : string) (relevantPosts : list XPost)
           (casualties : list string) (d : Draft) : option Draft :=
  primaryPost ← orElse (jsFind (isPrimaryPost incidentLocation) relevantPosts)
                       (relevantPosts !! 0%nat);
  let '(cits, used) :=
    if negb (bool_decide (url primaryPost ∈ d_usedUrls d))
    then ((d_citations d ++ [mkCitation 1 (url primaryPost) (username (author primaryPost))])%list,
          {[ url primaryPost ]} ∪ d_usedUrls d)
    else (d_citations d, d_usedUrls d) in
  let s1 := d_summary d ++ "Shooting reported at " ++ incidentLocation ++ ". [@"
            ++ username (author primaryPost) ++ "](" ++ url primaryPost ++ ") " in
  let s2 :=
    match casualties with
    | c0 :: _ =>
        let casualtyText := JsString.toLowerCase c0 in
        if JsString.includes casualtyText "killed" || JsString.includes casualtyText "dead"
        then s1 ++ "reported fatalities"
        else if JsString.includes casualtyText "injured" then s1 ++ "reported injuries"
        else s1
    | [] => s1 ++ "reported the incident"
    end in
  Some (mkDraft (s2 ++ ". ") cits used).

(** The "suspect" block; [s0] is [suspectInfo[0]]. *)
Definition suspectBlock (relevantPosts : list XPost) (s0 : string) (d : Draft) : Draft :=
  let suspectPost := orElse (jsFind isSuspectPost relevantPosts) (relevantPosts !! 1%nat) in
  let '(cits, used) :=
    match suspectPost with
    | Some sp =>
        if negb (bool_decide (url sp ∈ d_usedUrls d))
        then ((d_citations d ++
                 [mkCitation (Z.of_nat (length (d_citations d)) + 1) (url sp)
                             (username (author sp))])%list,
              {[ url sp ]} ∪ d_usedUrls d)
        else (d_citations d, d_usedUrls d)
    | None => (d_citations d, d_usedUrls d)
    end in
  let s :=
    if JsString.includes (JsString.toLowerCase s0) "arrested"
       || JsString.includes (JsString.toLowerCase s0) "in custody"
    then d_summary d ++ "[@"
         ++ strOr (from_option (fun sp => username (author sp)) "" suspectPost) "source"
         ++ "](" ++ strOr (from_option url "" suspectPost) "#"
         ++ ") confirmed suspect in custody. "
    else d_summary d in
  mkDraft s cits used.

(** The summary builder proper: everything after [relevantPosts] is known. *)
Definition buildSummary (incidentLocation : string) (relevantPosts : list XPost)
           (ex : Extracted) (isShooting : bool) : option TLDR :=
  d1 ← (if (0 <? length (whatHappened ex))%nat && isShooting
        then whatBlock incidentLocation relevantPosts (casualties ex) (mkDraft "" [] ∅)
        else Some (mkDraft "" [] ∅));
  let d2 :=
    match suspectInfo ex with
    | s0 :: _ => suspectBlock relevantPosts s0 d1
    | [] => d1
    end in
  let s3 :=
    match resolution ex with
    | r0 :: _ =>
        if JsString.includes (JsString.toLowerCase r0) "cleared"
        then d_summary d2 ++ "Scene cleared." else d_summary d2
    | [] => d_summary d2
    end in
  Some (mkTLDR (JsString.trim s3) (d_citations d2)).

Definition generateTLDR (posts : list XPost) (incidentLocation : string) : option TLDR :=
  if (length posts =? 0)%nat then Some (mkTLDR "No information available." [])
  else
    let sortedPosts := jsSort cmpRelevance posts in
    let topPosts := take 7 sortedPosts in
    let isShooting :=
      existsb (fun p => JsString.includes (JsString.toLowerCase (text p)) "shooting") topPosts in
    let ex := fold_left extractStep topPosts (mkExtracted [] [] [] []) in
    let locationPosts := List.filter (mentionsIncidentLocation incidentLocation) topPosts in
    let relevantPosts :=
      if (0 <? length locationPosts)%nat then locationPosts else topPosts in
    buildSummary incidentLocation relevantPosts ex isShooting.

(** ** 4.6 Incident assembler *)

(** [extractLocation], the fallback used when the anchored location is the
    empty string. [locationScores] is a [Map], iterated in insertion order;
    its scores are the exact sums of the confidences (see the conventions). *)
Definition bumpScore (scores : list (string * Q)) (loc : string) (conf : Q)
  : list (string * Q) :=
  match findIndex (fun e => String.eqb (fst e) loc) scores with
  | Some i => alter (fun e => (fst e, (snd e + conf)%Q)) i scores
  | None => (scores ++ [(loc, (0 + conf)%Q)])%list
  end.

Definition fallbackCities : list string :=
  ["stanford"; "palo alto"; "san jose"; "menlo park"; "mountain view";
   "redwood city"; "east palo alto"; "santa clara"; "cupertino"; "sunnyvale";
   "fremont"; "milpitas"; "westfield valley fair"; "valley fair"].

Definition upperChar (a : ascii) : ascii :=
  let n := nat_of_ascii a in
  if (97 <=? n)%nat && (n <=? 122)%nat then ascii_of_nat (n - 32) else a.

Definition capitalize (s : string) : string :=
  match s with
  | EmptyString => EmptyString
  | String a s' => String (upperChar a) s'
  end.

Definition extractLocation (posts : list XPost) : string :=
  let locationScores :=
    fold_left (fun scores post =>
      let postLocation := extractPostLocation post in
      if negb (String.eqb (location postLocation) "")
         && Qgt_bool (loc_confidence postLocation) 0.5%Q
      then bumpScore scores (location postLocation) (loc_confidence postLocation)
      else scores) posts [] in
  if (length locationScores =? 0)%nat then
    let foundLocations :=
      fold_left (fun found post =>
        let text := JsString.toLowerCase (text post) in
        fold_left (fun found city =>
          if JsString.includes text city && negb (arrIncludes found city)
          then (found ++ [city])%list else found) fallbackCities found) posts [] in
    match foundLocations with
    | f0 :: _ => capitalize f0
    | [] => "Bay Area, CA"
    end
  else
    fst (fold_left (fun best e =>
           if Qgt_bool (snd e) (snd best) then e else best) locationScores ("", 0%Q)).

(** The output record. Its [id] (a fresh UUID), [title], [description],
    [coordinates] and status label are presentation fields that no property
    below reads; they are left out. *)
Record Incident : Type := mkIncident {
  i_severity : Severity;
  i_location : string;
  i_timestamp : Z;
  i_summary : string;
  i_citations : list TLDRCitation;
  i_sources : list XPost;
  i_totalEngagement : TotalEngagement
}.

(** A catalogue entry together with what its search queries returned, one
    list per query (a failed query contributes nothing). *)
Record KnownIncident : Type := mkKnown {
  k_location : string;
  k_timestamp : Z;
  k_description : string;
  k_results : list (list XPost)
}.

(** [postsMap]: a [Map] keyed by post id, first occurrence kept, iterated in
    insertion order. *)
Definition addIfNew (acc : list XPost) (tweet : XPost) : list XPost :=
  if existsb (fun p => String.eqb (id p) (id tweet)) acc then acc
  else (acc ++ [tweet])%list.

Definition dedupeById (tweets : list XPost) : list XPost :=
  fold_left addIfNew tweets [].

Definition catalogueSeverity (description : string) : Severity :=
  if JsString.includes description "mass shooting"
     || JsString.includes description "4 people killed"
     || JsString.includes description "3 children killed" then critical
  else if JsString.includes description "fatally" || JsString.includes description "died"
          || JsString.includes description "killed" then high
  else if JsString.includes description "life-threatening" then high
  else medium.

(** One iteration of the loop of [fetchHardcodedIncidents]; an exception
    raised while building the incident is caught and the entry skipped. *)
Definition hardcodedIncident (incidentData : KnownIncident) : option Incident :=
  let posts := filterLowEngagementPosts (dedupeById (concat (k_results incidentData))) in
  if (length posts =? 0)%nat then None
  else
    tldrResult ← generateTLDR posts (k_location incidentData);
    Some (mkIncident (catalogueSeverity (k_description incidentData))
                     (k_location incidentData) (k_timestamp incidentData)
                     (strOr (summary tldrResult) (k_description incidentData))
                     (citations tldrResult) posts (calculateTotalEngagement posts)).

Definition fetchHardcodedIncidents (catalogue : list KnownIncident) : list Incident :=
  omap hardcodedIncident catalogue.

(** The reliability gate. *)
Definition isReliable (s : SentimentResult) (nposts : nat) : bool :=
  negb (bool_decide (sentiment s = negative))
  && ((verifiedCount s >? 0)%Z || Qgt_bool (confidence s) 0.6%Q || (1 <=? nposts)%nat).

Definition skipped (s : SentimentResult) (nposts : nat) : bool :=
  negb (isReliable s nposts) && (nposts <? 2)%nat.

(** [Math.max] of two numbers: [NaN] as soon as one of them is. *)
Definition mathMax (a b : option Z) : option Z :=
  x ← a; y ← b; Some (Z.max x y).

(** [new Date(Math.max(...timestamps)).toISOString()], as a time value.
    [None] is the [RangeError] that [toISOString] throws on an invalid date:
    when a timestamp does not parse the maximum is [NaN], and without any
    timestamp it is [-Infinity]. *)
Definition mostRecent (posts : list XPost) : option Z :=
  match posts with
  | [] => None
  | p :: ps => fold_left mathMax (map timestamp ps) (timestamp p)
  end.

(** The body of [incidentGroups.forEach]: [Some None] when the group is
    skipped by the gate, [None] when building the incident throws (which
    rejects the whole call). *)
Definition liveIncident (group : list XPost * string) : option (option Incident) :=
  let posts := fst group in
  let anchoredLocation := snd group in
  let s := analyzeSentiment posts in
  if skipped s (length posts) then Some None
  else
    let location := strOr anchoredLocation (extractLocation posts) in
    tldrResult ← generateTLDR posts location;
    mostRecent ← mostRecent posts;
    Some (Some (mkIncident (determineSeverity posts) location mostRecent
                           (summary tldrResult) (citations tldrResult) posts
                           (calculateTotalEngagement posts))).

Fixpoint liveIncidents (groups : list (list XPost * string)) : option (list Incident) :=
  match groups with
  | [] => Some []
  | g :: rest =>
      r ← liveIncident g;
      rs ← liveIncidents rest;
      Some (match r with Some i => i :: rs | None => rs end)
  end.

Definition incidentReactions (i : Incident) : Z :=
  (totalLikes (i_totalEngagement i) + totalRetweets (i_totalEngagement i))%Z.

(** The comparator of the final merge. *)
Definition cmpIncident (a b : Incident) : Z :=
  let severityDiff := (severityOrder (i_severity b) - severityOrder (i_severity a))%Z in
  if negb (severityDiff =? 0)%Z then severityDiff
  else (incidentReactions b - incidentReactions a)%Z.

(** [fetchRealTimeIncidents(query)] for a non-blank [query]; [tweets] is what
    [searchTweets(query, 100)] returned. [None] is a thrown error. *)
Definition fetchRealTimeIncidents_query (catalogue : list KnownIncident)
           (tweets : list XPost) : option (list Incident) :=
  let hardcodedIncidents := fetchHardcodedIncidents catalogue in
  if (length tweets =? 0)%nat then Some []
  else
    let filteredPosts := filterLowEngagementPosts tweets in
    let incidentGroups := groupPostsByIncident filteredPosts in
    incidents ← liveIncidents incidentGroups;
    Some (jsSort cmpIncident (hardcodedIncidents ++ incidents)%list).

(** Police posts are marked verified as they enter the map. *)
Definition markVerified (p : XPost) : XPost :=
  mkXPost (id p) (text p) (mkAuthor (username (author p)) (name (author p)) true)
          (url p) (timestamp p) (engagement p).

Definition addPoliceIfNew (acc : list XPost) (post : XPost) : list XPost :=
  if existsb (fun p => String.eqb (id p) (id post)) acc then acc
  else (acc ++ [markVerified post])%list.

(** [fetchRealTimeIncidents()] on the default path; the three arguments after
    the catalogue are the flattened city searches, the police reports and the
    flattened general searches. *)
Definition fetchRealTimeIncidents_default (catalogue : list KnownIncident)
           (citySearches policeReports generalSearches : list XPost)
  : option (list Incident) :=
  let hardcodedIncidents := fetchHardcodedIncidents catalogue in
  let allPostsMap :=
    fold_left addIfNew generalSearches
      (fold_left addPoliceIfNew policeReports
         (fold_left addIfNew citySearches [])) in
  let allPosts := filterLowEngagementPosts allPostsMap in
  if (length allPosts =? 0)%nat then Some hardcodedIncidents
  else
    let incidentGroups := groupPostsByIncident allPosts in
    incidents ← liveIncidents incidentGroups;
    Some (jsSort cmpIncident (hardcodedIncidents ++ incidents)%list).

(** ** Coordinates of a location ([getCoordinates])

    The latitude and longitude literals are kept as exact decimals; the code
    only copies them. [Object.entries] walks the keys in insertion order. *)

Record Coordinates : Type := mkCoordinates {
  lat : Q;
  lng : Q
}.

Definition locationMap : list (string * Coordinates) :=
  [ ("stanford", mkCoordinates 37.4275 (-122.1697));
    ("palo alto", mkCoordinates 37.4419 (-122.1430));
    ("valley fair", mkCoordinates 37.3230 (-121.9465));
    ("westfield", mkCoordinates 37.3230 (-121.9465));
    ("westfield valley fair", mkCoordinates 37.3230 (-121.9465));
    ("san jose", mkCoordinates 37.3382 (-121.8863));
    ("menlo park", mkCoordinates 37.4538 (-122.1821));
    ("mountain view", mkCoordinates 37.3861 (-122.0839));
    ("redwood city", mkCoordinates 37.4852 (-122.2364));
    ("east palo alto", mkCoordinates 37.4688 (-122.1411));
    ("santa clara", mkCoordinates 37.3541 (-121.9552));
    ("cupertino", mkCoordinates 37.3230 (-122.0322));
    ("sunnyvale", mkCoordinates 37.3688 (-122.0363));
    ("fremont", mkCoordinates 37.5483 (-121.9886));
    ("milpitas", mkCoordinates 37.4283 (-121.9066));
    ("oakland", mkCoordinates 37.8044 (-122.2711));
    ("san francisco", mkCoordinates 37.7749 (-122.4194));
    ("stockton", mkCoordinates 37.9577 (-121.2908));
    ("outer richmond", mkCoordinates 37.7715 (-122.5045));
    ("skyline high school", mkCoordinates 37.7894 (-122.1614));
    ("laney college", mkCoordinates 37.7974 (-122.2653)) ]%Q.

Definition getCoordinates (location : string) : Coordinates :=
  let locLower := JsString.toLowerCase location in
  match jsFind (fun entry => JsString.includes locLower (fst entry)) locationMap with
  | Some entry => snd entry
  | None => mkCoordinates 37.4275 (-122.1697)
  end.

(** ** Fetch layer: what [searchTweets] does with a response

    The part of [searchTweets] after the response has been parsed. A JSON
    field that may be absent is an [option]; a string field that is absent is
    the empty string (both are falsy); [null] array elements are [None]. A
    tweet's [created_at], when present, is the time value of the string, as a
    post's [timestamp]. User ids are assumed not to be names of
    [Object.prototype] members. *)

Record RawMetrics : Type := mkRawMetrics {
  like_count : option Z;
  retweet_count : option Z;
  reply_count : option Z;
  quote_count : option Z;
  impression_count : option Z
}.

Record RawTweet : Type := mkRawTweet {
  t_id : string;
  t_text : string;
  t_author_id : string;
  t_created_at : option (option Z);
  t_public_metrics : option RawMetrics
}.

Record RawUser : Type := mkRawUser {
  u_id : string;
  u_username : string;
  u_name : string;
  u_verified : bool
}.

(** [Math.max(10, Math.min(100, maxResults))] *)
Definition validMaxResults (maxResults : Z) : Z := Z.max 10 (Z.min 100 maxResults).

(** [x || 0] on an optional count *)
Definition orZero (x : option Z) : Z := from_option (fun v => v) 0%Z x.

(** [tweet.public_metrics?.field || 0] *)
Definition metric (field : RawMetrics -> option Z) (tweet : RawTweet) : Z :=
  orZero (t_public_metrics tweet ≫= field).

(** The [reduce] that indexes the users by id; a later user with the same id
    replaces an earlier one. *)
Definition indexUsers (users : list (option RawUser)) : gmap string RawUser :=
  fold_left (fun acc user =>
    match user with
    | Some u => if negb (String.eqb (u_id u) "") then <[u_id u := u]> acc else acc
    | None => acc
    end) users ∅.

Definition relevantKeywords : list string :=
  ["shooting"; "shots fired"; "active shooter"; "emergency"; "police"; "SWAT";
   "evacuate"; "incident"; "alert"; "crime"; "arrest"; "suspect"; "victim";
   "hospital"; "ambulance"; "fire"; "explosion"; "threat"; "danger"; "lockdown";
   "breaking"; "officer"; "respond"; "scene"; "investigation"; "homicide";
   "stabbing"; "assault"; "robbery"; "weapon"; "gun"; "violence"].

(** The predicate of [tweets.filter]. *)
Definition keepTweet (users : gmap string RawUser) (tweet : option RawTweet) : bool :=
  match tweet with
  | None => false
  | Some tweet =>
      if String.eqb (t_id tweet) "" || String.eqb (t_text tweet) "" then false
      else
        let text := JsString.toLowerCase (t_text tweet) in
        let hasRelevantKeyword := JsString.includesAny text relevantKeywords in
        let isVerified := from_option u_verified false (users !! t_author_id tweet) in
        let hasEngagement := (metric like_count tweet >? 10)%Z
                             || (metric retweet_count tweet >? 5)%Z in
        hasRelevantKeyword || isVerified || hasEngagement
  end.

(** The body of the final [map]; [now] is [new Date()] for a tweet without
    [created_at]. *)
Definition toPost (now : Z) (users : gmap string RawUser) (tweet : RawTweet) : XPost :=
  let author := users !! t_author_id tweet in
  mkXPost (t_id tweet) (strOr (t_text tweet) "")
    (match author with
     | Some a => mkAuthor (strOr (u_username a) "unknown") (strOr (u_name a) "Unknown User")
                          (u_verified a)
     | None => mkAuthor "unknown" "Unknown User" false
     end)
    ("https://twitter.com/" ++ strOr (from_option u_username "" author) "unknown"
       ++ "/status/" ++ t_id tweet)
    (from_option (fun t => t) (Some now) (t_created_at tweet))
    (mkEngagement (metric like_count tweet) (metric retweet_count tweet)
                  (metric reply_count tweet) (metric quote_count tweet)
                  (metric impression_count tweet)).

(** The posts that the [filter] and the [map] make of the tweets. *)
Definition processTweets (now : Z) (users : list (option RawUser))
           (tweets : list (option RawTweet)) : list XPost :=
  let usersById := indexUsers users in
  let filteredTweets := List.filter (keepTweet usersById) tweets in
  omap (fun tweet => toPost now usersById <$> tweet) filteredTweets.

(** What [searchTweets] returns for a response whose [data] is the array
    [tweets]. Before the filter the code logs [tweets[0].id]: when the first
    element is [null] that read throws a [TypeError], which the [catch]
    rethrows ([None]). *)
Definition searchTweetsResponse (now : Z) (users : list (option RawUser))
           (tweets : list (option RawTweet)) : option (list XPost) :=
  match tweets with
  | None :: _ => None
  | _ => Some (processTweets now users tweets)
  end.

(** ** Fetch layer: accumulation across queries

    [searchByCity] and [fetchHardcodedIncidents] add the tweets of one query
    after the other to the same accumulator, skipping ids already present. *)
Definition accumulateQueries (results : list (list XPost)) : list XPost :=
  fold_left (fun allTweets tweets => fold_left addIfNew tweets allTweets) results [].

(** The [allPostsMap] of the default path: city searches, then police reports
    (marked verified as they enter), then general searches. *)
Definition mergeSearches (citySearches policeReports generalSearches : list XPost)
  : list XPost :=
  fold_left addIfNew generalSearches
    (fold_left addPoliceIfNew policeReports
       (fold_left addIfNew citySearches [])).

(** * Vocabulary of the properties *)

(** ** Orders and invariants *)

(** [a] may stand before [b] *)
Definition before {A : Type} (cmp : A -> A -> Z) (a b : A) : Prop := (cmp a b <= 0)%Z.

(** The priority cascade of [determineSeverity], as a function of its three
    findings. *)
Definition cascade (shooting criticalKw : bool) (reactions : Z) : Severity :=
  if shooting then (if (reactions >? 500)%Z then critical else high)
  else if criticalKw && (reactions >? 1000)%Z then critical
  else if criticalKw && (reactions >? 500)%Z then high
  else if (reactions >? 1000)%Z then high
  else if (reactions >? 500)%Z then medium
  else low.

Definition byPriority (a b : Place) : Prop := (priority a <= priority b)%Z.

#[local] Instance byPriority_dec (a b : Place) : Decision (byPriority a b).
Proof. unfold byPriority. apply _. Defined.

Definition hit (textLower : string) (pl : Place) : bool :=
  JsString.includesAny textLower (keywords pl).

Definition day : Z := 24 * (1000 * 60 * 60).

Definition hour : Z := 1000 * 60 * 60.

(** All the member posts of all the clusters, in cluster order. *)
Definition allPosts (l : list Cluster) : list XPost := concat (map c_posts l).

(** How the matched cluster changes when a post is attached to it. *)
Record grows (post : XPost) (c c' : Cluster) : Prop := mkGrows {
  grows_posts : c_posts c' = (c_posts c ++ [post])%list;
  grows_timestamp : c_timestamp c' = c_timestamp c \/ c_timestamp c' = timestamp post;
  grows_near : outside24h (timestamp post) (c_timestamp c) = false
}.

(** One iteration of either pass: the post is skipped, attached to the
    first matching cluster, or (first pass only) seeds a new cluster. *)
Inductive step (post : XPost) (st st' : AnchorState) : Prop :=
| step_skip : st' = st -> step post st st'
| step_attach (i : nat) (c c' : Cluster) :
    id post ∉ processed st ->
    processed st' = {[ id post ]} ∪ processed st ->
    incidents st !! i = Some c ->
    incidents st' = <[i := c']> (incidents st) ->
    grows post c c' ->
    step post st st'
| step_create (c' : Cluster) :
    id post ∉ processed st ->
    processed st' = {[ id post ]} ∪ processed st ->
    incidents st' = (incidents st ++ [c'])%list ->
    c_posts c' = [post] -> c_timestamp c' = timestamp post ->
    step post st st'.

Definition idsOnce (st : AnchorState) : Prop :=
  NoDup (map id (allPosts (incidents st)))
  /\ forall p, p ∈ allPosts (incidents st) -> id p ∈ processed st.

(** Two posts whose timestamps parse and differ by at most 24 hours. *)
Definition near (a b : XPost) : Prop :=
  exists ta tb, timestamp a = Some ta /\ timestamp b = Some tb
                /\ (Z.abs (ta - tb) <= day)%Z.

(** [a] and [b] are joined by posts of [l], each within 24 hours of the
    next. *)
Definition linked (l : list XPost) : XPost -> XPost -> Prop :=
  rtc (fun a b => a ∈ l /\ b ∈ l /\ near a b).

(** The invariant of a cluster of a batch whose timestamps all parse: any two
    members are linked through members. *)
Definition chained (batch : list XPost) (c : Cluster) : Prop :=
  (exists m, m ∈ c_posts c /\ timestamp m = c_timestamp c)
  /\ (forall m, m ∈ c_posts c -> m ∈ batch)
  /\ (forall a b, a ∈ c_posts c -> b ∈ c_posts c -> linked (c_posts c) a b).

(** A citation that quotes the url and the handle of a source post. *)
Definition fromSource (posts : list XPost) (c : TLDRCitation) : Prop :=
  exists p, p ∈ posts /\ cite_url c = url p /\ cite_username c = username (author p).

Record wellCited (posts : list XPost) (d : Draft) : Prop := mkWellCited {
  wc_sources : Forall (fromSource posts) (d_citations d);
  wc_ids : map cite_id (d_citations d)
           = map Z.of_nat (seq 1 (length (d_citations d)));
  wc_nodup : NoDup (map cite_url (d_citations d));
  wc_used : forall c, c ∈ d_citations d -> cite_url c ∈ d_usedUrls d
}.

Module RegexLang.
Import Regex.

(** The words a pattern can match (quantifier bounds are not tracked: this
    is an upper bound of the matcher, enough to tell what every match
    contains). *)
Inductive lang : re -> list ascii -> Prop :=
| lang_eps : lang Eps []
| lang_chr p a : p a = true -> lang (Chr p) [a]
| lang_seq r1 r2 w1 w2 : lang r1 w1 -> lang r2 w2 -> lang (Seq r1 r2) (w1 ++ w2)
| lang_alt_l r1 r2 w : lang r1 w -> lang (Alt r1 r2) w
| lang_alt_r r1 r2 w : lang r2 w -> lang (Alt r1 r2) w
| lang_rep_nil r m : lang (Rep r m) []
| lang_rep_cons r m m' w1 w2 :
  lang r w1 -> lang (Rep r m') w2 -> lang (Rep r m) (w1 ++ w2)
| lang_grp n r w : lang r w -> lang (Grp n r) w.

(** [w] contains, up to letter case, one of the words [ws]. *)
Definition mentions (ws : list string) (w : list ascii) : Prop :=
exists ty pre m post,
  ty ∈ ws /\ w = (pre ++ m ++ post)%list
  /\ map JsString.lowerChar m = map JsString.lowerChar (list_ascii_of_string ty).

(** Every word of [r] mentions one of [ws]. *)
Definition must (ws : list string) (r : re) : Prop :=
forall w, lang r w -> mentions ws w.


End RegexLang.







(** ** Sample inputs *)

(** A post that has been quoted three times and has no other engagement. *)
Definition quotedOnlyPost : XPost :=
  mkXPost "1001" "Shots fired near Santana Row" (mkAuthor "witness" "A Witness" false)
          "https://twitter.com/witness/status/1001" (Some 1764705600000%Z)
          (mkEngagement 0 0 0 3 0).

Definition hoaxPost : XPost :=
  mkXPost "2001" "Shooting at Santana Row is a hoax" (mkAuthor "anon" "Anon" false)
          "https://twitter.com/anon/status/2001" (Some 1764705600000%Z)
          (mkEngagement 12 3 1 0 250).

(** A catalogue of two entries, each with one post returned by its queries:
    the first is of medium severity, the second critical. *)
Definition cataloguePost (n : string) (t : string) : XPost :=
  mkXPost n t (mkAuthor "newsdesk" "News Desk" true)
          ("https://twitter.com/newsdesk/status/" ++ n) (Some 1764705600000%Z)
          (mkEngagement 40 10 5 1 900).

Definition sampleCatalogue : list KnownIncident :=
  [ mkKnown "Westfield Valley Fair Mall, San Jose" 1764705600000
            "A 17-year-old opened fire at the mall, injuring three people."
            [[cataloguePost "3001" "Shooting at Westfield Valley Fair Mall, three injured"]];
    mkKnown "Stockton" 1764446400000
            "A mass shooting at a birthday party."
            [[cataloguePost "3002" "Mass shooting in Stockton at a birthday party"]] ].

Definition twoVenuesPost : XPost :=
  mkXPost "4001" "Shots fired near Stanford Mall, suspects fled to Santana Row"
          (mkAuthor "scanner" "Scanner" false)
          "https://twitter.com/scanner/status/4001" (Some 1764705600000%Z)
          (mkEngagement 30 12 4 0 1500).

Definition venueAndCityPost : XPost :=
  mkXPost "4002" "Active shooter at Valley Fair Mall in San Jose, avoid the area"
          (mkAuthor "scanner" "Scanner" false)
          "https://twitter.com/scanner/status/4002" (Some 1764705600000%Z)
          (mkEngagement 30 12 4 0 1500).

Definition rowPost (n : string) (t : string) (time : Z) : XPost :=
  mkXPost n t (mkAuthor ("user" ++ n) "Local Reporter" false)
          ("https://twitter.com/user" ++ n ++ "/status/" ++ n) (Some time)
          (mkEngagement 20 5 2 0 700).

(** Three reports from Santana Row, 20 hours after one another, and a
    later report from elsewhere. *)
Definition postA : XPost := rowPost "5001" "Shooting at Santana Row" 0.
Definition postB : XPost := rowPost "5002" "Shooting at Santana Row, suspect at large" (20 * hour).
Definition postC : XPost := rowPost "5003" "Shooting at Santana Row, area still closed" (40 * hour).
Definition postD : XPost := rowPost "5004" "Police activity in Cupertino" (41 * hour).

Definition stabbingAlert : XPost :=
  mkXPost "6001" "Emergency Alert: 3 men stabbed downtown"
          (mkAuthor "citydesk" "City Desk" false)
          "https://twitter.com/citydesk/status/6001" (Some 1764705600000%Z)
          (mkEngagement 15 6 2 0 400).

Definition plainAlert : XPost :=
  mkXPost "6002" "Emergency Alert: avoid downtown"
          (mkAuthor "citydesk" "City Desk" false)
          "https://twitter.com/citydesk/status/6002" (Some 1764705600000%Z)
          (mkEngagement 15 6 2 0 400).

(** An alert in which street-type letters occur only inside words ("active",
    "victims"). *)
Definition threatAlert : XPost :=
  mkXPost "6004" "Emergency Alert: active threat, victims reported"
          (mkAuthor "citydesk" "City Desk" false)
          "https://twitter.com/citydesk/status/6004" (Some 1764705600000%Z)
          (mkEngagement 15 6 2 0 400).


(** Two clusters with the same keyword findings and 400 against 1500 likes
    plus reshares. *)
Definition quietReport : XPost :=
  mkXPost "7001" "Police activity near Main Quad" (mkAuthor "campus" "Campus Watch" false)
          "https://twitter.com/campus/status/7001" (Some 1764705600000%Z)
          (mkEngagement 300 100 10 2 5000).

Definition loudReport : XPost :=
  mkXPost "7002" "Police ask everyone to stay clear of Main Quad"
          (mkAuthor "campus" "Campus Watch" false)
          "https://twitter.com/campus/status/7002" (Some 1764705600000%Z)
          (mkEngagement 1000 500 80 9 90000).

(** ** Vocabulary of the further properties *)

(** [Number.MAX_SAFE_INTEGER]: up to it the sums of counts that the code
    computes in double precision are the exact integer sums. *)
Definition maxSafeInteger : Z := 2 ^ 53 - 1.

Definition countsNonNegative (e : Engagement) : Prop :=
  (0 <= likes e /\ 0 <= retweets e /\ 0 <= replies e /\ 0 <= quotes e /\ 0 <= views e)%Z.

Definition withinSafe (t : TotalEngagement) : Prop :=
  (totalLikes t + totalRetweets t <= maxSafeInteger
   /\ totalReplies t <= maxSafeInteger /\ totalQuotes t <= maxSafeInteger
   /\ totalViews t <= maxSafeInteger)%Z.

(** Posts whose counts are non-negative and whose totals are in the range
    where the code's additions are exact. *)
Definition exactTotals (posts : list XPost) : Prop :=
  Forall (fun p => countsNonNegative (engagement p)) posts
  /\ withinSafe (calculateTotalEngagement posts).

(** Component-wise sum of two engagement totals. *)
Definition addTotals (a b : TotalEngagement) : TotalEngagement :=
  mkTotal (totalLikes a + totalLikes b) (totalRetweets a + totalRetweets b)
          (totalReplies a + totalReplies b) (totalQuotes a + totalQuotes b)
          (totalViews a + totalViews b)%Z.


(** The critical keywords that a lower-cased text can contain. *)
Definition effectiveCriticalKeywords : list string :=
  ["emergency"; "evacuate"; "police"; "lockdown"].

(** The topic labels, in the order in which the tagger emits them. *)
Definition topicVocabulary : list string :=
  ["shooting"; "active_shooter"; "arrest"; "suspect"; "casualties"; "evacuation"; "lockdown"].

(** A post in which the extractor finds a location (confidence at least 0.5). *)
Definition located (post : XPost) : bool :=
  negb (Qlt_bool (loc_confidence (extractPostLocation post)) 0.5%Q).

(** What every cluster of a batch satisfies at any time of the anchoring. *)
Record wellFormed (batch : list XPost) (c : Cluster) : Prop := mkWellFormed {
  wf_nonempty : c_posts c <> [];
  wf_members : forall m, m ∈ c_posts c -> m ∈ batch;
  wf_timestamp : exists m, m ∈ c_posts c /\ timestamp m = c_timestamp c
}.

(** Where the location and the topics of a cluster come from. *)
Record provenance (c : Cluster) : Prop := mkProvenance {
  pv_location : exists m, m ∈ c_posts c /\ located m = true
                          /\ location (extractPostLocation m) = c_location c;
  pv_topics_nodup : NoDup (c_topics c);
  pv_topics : forall t, t ∈ c_topics c <-> exists m, m ∈ c_posts c /\ t ∈ extractTopics m
}.

(** None of the words occurs in the text, whatever the letter case. *)
Definition mentionsNone (ws : list string) (text : string) : Prop :=
  forall w, w ∈ ws ->
    JsString.includes (JsString.toLowerCase text) (JsString.toLowerCase w) = false.

(** A raw tweet one of whose like, retweet, reply or impression counts is
    positive. *)
Definition rawEngaged (tweet : RawTweet) : Prop :=
  (metric like_count tweet > 0 \/ metric retweet_count tweet > 0
   \/ metric reply_count tweet > 0 \/ metric impression_count tweet > 0)%Z.

(** The confidences each stage of the extractor can return. *)
Definition stageConfidences (stage : Stage) : list Q :=
  match stage with
  | StagePlace => [0.95; 0.75]
  | StageAddress => [0.9]
  | StageBuilding => [0.85]
  | StageIntersection => [0.85]
  | StageNeighborhood => [0.7]
  | StageNone => [0]
  end%Q.

(** The processed ids are exactly the ids of the clustered posts. *)
Definition tracked (st : AnchorState) : Prop :=
  forall i, i ∈ processed st <-> i ∈ map id (allPosts (incidents st)).

(** The three loops of [extractLocation], by name. *)
Definition scoreStep (scores : list (string * Q)) (post : XPost) : list (string * Q) :=
  let postLocation := extractPostLocation post in
  if negb (String.eqb (location postLocation) "")
     && Qgt_bool (loc_confidence postLocation) 0.5%Q
  then bumpScore scores (location postLocation) (loc_confidence postLocation)
  else scores.

Definition cityStep (text : string) (found : list string) (city : string) : list string :=
  if JsString.includes text city && negb (arrIncludes found city)
  then (found ++ [city])%list else found.

Definition citiesStep (found : list string) (post : XPost) : list string :=
  fold_left (cityStep (JsString.toLowerCase (text post))) fallbackCities found.

Definition pickBest (best e : string * Q) : string * Q :=
  if Qgt_bool (snd e) (snd best) then e else best.

(** The posts of a catalogue entry that the refresh keeps. *)
Definition cataloguePosts (incidentData : KnownIncident) : list XPost :=
  filterLowEngagementPosts (dedupeById (concat (k_results incidentData))).

(** The groups that pass the reliability gate. *)
Definition keptGroup (group : list XPost * string) : bool :=
  negb (skipped (analyzeSentiment (fst group)) (length (fst group))).

(** What ties a live incident to its source posts. *)
Record builtFrom (i : Incident) : Prop := mkBuiltFrom {
  bf_location : i_location i <> "";
  bf_severity : i_severity i = determineSeverity (i_sources i);
  bf_totals : i_totalEngagement i = calculateTotalEngagement (i_sources i);
  bf_latest : forall p, p ∈ i_sources i ->
                exists t, timestamp p = Some t /\ (t <= i_timestamp i)%Z;
  bf_timestamp : exists p, p ∈ i_sources i /\ timestamp p = Some (i_timestamp i)
}.

(** ** Further sample inputs *)

Definition policeReport : XPost :=
  mkXPost "8001" "Officers responding to a report near Main Quad"
          (mkAuthor "StanfordDPS" "Stanford DPS" false)
          "https://twitter.com/StanfordDPS/status/8001" (Some 1764705600000%Z)
          (mkEngagement 50 20 3 1 4000).

Definition unlocatedPost : XPost :=
  mkXPost "8002" "Heard sirens all night, anyone know what happened?"
          (mkAuthor "nightowl" "Night Owl" false)
          "https://twitter.com/nightowl/status/8002" (Some 1764705600000%Z)
          (mkEngagement 4 0 1 0 90).

Definition weatherPost : XPost :=
  mkXPost "8003" "Lovely sunset over Santana Row tonight"
          (mkAuthor "photog" "Photog" false)
          "https://twitter.com/photog/status/8003" (Some 1764705600000%Z)
          (mkEngagement 9 2 0 0 300).

(** A located post with engagement whose timestamp does not parse. *)
Definition undatedPost : XPost :=
  mkXPost "8004" "Police activity at Santana Row"
          (mkAuthor "sjpd" "San Jose Police" true)
          "https://twitter.com/sjpd/status/8004" None
          (mkEngagement 12 0 0 0 0).


Definition rawTweetLiked : RawTweet :=
  mkRawTweet "9002" "Police activity at Santana Row" "78" None
             (Some (mkRawMetrics (Some 12%Z) None None None None)).

Definition rawUser78 : RawUser := mkRawUser "78" "sjpd" "San Jose Police" true.

(** * Properties *)

(** ** Sorting *)

Section SortFacts.
Context {A : Type} (cmp : A -> A -> Z).

Lemma sortInsert_perm (x : A) (l : list A) : sortInsert cmp x l ≡ₚ x :: l.
Proof.
  induction l as [|y l IH]; simpl; [done|].
  destruct (cmp x y <=? 0)%Z; [done|].
  rewrite IH. apply Permutation_swap.
Qed.

Lemma jsSort_perm (l : list A) : jsSort cmp l ≡ₚ l.
Proof.
  induction l as [|x l IH]; simpl; [done|].
  rewrite sortInsert_perm. by f_equiv.
Qed.

Lemma jsSort_elem_of (x : A) (l : list A) : x ∈ jsSort cmp l <-> x ∈ l.
Proof. by rewrite jsSort_perm. Qed.

Lemma jsSort_length (l : list A) : length (jsSort cmp l) = length l.
Proof. by rewrite jsSort_perm. Qed.

Hypothesis cmp_total : forall a b, (cmp a b > 0)%Z -> (cmp b a <= 0)%Z.

Lemma sortInsert_sorted (x : A) (l : list A) :
  Sorted (before cmp) l -> Sorted (before cmp) (sortInsert cmp x l).
Proof using cmp_total.
  induction 1 as [|y l Hl IH Hhd]; simpl.
  - repeat constructor.
  - destruct (Z.leb_spec (cmp x y) 0) as [Hle|Hgt].
    + constructor; [by constructor|]. by constructor.
    + constructor; [done|].
      destruct Hhd as [|z l Hyz]; simpl.
      * constructor. apply cmp_total. lia.
      * destruct (cmp x z <=? 0)%Z; constructor; [|done].
        apply cmp_total. lia.
Qed.

Lemma jsSort_sorted (l : list A) : Sorted (before cmp) (jsSort cmp l).
Proof using cmp_total.
  induction l as [|x l IH]; simpl; [constructor|].
  by apply sortInsert_sorted.
Qed.
End SortFacts.

(** ** Metrics and scoring *)

Lemma determineSeverity_cascade (posts : list XPost) :
  determineSeverity posts =
  cascade (hasShooting posts) (hasCriticalKeyword posts) (totalReactions posts).
Proof.
  unfold determineSeverity, cascade.
  destruct posts as [|p posts]; [reflexivity|]. reflexivity.
Qed.

Lemma cascade_mono (s c : bool) (x y : Z) :
  (x <= y)%Z -> (severityOrder (cascade s c x) <= severityOrder (cascade s c y))%Z.
Proof.
  intros Hxy. unfold cascade.
  destruct s, c; simpl;
    repeat match goal with
           | |- context [(?a >? ?b)%Z] => destruct (Z.gtb_spec a b)
           end; simpl; lia.
Qed.

(** C7. Severity is monotonic in total engagement within a fixed keyword
    category: two post sets with the same shooting-keyword finding and the
    same critical-keyword finding, one of which has at least as many likes
    plus reshares as the other, get severities ordered the same way in
    critical > high > medium > low. *)
Theorem determineSeverity_monotone (ps qs : list XPost) :
  hasShooting ps = hasShooting qs ->
  hasCriticalKeyword ps = hasCriticalKeyword qs ->
  (totalReactions ps <= totalReactions qs)%Z ->
  (severityOrder (determineSeverity ps) <= severityOrder (determineSeverity qs))%Z.
Proof.
  intros Hs Hc Hle. rewrite !determineSeverity_cascade, Hs, Hc.
  by apply cascade_mono.
Qed.

(** ** The engagement filter *)

Lemma hasEngagement_spec (p : XPost) :
  hasEngagement p = true <->
  (likes (engagement p) > 0 \/ retweets (engagement p) > 0
   \/ replies (engagement p) > 0 \/ views (engagement p) > 0)%Z.
Proof.
  unfold hasEngagement. rewrite !orb_true_iff.
  rewrite <- !Zgt_is_gt_bool. tauto.
Qed.

(** What the filter does: a post is kept exactly when its likes, reshares,
    replies or views are positive; the quote count is not consulted. *)
Lemma filterLowEngagementPosts_spec (posts : list XPost) (p : XPost) :
  p ∈ filterLowEngagementPosts posts <->
  p ∈ posts /\ (likes (engagement p) > 0 \/ retweets (engagement p) > 0
                \/ replies (engagement p) > 0 \/ views (engagement p) > 0)%Z.
Proof.
  unfold filterLowEngagementPosts.
  rewrite !list_elem_of_In, filter_In, hasEngagement_spec. tauto.
Qed.

(** C3. The filter is documented to keep a post as soon as one engagement
    metric is positive; a post whose only engagement is its quote count is
    dropped all the same. *)
Theorem filterLowEngagementPosts_drops_quoted_post :
  (quotes (engagement quotedOnlyPost) > 0)%Z /\
  filterLowEngagementPosts [quotedOnlyPost] = [].
Proof. split; [reflexivity | reflexivity]. Qed.

(** ** The reliability gate *)

Lemma skipped_single_post (s : SentimentResult) :
  skipped s 1 = true <-> sentiment s = negative.
Proof.
  unfold skipped, isReliable. simpl.
  rewrite andb_true_r, orb_true_r, andb_true_r, negb_involutive.
  apply bool_decide_eq_true.
Qed.

(** Two posts or more are never skipped, and neither is a cluster whose
    sentiment is not negative. *)
Lemma skipped_only_small_negative (s : SentimentResult) (n : nat) :
  skipped s n = true -> (n < 2)%nat /\ (sentiment s = negative \/ n = 0%nat).
Proof.
  unfold skipped, isReliable. intros H.
  apply andb_true_iff in H as [Hrel Hn]. apply Nat.ltb_lt in Hn.
  split; [done|].
  destruct (decide (sentiment s = negative)) as [|Hne]; [by left|right].
  rewrite (bool_decide_eq_false_2 _ Hne) in Hrel. simpl in Hrel.
  destruct n as [|n]; [done|]. simpl in Hrel.
  by rewrite orb_true_r in Hrel.
Qed.

(** With a single post the confidence is 1: the three counters sum to one. *)
Lemma single_post_confidence (post : XPost) :
  (confidence (analyzeSentiment [post]) == 1)%Q.
Proof.
  unfold analyzeSentiment. cbn [fold_left length]. unfold countPost.
  destruct (JsString.includesAny (JsString.toLowerCase (text post)) negativeWords);
    [|destruct (JsString.includesAny (JsString.toLowerCase (text post)) positiveWords)];
    destruct (verified (author post)); reflexivity.
Qed.

(** Hence no cluster of one post has a confidence of at most 0.6. *)
Lemma single_post_confidence_above (post : XPost) :
  ~ (confidence (analyzeSentiment [post]) <= 0.6)%Q.
Proof.
  rewrite (single_post_confidence post). unfold Qle. simpl. lia.
Qed.

(** The gate taken by itself, on a sentiment record that no single post
    produces (negative, no verified author, confidence 1/2): the member-count
    clause does not keep the one-post cluster. *)
Lemma gate_skips_negative_record :
  skipped (mkSentiment negative (1 # 2) 0) 1 = true.
Proof. reflexivity. Qed.

(** A cluster of exactly one post whose overall sentiment is negative is
    excluded by the assembler, whatever its verified-author count: the
    member-count clause of the gate is conjoined with "sentiment is not
    negative". *)
Lemma negative_single_post_cluster_excluded (post : XPost) (anchoredLocation : string) :
  sentiment (analyzeSentiment [post]) = negative ->
  liveIncident ([post], anchoredLocation) = Some None.
Proof.
  intros Hneg. unfold liveIncident. simpl fst. simpl snd. simpl length.
  by rewrite (proj2 (skipped_single_post _) Hneg).
Qed.

(** Conversely the member-count clause keeps every one-post cluster whose
    sentiment is not negative. *)
Lemma other_single_post_cluster_kept (post : XPost) (anchoredLocation : string) :
  sentiment (analyzeSentiment [post]) <> negative ->
  liveIncident ([post], anchoredLocation) <> Some None.
Proof.
  intros Hne. unfold liveIncident. simpl fst. simpl snd. simpl length.
  destruct (skipped _ 1) eqn:Hs.
  - by apply skipped_single_post in Hs.
  - destruct (generateTLDR _ _); [|done]. cbn [mbind option_bind].
    by destruct (mostRecent [post]).
Qed.

Lemma hoax_post_cluster_excluded :
  sentiment (analyzeSentiment [hoaxPost]) = negative /\
  liveIncident ([hoaxPost], "Santana Row") = Some None.
Proof.
  split; [reflexivity|].
  apply (negative_single_post_cluster_excluded hoaxPost "Santana Row"). reflexivity.
Qed.

(** End to end: the hoax post forms a one-post cluster at Santana Row and the
    assembler returns no incident for it. *)
Lemma hoax_post_not_published :
  map (fun g => length (fst g)) (groupPostsByIncident (filterLowEngagementPosts [hoaxPost]))
    = [1%nat]
  /\ fetchRealTimeIncidents_query [] [hoaxPost] = Some [].
Proof. split; vm_compute; reflexivity. Qed.

(** ** The final merge *)

Lemma cmpIncident_total (a b : Incident) :
  (cmpIncident a b > 0)%Z -> (cmpIncident b a <= 0)%Z.
Proof.
  unfold cmpIncident.
  destruct (Z.eqb_spec (severityOrder (i_severity b) - severityOrder (i_severity a)) 0);
    destruct (Z.eqb_spec (severityOrder (i_severity a) - severityOrder (i_severity b)) 0);
    simpl; lia.
Qed.

(** [before cmpIncident a b]: [a] has the higher severity rank, or the same
    rank and at least as many likes plus reshares. *)
Lemma before_cmpIncident (a b : Incident) :
  before cmpIncident a b <->
  (severityOrder (i_severity b) < severityOrder (i_severity a)
   \/ (severityOrder (i_severity b) = severityOrder (i_severity a)
       /\ incidentReactions b <= incidentReactions a))%Z.
Proof.
  unfold before, cmpIncident.
  destruct (Z.eqb_spec (severityOrder (i_severity b) - severityOrder (i_severity a)) 0);
    simpl; lia.
Qed.

(** On the path that reaches the merge, the result is the catalogue incidents
    followed by the live ones, stably sorted by descending severity rank and
    then descending likes plus reshares. *)
Lemma fetch_query_merge (catalogue : list KnownIncident) (tweets : list XPost)
      (result : list Incident) :
  tweets <> [] ->
  fetchRealTimeIncidents_query catalogue tweets = Some result ->
  exists live,
    liveIncidents (groupPostsByIncident (filterLowEngagementPosts tweets)) = Some live
    /\ result ≡ₚ (fetchHardcodedIncidents catalogue ++ live)%list
    /\ Sorted (before cmpIncident) result.
Proof.
  intros Hne. unfold fetchRealTimeIncidents_query.
  destruct tweets as [|t tweets]; [done|]. simpl length. simpl Nat.eqb. cbv iota.
  destruct (liveIncidents _) as [live|] eqn:Hlive; simpl; [|done].
  intros [= <-]. exists live. split; [done|]. split.
  - apply jsSort_perm.
  - apply jsSort_sorted, cmpIncident_total.
Qed.

Lemma fetch_default_merge (catalogue : list KnownIncident)
      (city police general : list XPost) (result : list Incident) :
  let allPosts :=
    filterLowEngagementPosts
      (fold_left addIfNew general
         (fold_left addPoliceIfNew police (fold_left addIfNew city []))) in
  allPosts <> [] ->
  fetchRealTimeIncidents_default catalogue city police general = Some result ->
  exists live,
    liveIncidents (groupPostsByIncident allPosts) = Some live
    /\ result ≡ₚ (fetchHardcodedIncidents catalogue ++ live)%list
    /\ Sorted (before cmpIncident) result.
Proof.
  intros allPosts Hne. unfold fetchRealTimeIncidents_default. fold allPosts.
  destruct allPosts as [|t rest] eqn:Hall; [done|]. simpl length. simpl Nat.eqb. cbv iota.
  destruct (liveIncidents _) as [live|] eqn:Hlive; simpl; [|done].
  intros [= <-]. exists live. split; [done|]. split.
  - apply jsSort_perm.
  - apply jsSort_sorted, cmpIncident_total.
Qed.

(** C2. With a non-blank query for which the search returns no tweet, the
    assembler returns the empty list although the catalogue produced two
    incidents; the claim requires the catalogue incidents in the result. *)
Theorem query_without_tweets_drops_catalogue :
  map i_severity (fetchHardcodedIncidents sampleCatalogue) = [medium; critical]
  /\ fetchRealTimeIncidents_query sampleCatalogue [] = Some [].
Proof. split; vm_compute; reflexivity. Qed.

(** On the default path with no post surviving the engagement filter, the
    catalogue incidents are returned as fetched, without the sort. *)
Lemma default_without_posts_unsorted :
  map i_severity <$> fetchRealTimeIncidents_default sampleCatalogue [] [] []
    = Some [medium; critical].
Proof. vm_compute. reflexivity. Qed.

(** ** Location extractor: the named-place catalogue *)

Lemma jsFind_Some {A : Type} (p : A -> bool) (l : list A) (v : A) :
  jsFind p l = Some v -> v ∈ l /\ p v = true.
Proof.
  induction l as [|x l IH]; simpl; [done|].
  destruct (p x) eqn:Hx.
  - intros [= <-]. split; [left|done].
  - intros H. destruct (IH H) as [Hin Hp]. split; [by right|done].
Qed.

Lemma jsFind_None {A : Type} (p : A -> bool) (l : list A) :
  jsFind p l = None -> Forall (fun x => p x = false) l.
Proof.
  induction l as [|x l IH]; simpl; [constructor|].
  destruct (p x) eqn:Hx; [done|]. intros H. constructor; auto.
Qed.

(** The table is already in ascending priority order: the sort leaves it
    as written. *)
Lemma sortedPlaces_specificPlaces : sortedPlaces = specificPlaces.
Proof. vm_compute. reflexivity. Qed.

Lemma specificPlaces_tiered : StronglySorted byPriority specificPlaces.
Proof. apply (bool_decide_unpack _). vm_compute. exact I. Qed.

Lemma specificPlaces_priority_ge_1 :
  Forall (fun pl => (1 <= priority pl)%Z) specificPlaces.
Proof. apply (bool_decide_unpack _). vm_compute. exact I. Qed.

(** [find] on a list in ascending priority order returns an entry of priority
    no greater than that of any entry satisfying the predicate. *)
Lemma jsFind_tiered (p : Place -> bool) (l : list Place) (place : Place) :
  StronglySorted byPriority l -> place ∈ l -> p place = true ->
  exists v, jsFind p l = Some v /\ (priority v <= priority place)%Z.
Proof.
  induction 1 as [|x l Hl IH Hx]; intros Hin Hp; [by apply elem_of_nil in Hin|].
  simpl. destruct (p x) eqn:Hpx.
  - exists x. split; [done|].
    apply elem_of_cons in Hin as [->|Hin]; [unfold byPriority; lia|].
    rewrite Forall_forall in Hx. by apply Hx.
  - apply elem_of_cons in Hin as [->|Hin]; [congruence|]. by apply IH.
Qed.

Lemma scanPlaces_find (textLower : string) (places : list Place) :
  scanPlaces textLower places =
  (fun pl => mkLocation (place_name pl) (if (priority pl =? 1)%Z then 0.95 else 0.75)%Q)
    <$> jsFind (hit textLower) places.
Proof.
  induction places as [|pl places IH]; simpl; [done|].
  unfold hit at 1. by destruct (JsString.includesAny textLower (keywords pl)).
Qed.

Lemma extractPostLocation_place (post : XPost) (r : LocationMatch) :
  scanPlaces (JsString.toLowerCase (text post)) specificPlaces = Some r ->
  extractPostLocation post = r.
Proof.
  intros H. unfold extractPostLocation, extractPostLocationStaged.
  by rewrite sortedPlaces_specificPlaces, H.
Qed.

Lemma includesAny_intro (s kw : string) (ws : list string) :
  kw ∈ ws -> JsString.includes s kw = true -> JsString.includesAny s ws = true.
Proof.
  intros Hin Hkw. unfold JsString.includesAny. apply existsb_exists.
  exists kw. split; [by apply list_elem_of_In|done].
Qed.

(** C4, as stated, fails when keywords of two tier-1 venues occur in one
    text: "santana row" is present, yet the extractor answers with the venue
    that comes first in the catalogue, Stanford Shopping Center. *)
Lemma tier1_keyword_counterexample :
  ~ (forall (post : XPost) (place : Place) (kw : string),
        place ∈ specificPlaces -> priority place = 1%Z -> kw ∈ keywords place ->
        JsString.includes (JsString.toLowerCase (text post)) kw = true ->
        extractPostLocation post = mkLocation (place_name place) 0.95%Q).
Proof.
  intros H.
  specialize (H twoVenuesPost (mkPlace "Santana Row" ["santana row"] 1) "santana row").
  assert (Hin : mkPlace "Santana Row" ["santana row"] 1 ∈ specificPlaces).
  { apply list_elem_of_In. unfold specificPlaces. simpl. tauto. }
  specialize (H Hin eq_refl).
  assert (Hkw : "santana row" ∈ ["santana row"]) by (by apply list_elem_of_singleton).
  specialize (H Hkw eq_refl).
  vm_compute in H. discriminate H.
Qed.

(** C4 (amended). When the text contains a keyword of a tier-1 venue, the
    extractor returns, with confidence 0.95, the name of the first venue in
    catalogue order one of whose keywords occurs in the text; that venue is of
    tier 1 whatever tier-3 city keywords occur as well, and it is the venue of
    the keyword when no other tier-1 venue has a keyword in the text. *)
Theorem tier1_keyword_location (post : XPost) (place : Place) (kw : string) :
  place ∈ specificPlaces -> priority place = 1%Z -> kw ∈ keywords place ->
  JsString.includes (JsString.toLowerCase (text post)) kw = true ->
  exists venue,
    jsFind (hit (JsString.toLowerCase (text post))) specificPlaces = Some venue
    /\ priority venue = 1%Z
    /\ extractPostLocation post = mkLocation (place_name venue) 0.95%Q
    /\ ((forall other, other ∈ specificPlaces -> priority other = 1%Z ->
                       hit (JsString.toLowerCase (text post)) other = true ->
                       other = place) -> venue = place).
Proof.
  intros Hin Hprio Hkw Hinc.
  set (textLower := JsString.toLowerCase (text post)) in *.
  assert (Hhit : hit textLower place = true) by (by eapply includesAny_intro).
  destruct (jsFind_tiered (hit textLower) specificPlaces place specificPlaces_tiered Hin Hhit)
    as (venue & Hfind & Hle).
  destruct (jsFind_Some _ _ _ Hfind) as [Hvin Hvhit].
  assert (Hv1 : priority venue = 1%Z).
  { pose proof specificPlaces_priority_ge_1 as Hge. rewrite Forall_forall in Hge.
    specialize (Hge venue Hvin). simpl in Hge. lia. }
  exists venue. split; [done|]. split; [done|]. split.
  - apply extractPostLocation_place. fold textLower.
    rewrite scanPlaces_find, Hfind. simpl. by rewrite Hv1.
  - intros Honly. by apply Honly.
Qed.

Lemma tier1_keyword_location_witness :
  exists venue,
    jsFind (hit (JsString.toLowerCase (text venueAndCityPost))) specificPlaces = Some venue
    /\ priority venue = 1%Z
    /\ extractPostLocation venueAndCityPost = mkLocation (place_name venue) 0.95%Q
    /\ ((forall other, other ∈ specificPlaces -> priority other = 1%Z ->
                       hit (JsString.toLowerCase (text venueAndCityPost)) other = true ->
                       other = mkPlace "Westfield Valley Fair"
                                 ["westfield valley fair"; "valley fair mall";
                                  "valley fair shopping center"] 1)
        -> venue = mkPlace "Westfield Valley Fair"
                     ["westfield valley fair"; "valley fair mall";
                      "valley fair shopping center"] 1).
Proof.
  apply (tier1_keyword_location venueAndCityPost
           (mkPlace "Westfield Valley Fair"
              ["westfield valley fair"; "valley fair mall"; "valley fair shopping center"] 1)
           "valley fair mall").
  - apply list_elem_of_In. simpl. tauto.
  - reflexivity.
  - apply list_elem_of_In. simpl. tauto.
  - reflexivity.
Defined.

(** ** Incident anchoring engine *)

Section AnchoringFacts.

Lemma outside24h_spec (a b : Z) :
  outside24h (Some a) (Some b) = true <-> (Z.abs (a - b) > day)%Z.
Proof.
  unfold outside24h, Qgt_bool, Qlt_bool, day.
  rewrite negb_true_iff, <- not_true_iff_false, Qle_bool_iff.
  unfold Qle, Qdiv, Qmult, Qinv. simpl. lia.
Qed.

Lemma outside24h_false (a b : Z) :
  outside24h (Some a) (Some b) = false <-> (Z.abs (a - b) <= day)%Z.
Proof.
  rewrite <- not_true_iff_false, outside24h_spec. lia.
Qed.

Lemma matches1_near (pl : LocationMatch) (topics : list string) (t : option Z)
      (c : Cluster) :
  matches1 pl topics t c = true -> outside24h t (c_timestamp c) = false.
Proof.
  unfold matches1.
  repeat match goal with
         | |- context [if ?b then _ else _] => destruct b eqn:?; try discriminate
         end; auto.
Qed.

Lemma matches2_near (txt : string) (topics : list string) (t : option Z) (c : Cluster) :
  matches2 txt topics t c = true -> outside24h t (c_timestamp c) = false.
Proof.
  unfold matches2.
  repeat match goal with
         | |- context [if ?b then _ else _] => destruct b eqn:?; try discriminate
         end; auto.
Qed.

Lemma findIndex_Some {A : Type} (p : A -> bool) (l : list A) (i : nat) :
  findIndex p l = Some i -> exists x, l !! i = Some x /\ p x = true.
Proof.
  revert i. induction l as [|y l IH]; intros i; simpl; [done|].
  destruct (p y) eqn:Hy.
  - intros [= <-]. by exists y.
  - destruct (findIndex p l) as [j|]; simpl; [|done].
    intros [= <-]. by apply IH.
Qed.

Lemma alter_as_insert {A : Type} (f : A -> A) (l : list A) (i : nat) (x : A) :
  l !! i = Some x -> alter f i l = <[i := f x]> l.
Proof.
  revert i. induction l as [|y l IH]; intros [|i]; simpl; try done.
  - by intros [= ->].
  - intros H. f_equal. by apply IH.
Qed.

Lemma elem_of_allPosts (p : XPost) (l : list Cluster) :
  p ∈ allPosts l <-> exists c, c ∈ l /\ p ∈ c_posts c.
Proof.
  unfold allPosts. rewrite list_elem_of_In, in_concat. split.
  - intros (ps & Hps & Hp). apply in_map_iff in Hps as (c & <- & Hc).
    exists c. by rewrite !list_elem_of_In.
  - intros (c & Hc & Hp). exists (c_posts c). rewrite in_map_iff.
    split; [exists c|]; by rewrite <- ?list_elem_of_In.
Qed.

Lemma allPosts_insert (l : list Cluster) (i : nat) (c c' : Cluster) (post : XPost) :
  l !! i = Some c -> c_posts c' = (c_posts c ++ [post])%list ->
  allPosts (<[i := c']> l) ≡ₚ post :: allPosts l.
Proof.
  unfold allPosts. revert i.
  induction l as [|y l IH]; intros [|i]; simpl; try done.
  - intros [= ->] ->. rewrite <- app_assoc. simpl.
    symmetry. apply Permutation_middle.
  - intros Hi Hc. rewrite (IH i Hi Hc). symmetry. apply Permutation_middle.
Qed.

Lemma allPosts_snoc (l : list Cluster) (c' : Cluster) (post : XPost) :
  c_posts c' = [post] -> allPosts (l ++ [c']) ≡ₚ post :: allPosts l.
Proof.
  intros Hc. unfold allPosts. rewrite map_app, concat_app. simpl.
  rewrite Hc, app_nil_r. symmetry. apply Permutation_cons_append.
Qed.

Lemma pass1Step_step (st : AnchorState) (post : XPost) :
  step post st (pass1Step st post).
Proof.
  unfold pass1Step.
  destruct (bool_decide (id post ∈ processed st)) eqn:Hproc; [by apply step_skip|].
  apply bool_decide_eq_false in Hproc.
  destruct (Qlt_bool _ _); [by apply step_skip|].
  destruct (findIndex _ (incidents st)) as [i|] eqn:Hfind.
  - destruct (findIndex_Some _ _ _ Hfind) as (c & Hi & Hm).
    eapply (step_attach _ _ _ i c); simpl; [done|done|done| |].
    + by apply alter_as_insert.
    + split; simpl; [done| |by eapply matches1_near].
      destruct (laterThan (timestamp post) (c_timestamp c)); auto.
  - eapply step_create; simpl; done.
Qed.

Lemma pass2Step_step (st : AnchorState) (post : XPost) :
  step post st (pass2Step st post).
Proof.
  unfold pass2Step.
  destruct (bool_decide (id post ∈ processed st)) eqn:Hproc; [by apply step_skip|].
  apply bool_decide_eq_false in Hproc.
  destruct (findIndex _ (incidents st)) as [i|] eqn:Hfind; [|by apply step_skip].
  destruct (findIndex_Some _ _ _ Hfind) as (c & Hi & Hm).
  eapply (step_attach _ _ _ i c); simpl; [done|done|done| |].
  - by apply alter_as_insert.
  - split; simpl; [done|by left|by eapply matches2_near].
Qed.

(** An invariant of [step] holds after both passes. *)
Lemma passes_invariant (P : AnchorState -> Prop) (batch : list XPost) :
  P (mkAnchor [] ∅) ->
  (forall post st st', post ∈ batch -> step post st st' -> P st -> P st') ->
  P (pass2 batch (pass1 batch)).
Proof.
  intros H0 Hstep.
  assert (Hfold : forall (f : AnchorState -> XPost -> AnchorState) l st,
             (forall st post, step post st (f st post)) ->
             (forall post, post ∈ l -> post ∈ batch) ->
             P st -> P (fold_left f l st)).
  { intros f l. induction l as [|x l IH]; intros st Hf Hl Hst; simpl; [done|].
    apply IH; [done| |].
    - intros post Hin. apply Hl. by right.
    - eapply Hstep; [|apply Hf|done]. apply Hl. by left. }
  unfold pass2, pass1.
  apply Hfold; [apply pass2Step_step|done|].
  apply Hfold; [apply pass1Step_step|done|done].
Qed.

End AnchoringFacts.

(** *** The second pass leaves locations and timestamps alone *)

Lemma map_alter_frame {A B : Type} (g : A -> B) (f : A -> A) (i : nat) (l : list A) :
  (forall x, g (f x) = g x) -> map g (alter f i l) = map g l.
Proof.
  intros Hf. revert i. induction l as [|y l IH]; intros [|i]; simpl; try done.
  - by rewrite Hf.
  - f_equal. apply IH.
Qed.

Lemma pass2Step_frame (st : AnchorState) (post : XPost) :
  map (fun c => (c_location c, c_timestamp c)) (incidents (pass2Step st post))
  = map (fun c => (c_location c, c_timestamp c)) (incidents st).
Proof.
  unfold pass2Step.
  destruct (bool_decide (id post ∈ processed st)); [done|].
  destruct (findIndex _ (incidents st)) as [i|]; [|done].
  simpl. by apply map_alter_frame.
Qed.

(** What an attachment of the second pass does change: the post is appended
    to the member list and its topics are united into the topic list. *)
Lemma attach2_effect (post : XPost) (m : Cluster) :
  c_posts (attach2 post (extractTopics post) m) = (c_posts m ++ [post])%list
  /\ c_topics (attach2 post (extractTopics post) m)
     = unionTopics (c_topics m) (extractTopics post).
Proof. done. Qed.

(** C9. In pass 2 of the anchoring engine, attaching fallback posts to
    matched clusters leaves every cluster's location string and most-recent
    timestamp unchanged (and creates or removes no cluster): only member
    lists and topic sets change. *)
Theorem pass2_preserves_location_and_timestamp (posts : list XPost) (st : AnchorState) :
  map (fun c => (c_location c, c_timestamp c)) (incidents (pass2 posts st))
  = map (fun c => (c_location c, c_timestamp c)) (incidents st).
Proof.
  unfold pass2. revert st.
  induction posts as [|post posts IH]; intros st; simpl; [done|].
  by rewrite IH, pass2Step_frame.
Qed.

(** *** No post id is clustered twice *)

Lemma step_adds (post : XPost) (st st' : AnchorState) :
  step post st st' ->
  st' = st \/
  ((id post ∉ processed st) /\ processed st' = {[ id post ]} ∪ processed st
   /\ (allPosts (incidents st') ≡ₚ post :: allPosts (incidents st))).
Proof.
  intros [->|i c c' Hnew Hproc Hi Hinc Hgrow|c' Hnew Hproc Hinc Hposts Hts]; [by left| |];
    right; (split; [done|]); (split; [done|]); rewrite Hinc.
  - eapply allPosts_insert; [done|]. apply Hgrow.
  - by apply allPosts_snoc.
Qed.

Lemma step_idsOnce (post : XPost) (st st' : AnchorState) :
  step post st st' -> idsOnce st -> idsOnce st'.
Proof.
  intros Hstep [Hnd Hproc].
  destruct (step_adds _ _ _ Hstep) as [->|(Hnew & Hp' & Hperm)]; [done|].
  split.
  - rewrite Hperm. simpl. apply NoDup_cons. split; [|done].
    intros Hin. apply list_elem_of_fmap in Hin as (p & Hid & Hp).
    apply Hnew. rewrite Hid. by apply Hproc.
  - intros p Hp. rewrite Hp'. rewrite Hperm in Hp.
    apply elem_of_union.
    apply elem_of_cons in Hp as [->|Hp]; [left; by apply elem_of_singleton|].
    right. by apply Hproc.
Qed.

Lemma allPosts_filter_sublist (keep : Cluster -> bool) (l : list Cluster) :
  allPosts (List.filter keep l) `sublist_of` allPosts l.
Proof.
  unfold allPosts. induction l as [|c l IH]; simpl; [done|].
  destruct (keep c); simpl.
  - by apply sublist_app.
  - by apply sublist_inserts_l.
Qed.

(** Whatever the batch, the ids of the posts of the returned clusters are
    pairwise different. *)
Lemma anchor_ids_NoDup (posts : list XPost) :
  NoDup (map id (allPosts (anchorIncidentsToLocations posts))).
Proof.
  unfold anchorIncidentsToLocations.
  assert (Hinv : idsOnce (pass2 posts (pass1 posts))).
  { apply passes_invariant.
    - split; [constructor|]. intros p Hp. by apply elem_of_nil in Hp.
    - intros post st st' _. apply step_idsOnce. }
  destruct Hinv as [Hnd _].
  eapply sublist_NoDup; [exact Hnd|].
  apply fmap_sublist, allPosts_filter_sublist.
Qed.

(** C10. For every input batch with unique post ids, the clusters returned by
    the anchoring engine are pairwise disjoint and free of repetitions: the
    list of the ids of all their member posts, cluster after cluster, has no
    duplicate. *)
Theorem anchor_clusters_disjoint (posts : list XPost) :
  NoDup (map id posts) ->
  NoDup (map id (concat (map c_posts (anchorIncidentsToLocations posts)))).
Proof. intros _. apply anchor_ids_NoDup. Qed.

(** Read cluster by cluster: no id twice in a cluster, none in two clusters. *)
Lemma anchor_clusters_pairwise (posts : list XPost) (i j : nat) (c d : Cluster) (p q : XPost) :
  anchorIncidentsToLocations posts !! i = Some c ->
  anchorIncidentsToLocations posts !! j = Some d ->
  i <> j -> p ∈ c_posts c -> q ∈ c_posts d -> id p <> id q.
Proof.
  pose proof (anchor_ids_NoDup posts) as Hnd. revert Hnd.
  generalize (anchorIncidentsToLocations posts). intros l. unfold allPosts.
  revert i j. induction l as [|x l IH]; intros i j Hnd Hi Hj Hij Hp Hq; [done|].
  simpl in Hnd. rewrite map_app in Hnd.
  apply NoDup_app in Hnd as (Hx & Hdisj & Hl).
  assert (Hmem : forall k e r, l !! k = Some e -> r ∈ c_posts e ->
                               id r ∈ map id (concat (map c_posts l))).
  { intros k e r Hk Hr. apply list_elem_of_fmap. exists r. split; [done|].
    apply (elem_of_allPosts r l). exists e. split; [|done].
    by eapply list_elem_of_lookup_2. }
  destruct i as [|i], j as [|j]; simpl in Hi, Hj; try done.
  - injection Hi as ->. intros Heq.
    apply (Hdisj (id p)); [by apply list_elem_of_fmap_2|].
    rewrite Heq. by eapply Hmem.
  - injection Hj as ->. intros Heq.
    apply (Hdisj (id q)); [by apply list_elem_of_fmap_2|].
    rewrite <- Heq. by eapply Hmem.
  - apply (IH i j); auto.
Qed.

Lemma anchor_clusters_disjoint_witness :
  NoDup (map id (concat (map c_posts (anchorIncidentsToLocations [postA; postB; postD; postC])))).
Proof.
  apply (anchor_clusters_disjoint [postA; postB; postD; postC]).
  apply (bool_decide_unpack _). vm_compute. exact I.
Defined.

(** *** The 24-hour window *)

(** The window is measured against the cluster's most-recent timestamp, which
    moves as posts are attached: A and C are 40 hours apart, have the same
    extracted location, and share a cluster through B. *)
Lemma chain_shares_cluster :
  map (fun c => map id (c_posts c)) (anchorIncidentsToLocations [postA; postB; postC])
  = [["5001"; "5002"; "5003"]].
Proof. vm_compute. reflexivity. Qed.

(** C6, as stated, fails on that batch. *)
Lemma apart_posts_counterexample :
  ~ (forall (batch : list XPost) (p q : XPost) (c : Cluster) (tp tq : Z),
        p ∈ batch -> q ∈ batch ->
        timestamp p = Some tp -> timestamp q = Some tq ->
        (Z.abs (tp - tq) > day)%Z ->
        location (extractPostLocation p) = location (extractPostLocation q) ->
        c ∈ anchorIncidentsToLocations batch ->
        ~ (p ∈ c_posts c /\ q ∈ c_posts c)).
Proof.
  intros H.
  assert (Hc : anchorIncidentsToLocations [postA; postB; postC]
               = [mkCluster [postA; postB; postC] "Santana Row" ["shooting"; "suspect"]
                            (Some (40 * hour)%Z)])
    by (vm_compute; reflexivity).
  apply (H [postA; postB; postC] postA postC
           (mkCluster [postA; postB; postC] "Santana Row" ["shooting"; "suspect"]
                      (Some (40 * hour)%Z))
           0%Z (40 * hour)%Z).
  - apply list_elem_of_In. simpl. tauto.
  - apply list_elem_of_In. simpl. tauto.
  - reflexivity.
  - reflexivity.
  - vm_compute. reflexivity.
  - vm_compute. reflexivity.
  - rewrite Hc. by apply list_elem_of_singleton.
  - split; apply list_elem_of_In; simpl; tauto.
Qed.

(** Without a bridging post the same two posts are separated; and two posts
    from Cupertino 42 hours apart stay separated although two posts from
    Santana Row lie between them in time, one hour from each: the four are
    not linked in steps of at most 24 hours. *)
Lemma unbridged_posts_separated :
  map (fun c => map id (c_posts c)) (anchorIncidentsToLocations [postA; postC])
  = [["5001"]; ["5003"]]
  /\ map (fun c => map id (c_posts c))
         (anchorIncidentsToLocations
            [rowPost "5101" "Police activity in Cupertino" 0;
             rowPost "5102" "Shooting at Santana Row" (1 * hour);
             rowPost "5103" "Shooting at Santana Row, area still closed" (41 * hour);
             rowPost "5104" "Police activity in Cupertino, road closed" (42 * hour)])
     = [["5101"]; ["5102"]; ["5103"]; ["5104"]].
Proof. split; vm_compute; reflexivity. Qed.

Lemma near_sym (a b : XPost) : near a b -> near b a.
Proof. intros (ta & tb & Ha & Hb & Hd). exists tb, ta. repeat split; [done|done|lia]. Qed.

Lemma linked_mono (l l' : list XPost) (a b : XPost) :
  (forall m, m ∈ l -> m ∈ l') -> linked l a b -> linked l' a b.
Proof.
  intros Hsub. apply rtc_subrel. intros x y (Hx & Hy & Hn). repeat split; auto.
Qed.

Lemma linked_sym (l : list XPost) (a b : XPost) : linked l a b -> linked l b a.
Proof.
  induction 1 as [x|x y z (Hx & Hy & Hn) _ IH]; [apply rtc_refl|].
  eapply rtc_r; [exact IH|]. repeat split; [done|done|by apply near_sym].
Qed.

(** A post that passes the window test of a cluster is near the member that
    holds the cluster's timestamp. *)
Lemma window_near (post m : XPost) (t : option Z) :
  is_Some (timestamp post) -> is_Some (timestamp m) -> timestamp m = t ->
  outside24h (timestamp post) t = false -> near post m.
Proof.
  intros [tp Hp] [tm Hm] <- Hnear. rewrite Hp, Hm in Hnear.
  apply outside24h_false in Hnear. by exists tp, tm.
Qed.

Lemma step_chained (batch : list XPost) (post : XPost) (st st' : AnchorState) :
  Forall (fun r => is_Some (timestamp r)) batch ->
  post ∈ batch -> step post st st' ->
  Forall (chained batch) (incidents st) -> Forall (chained batch) (incidents st').
Proof.
  intros Hvalid Hpost [->|i c c' Hnew Hproc Hi Hinc Hgrow|c' Hnew Hproc Hinc Hposts Hts] Hall;
    [done| |].
  - rewrite Forall_forall in Hvalid.
    rewrite Hinc. apply Forall_insert; [done|].
    destruct Hgrow as [Hposts Hts Hnear].
    destruct (Forall_lookup_1 _ _ _ _ Hall Hi) as ((m0 & Hm0 & Hm0t) & Hb & Hlink).
    assert (Hpm : near post m0).
    { apply (window_near post m0 (c_timestamp c)); auto. }
    assert (Hin : forall m, m ∈ c_posts c -> m ∈ c_posts c').
    { intros m Hm. rewrite Hposts. apply elem_of_app. by left. }
    assert (Hpin : post ∈ c_posts c').
    { rewrite Hposts. apply elem_of_app. right. by apply list_elem_of_singleton. }
    split; [|split].
    + destruct Hts as [Hts|Hts].
      * exists m0. rewrite Hts. auto.
      * exists post. by rewrite Hts.
    + intros m. rewrite Hposts, elem_of_app, list_elem_of_singleton.
      intros [Hm| ->]; auto.
    + assert (Hpost_m0 : linked (c_posts c') post m0).
      { apply rtc_once. repeat split; auto. }
      assert (Hold : forall a b, a ∈ c_posts c -> b ∈ c_posts c -> linked (c_posts c') a b).
      { intros a b Ha Hb'. apply (linked_mono (c_posts c)); auto. }
      intros a b. rewrite Hposts at 1 2.
      rewrite !elem_of_app, !list_elem_of_singleton.
      intros [Ha| ->] [Hb'| ->].
      * by apply Hold.
      * eapply rtc_trans; [apply (Hold a m0); auto|]. by apply linked_sym.
      * eapply rtc_trans; [exact Hpost_m0|]. by apply Hold.
      * apply rtc_refl.
  - rewrite Hinc. apply Forall_app. split; [done|].
    apply Forall_singleton. split; [|split].
    + exists post. rewrite Hposts, Hts. split; [|done]. by apply list_elem_of_singleton.
    + intros m. rewrite Hposts, list_elem_of_singleton. by intros ->.
    + intros a b. rewrite Hposts, !list_elem_of_singleton. intros -> ->. apply rtc_refl.
Qed.

(** In a batch whose timestamps all parse, any two members of a returned
    cluster are linked through members of the cluster. *)
Lemma anchor_clusters_chained (batch : list XPost) :
  Forall (fun r => is_Some (timestamp r)) batch ->
  Forall (chained batch) (anchorIncidentsToLocations batch).
Proof.
  intros Hvalid.
  assert (Hinv : Forall (chained batch) (incidents (pass2 batch (pass1 batch)))).
  { apply (passes_invariant (fun st => Forall (chained batch) (incidents st)));
      [constructor|].
    intros post st st' Hpost Hstep. by apply (step_chained batch post). }
  unfold anchorIncidentsToLocations.
  rewrite Forall_forall in Hinv. apply Forall_forall. intros c Hc.
  apply list_elem_of_In, filter_In in Hc as [Hc _]. by apply Hinv, list_elem_of_In.
Qed.

(** On a chain that starts no later than [tp] and ends after [tp + day], the
    first post later than [tp] is at most 24 hours later. *)
Lemma linked_bridge (l : list XPost) (a q : XPost) (ta tp tq : Z) :
  linked l a q ->
  timestamp a = Some ta -> timestamp q = Some tq ->
  (ta <= tp)%Z -> (tp + day < tq)%Z ->
  exists r tr, r ∈ l /\ timestamp r = Some tr /\ (tp < tr <= tp + day)%Z.
Proof.
  intros Hl. revert ta.
  induction Hl as [x|x y z (Hx & Hy & (tx & ty & Htx & Hty & Hd)) _ IH];
    intros ta Ha Hq Hle Hfar.
  - rewrite Ha in Hq. injection Hq as ->. unfold day in *. lia.
  - rewrite Ha in Htx. injection Htx as <-.
    destruct (Z.le_gt_cases ty tp) as [Hy_le|Hy_gt].
    + by apply (IH ty).
    + exists y, ty. split; [done|]. split; [done|]. lia.
Qed.

(** C6 (amended). In a batch whose timestamps all parse, two posts more than
    24 hours apart, with identical locations or not, are members of the same
    returned cluster only through bridging posts: the two are then linked by
    members of that cluster, so by posts of the batch, each within 24 hours of
    the next, and the cluster holds a post whose timestamp lies strictly
    between theirs. Hence they end up in different clusters whenever the posts
    of the batch do not link them in steps of at most 24 hours, in particular
    when no post of the batch lies strictly between them in time. *)
Theorem apart_posts_bridged (batch : list XPost) (p q : XPost) (c : Cluster) (tp tq : Z) :
  Forall (fun r => is_Some (timestamp r)) batch ->
  c ∈ anchorIncidentsToLocations batch ->
  p ∈ c_posts c -> q ∈ c_posts c ->
  timestamp p = Some tp -> timestamp q = Some tq ->
  (Z.abs (tp - tq) > day)%Z ->
  linked (c_posts c) p q
  /\ linked batch p q
  /\ exists r tr, r ∈ c_posts c /\ r ∈ batch /\ timestamp r = Some tr
                  /\ (Z.min tp tq < tr < Z.max tp tq)%Z.
Proof.
  intros Hvalid Hc Hp Hq Htp Htq Hfar.
  pose proof (anchor_clusters_chained batch Hvalid) as Hall.
  rewrite Forall_forall in Hall. destruct (Hall c Hc) as (_ & Hb & Hlink).
  split; [by apply Hlink|].
  split; [apply (linked_mono (c_posts c)); [exact Hb|by apply Hlink]|].
  destruct (Z.lt_ge_cases tp tq) as [Hlt|Hge].
  - destruct (linked_bridge (c_posts c) p q tp tp tq) as (r & tr & Hr & Htr & Hbetween);
      [by apply Hlink|done|done|lia|lia|].
    exists r, tr. repeat split; [done|by apply Hb|done|lia|lia].
  - destruct (linked_bridge (c_posts c) q p tq tq tp) as (r & tr & Hr & Htr & Hbetween);
      [by apply Hlink|done|done|lia|lia|].
    exists r, tr. repeat split; [done|by apply Hb|done|lia|lia].
Qed.

Lemma apart_posts_bridged_witness :
  linked [postA; postB; postC] postA postC
  /\ linked [postA; postB; postC] postA postC
  /\ exists r tr, r ∈ [postA; postB; postC] /\ r ∈ [postA; postB; postC]
                  /\ timestamp r = Some tr
                  /\ (Z.min 0 (40 * hour) < tr < Z.max 0 (40 * hour))%Z.
Proof.
  apply (apart_posts_bridged [postA; postB; postC] postA postC
           (mkCluster [postA; postB; postC] "Santana Row" ["shooting"; "suspect"]
                      (Some (40 * hour)%Z))
           0%Z (40 * hour)%Z).
  - repeat constructor; by eexists.
  - apply list_elem_of_In. vm_compute. tauto.
  - apply list_elem_of_In. simpl. tauto.
  - apply list_elem_of_In. simpl. tauto.
  - reflexivity.
  - reflexivity.
  - vm_compute. reflexivity.
Defined.

(** ** Narrative synthesizer: the citations *)

Section Citations.
Variable posts : list XPost.

Lemma wellCited_empty (s : string) : wellCited posts (mkDraft s [] ∅).
Proof.
  split; simpl; [constructor|done|constructor|].
  intros c Hc. by apply elem_of_nil in Hc.
Qed.

(** Pushing a citation numbered [length + 1] for a source whose url has not
    been used keeps the draft well cited. *)
Lemma wellCited_push (d : Draft) (p : XPost) (s : string) :
  wellCited posts d -> p ∈ posts -> url p ∉ d_usedUrls d ->
  wellCited posts
    (mkDraft s
       (d_citations d ++
          [mkCitation (Z.of_nat (length (d_citations d)) + 1) (url p) (username (author p))])
       ({[ url p ]} ∪ d_usedUrls d)).
Proof.
  intros [Hsrc Hids Hnd Hused] Hp Hnew. split; simpl.
  - apply Forall_app. split; [done|]. apply Forall_singleton. by exists p.
  - rewrite map_app, length_app, Hids. simpl.
    rewrite Nat.add_1_r, seq_S, map_app. simpl.
    do 3 f_equal. lia.
  - rewrite map_app. simpl. apply NoDup_app. split; [done|]. split.
    + intros u Hu Hu'. apply list_elem_of_singleton in Hu' as ->.
      apply list_elem_of_fmap in Hu as (c & Hc & Hin).
      apply Hnew. rewrite Hc. by apply Hused.
    + apply NoDup_singleton.
  - intros c Hc. apply elem_of_union.
    apply elem_of_app in Hc as [Hc|Hc]; [right; by apply Hused|left].
    apply list_elem_of_singleton in Hc as ->. simpl. by apply elem_of_singleton.
Qed.

Lemma wellCited_summary (d : Draft) (s : string) :
  wellCited posts d -> wellCited posts (mkDraft s (d_citations d) (d_usedUrls d)).
Proof. by intros [? ? ? ?]. Qed.

Variable relevantPosts : list XPost.
Hypothesis relevant_sources : forall p, p ∈ relevantPosts -> p ∈ posts.

Lemma orElse_find_source (f : XPost -> bool) (i : nat) (p : XPost) :
  orElse (jsFind f relevantPosts) (relevantPosts !! i) = Some p -> p ∈ posts.
Proof using relevant_sources.
  unfold orElse. destruct (jsFind f relevantPosts) as [q|] eqn:Hfind.
  - intros [= <-]. apply relevant_sources. by apply (jsFind_Some f).
  - intros Hi. apply relevant_sources. by eapply list_elem_of_lookup_2.
Qed.

(** The "what happened" block starts from the empty draft and cites its
    primary post under the number 1. *)
Lemma whatBlock_wellCited (incidentLocation : string) (cas : list string) :
  relevantPosts <> [] ->
  exists d, whatBlock incidentLocation relevantPosts cas (mkDraft "" [] ∅) = Some d
            /\ wellCited posts d.
Proof using relevant_sources.
  intros Hne. unfold whatBlock.
  destruct (orElse _ (relevantPosts !! 0%nat)) as [pp|] eqn:Hpp.
  - pose proof (orElse_find_source _ _ _ Hpp) as Hsrc.
    simpl. rewrite bool_decide_eq_false_2 by apply not_elem_of_empty. simpl.
    eexists. split; [reflexivity|].
    apply (wellCited_push (mkDraft "" [] ∅) pp); [apply wellCited_empty|done|].
    apply not_elem_of_empty.
  - exfalso. unfold orElse in Hpp.
    destruct (jsFind _ relevantPosts); [done|].
    by destruct relevantPosts.
Qed.

Lemma suspectBlock_wellCited (s0 : string) (d : Draft) :
  wellCited posts d -> wellCited posts (suspectBlock relevantPosts s0 d).
Proof using relevant_sources.
  intros Hd. unfold suspectBlock.
  destruct (orElse _ (relevantPosts !! 1%nat)) as [sp|] eqn:Hsp.
  - pose proof (orElse_find_source _ _ _ Hsp) as Hsrc.
    destruct (bool_decide (url sp ∈ d_usedUrls d)) eqn:Hused; simpl.
    + by apply wellCited_summary.
    + apply bool_decide_eq_false in Hused. by apply wellCited_push.
  - simpl. by apply wellCited_summary.
Qed.

Lemma buildSummary_wellCited (incidentLocation : string) (ex : Extracted) (sh : bool) :
  relevantPosts <> [] ->
  exists r, buildSummary incidentLocation relevantPosts ex sh = Some r
            /\ Forall (fromSource posts) (citations r)
            /\ map cite_id (citations r) = map Z.of_nat (seq 1 (length (citations r)))
            /\ NoDup (map cite_url (citations r)).
Proof using relevant_sources.
  intros Hne. unfold buildSummary.
  assert (Hd1 : exists d1,
             (if (0 <? length (whatHappened ex))%nat && sh
              then whatBlock incidentLocation relevantPosts (casualties ex) (mkDraft "" [] ∅)
              else Some (mkDraft "" [] ∅)) = Some d1 /\ wellCited posts d1).
  { destruct ((0 <? length (whatHappened ex))%nat && sh).
    - by apply whatBlock_wellCited.
    - eexists. split; [reflexivity|]. apply wellCited_empty. }
  destruct Hd1 as (d1 & -> & Hd1). simpl.
  eexists. split; [reflexivity|]. simpl.
  assert (Hd2 : wellCited posts match suspectInfo ex with
                          | [] => d1
                          | s0 :: _ => suspectBlock relevantPosts s0 d1
                          end).
  { destruct (suspectInfo ex); [done|]. by apply suspectBlock_wellCited. }
  by destruct Hd2.
Qed.
End Citations.

Lemma relevantPosts_sources (posts : list XPost) (incidentLocation : string) :
  let topPosts := take 7 (jsSort cmpRelevance posts) in
  let locationPosts := List.filter (mentionsIncidentLocation incidentLocation) topPosts in
  let relevantPosts := if (0 <? length locationPosts)%nat then locationPosts else topPosts in
  (posts <> [] -> relevantPosts <> [])
  /\ forall p, p ∈ relevantPosts -> p ∈ posts.
Proof.
  intros topPosts locationPosts relevantPosts.
  assert (Htop : forall p, p ∈ topPosts -> p ∈ posts).
  { intros p Hp. apply (jsSort_elem_of cmpRelevance).
    by eapply (sublist_subseteq _ _ (sublist_take _ _)). }
  split.
  - intros Hne. unfold relevantPosts.
    destruct (Nat.ltb_spec 0 (length locationPosts)) as [Hlt|Hge].
    + intros Heq. rewrite Heq in Hlt. simpl in Hlt. lia.
    + unfold topPosts. intros Heq. apply (f_equal length) in Heq.
      rewrite length_take, jsSort_length in Heq. simpl in Heq.
      destruct posts; [done|]. simpl in Heq. lia.
  - intros p. unfold relevantPosts.
    destruct (0 <? length locationPosts)%nat; [|by apply Htop].
    unfold locationPosts. rewrite list_elem_of_In, filter_In, <- list_elem_of_In.
    intros [Hp _]. by apply Htop.
Qed.

(** C8. For every cluster and anchored location the synthesizer returns a
    result; each citation carries the url (and the handle) of one of the
    cluster's posts; the citation numbers are 1, 2, ... in order; no url is
    cited twice; and a cluster with no post yields exactly the summary
    "No information available." with no citation. *)
Theorem generateTLDR_citations (posts : list XPost) (incidentLocation : string) :
  exists r,
    generateTLDR posts incidentLocation = Some r
    /\ Forall (fromSource posts) (citations r)
    /\ map cite_id (citations r) = map Z.of_nat (seq 1 (length (citations r)))
    /\ NoDup (map cite_url (citations r))
    /\ generateTLDR [] incidentLocation = Some (mkTLDR "No information available." []).
Proof.
  destruct posts as [|p0 posts].
  - eexists. split; [reflexivity|]. simpl.
    split; [constructor|]. split; [done|]. split; [constructor|done].
  - destruct (relevantPosts_sources (p0 :: posts) incidentLocation) as [Hne Hsrc].
    unfold generateTLDR. simpl length. simpl Nat.eqb. cbv iota.
    destruct (buildSummary_wellCited (p0 :: posts) _ Hsrc incidentLocation
                (fold_left extractStep (take 7 (jsSort cmpRelevance (p0 :: posts)))
                           (mkExtracted [] [] [] []))
                (existsb (fun p => JsString.includes (JsString.toLowerCase (text p)) "shooting")
                         (take 7 (jsSort cmpRelevance (p0 :: posts)))))
      as (r & Hr & Hprops); [by apply Hne|].
    exists r. split; [exact Hr|].
    destruct Hprops as (H1 & H2 & H3). done.
Qed.

(** ** Location extractor: the street-address stage *)

(** *** Substrings *)

Lemma append_cons (a : ascii) (s t : string) : String a s ++ t = String a (s ++ t).
Proof. reflexivity. Qed.

Lemma append_nil (t : string) : "" ++ t = t.
Proof. reflexivity. Qed.

Lemma startsWith_spec (s t : string) :
  JsString.startsWith s t = true <-> exists post, s = t ++ post.
Proof.
  revert s. induction t as [|b t IH]; intros s.
  - split; [intros _; by exists s|]. by destruct s.
  - destruct s as [|a s]; simpl.
    + split; [done|]. intros [post Hpost]. by rewrite append_cons in Hpost.
    + destruct (Ascii.eqb_spec a b) as [->|Hne].
      * rewrite IH. split; intros [post Hpost]; exists post.
        -- rewrite append_cons. by f_equal.
        -- rewrite append_cons in Hpost. by injection Hpost.
      * split; [done|]. intros [post Hpost]. rewrite append_cons in Hpost. congruence.
Qed.

Lemma includes_cons (a : ascii) (s t : string) :
  JsString.includes (String a s) t
  = if JsString.startsWith (String a s) t then true else JsString.includes s t.
Proof. reflexivity. Qed.

Lemma includes_spec (s t : string) :
  JsString.includes s t = true <-> exists pre post, s = pre ++ t ++ post.
Proof.
  split.
  - induction s as [|a s IH].
    + destruct t; simpl; [|done]. intros _. by exists "", "".
    + rewrite includes_cons.
      destruct (JsString.startsWith (String a s) t) eqn:Hs.
      * intros _. apply startsWith_spec in Hs as [post Hpost].
        exists "", post. by rewrite append_nil.
      * intros H. destruct (IH H) as (pre & post & ->).
        exists (String a pre), post. by rewrite append_cons.
  - intros (pre & post & ->). induction pre as [|a pre IH].
    + rewrite append_nil.
      assert (Hs : JsString.startsWith (t ++ post) t = true)
        by (apply startsWith_spec; by exists post).
      destruct (t ++ post) as [|c u] eqn:Htp.
      * destruct t; [done|]. by rewrite append_cons in Htp.
      * by rewrite includes_cons, Hs.
    + rewrite append_cons, includes_cons.
      destruct (JsString.startsWith _ t); [done|]. exact IH.
Qed.

Lemma string_app_assoc (a b c : string) : (a ++ b) ++ c = a ++ (b ++ c).
Proof.
  induction a as [|x a IH]; [done|]. by rewrite !append_cons, IH.
Qed.

Lemma includes_prefix (s t1 t2 : string) :
  JsString.includes s (t1 ++ t2) = true -> JsString.includes s t1 = true.
Proof.
  rewrite !includes_spec. intros (pre & post & ->).
  exists pre, (t2 ++ post). by rewrite string_app_assoc.
Qed.

(** *** The guard against "alert" *)

Lemma scanAddress_guard (text textLower : string) (patterns : list Regex.re)
      (r : LocationMatch) :
  scanAddress text textLower patterns = Some r ->
  loc_confidence r = 0.9%Q
  /\ (JsString.includes textLower "alert" = true ->
      JsString.includes (JsString.toLowerCase (location r)) "st" = true).
Proof.
  induction patterns as [|pattern rest IH]; simpl; [done|].
  destruct (truthyGroup 1 (Regex.jsMatch pattern text)) as [m1|]; [|exact IH].
  destruct (negb (JsString.includes textLower "alert")
            || JsString.includes (JsString.toLowerCase (JsString.trim m1)) "st"
            || JsString.includes (JsString.toLowerCase (JsString.trim m1)) "street")
    eqn:Hguard; [|exact IH].
  intros [= <-]. simpl. split; [done|]. intros Halert.
  rewrite Halert in Hguard. simpl in Hguard.
  apply orb_true_iff in Hguard as [H|H]; [done|].
  by apply (includes_prefix _ "st" "reet").
Qed.


(** *** What an address match must contain *)

Module RegexFacts.
Import Regex RegexLang.

(** Whatever the matcher accepts from the head of [s] is a word of the
    pattern, and the continuation was run on the rest. *)
Lemma exec_sound {R : Type} (r : re) :
  forall (s : list ascii) (c : captures) (k : list ascii -> captures -> option R) (x : R),
    exec r s c k = Some x ->
    exists w s' c', s = (w ++ s')%list /\ lang r w /\ k s' c' = Some x.
Proof.
  induction r as [|p|r1 IH1 r2 IH2|r1 IH1 r2 IH2|r1 IH1 max|n r1 IH1];
    intros s c k x H; simpl in H.
  - exists [], s, c. split; [done|]. split; [constructor|done].
  - destruct s as [|a s]; [done|]. destruct (p a) eqn:Hp; [|done].
    exists [a], s, c. split; [done|]. split; [by constructor|done].
  - apply IH1 in H as (w1 & s1 & c1 & -> & L1 & H).
    apply IH2 in H as (w2 & s2 & c2 & -> & L2 & H).
    exists (w1 ++ w2)%list, s2, c2. rewrite app_assoc.
    split; [done|]. split; [by constructor|done].
  - destruct (exec r1 s c k) as [y|] eqn:E.
    + injection H as ->. apply IH1 in E as (w & s' & c' & -> & L & Hk).
      exists w, s', c'. split; [done|]. split; [by apply lang_alt_l|done].
    + apply IH2 in H as (w & s' & c' & -> & L & Hk).
      exists w, s', c'. split; [done|]. split; [by apply lang_alt_r|done].
  - revert H. generalize (length s) at 1. intros fuel. revert max s c.
    induction fuel as [|fuel IHf]; intros max s c H.
    + exists [], s, c. split; [done|]. split; [constructor|done].
    + assert (Hstop : k s c = Some x ->
                      exists w s' c', s = (w ++ s')%list /\ lang (Rep r1 max) w
                                      /\ k s' c' = Some x).
      { intros Hk. exists [], s, c. split; [done|]. split; [constructor|done]. }
      destruct max as [[|m]|]; [by apply Hstop| |].
      * match type of H with
        | match ?e with Some _ => _ | None => _ end = _ => destruct e as [y|] eqn:E
        end; [|by apply Hstop].
        injection H as ->. apply IH1 in E as (w1 & s1 & c1 & -> & L1 & E).
        destruct (length s1 <? length (w1 ++ s1))%nat; [|done].
        apply IHf in E as (w2 & s2 & c2 & -> & L2 & Hk).
        exists (w1 ++ w2)%list, s2, c2. rewrite app_assoc.
        split; [done|]. split; [by eapply lang_rep_cons|done].
      * match type of H with
        | match ?e with Some _ => _ | None => _ end = _ => destruct e as [y|] eqn:E
        end; [|by apply Hstop].
        injection H as ->. apply IH1 in E as (w1 & s1 & c1 & -> & L1 & E).
        destruct (length s1 <? length (w1 ++ s1))%nat; [|done].
        apply IHf in E as (w2 & s2 & c2 & -> & L2 & Hk).
        exists (w1 ++ w2)%list, s2, c2. rewrite app_assoc.
        split; [done|]. split; [by eapply lang_rep_cons|done].
  - apply IH1 in H as (w & s' & c' & -> & L & Hk).
    eexists w, s', _. split; [done|]. split; [by constructor|exact Hk].
Qed.

Lemma search_sound (r : re) (s : list ascii) (c : captures) :
  search r s = Some c -> exists pre w post, s = (pre ++ w ++ post)%list /\ lang r w.
Proof.
  induction s as [|a s IH]; simpl.
  - destruct (matchHere r []) as [[c' rest]|] eqn:E; [|done].
    intros _. apply exec_sound in E as (w & s' & c'' & Hs & L & _).
    exists [], w, s'. by split.
  - destruct (matchHere r (a :: s)) as [[c' rest]|] eqn:E.
    + intros _. apply exec_sound in E as (w & s' & c'' & Hs & L & _).
      exists [], w, s'. by split.
    + intros H. destruct (IH H) as (pre & w & post & -> & L).
      exists (a :: pre), w, post. by split.
Qed.

Lemma mentions_app_l ws w1 w2 : mentions ws w1 -> mentions ws (w1 ++ w2).
Proof.
  intros (ty & pre & m & post & Hty & -> & Hm).
  exists ty, pre, m, (post ++ w2)%list. by rewrite <- !app_assoc.
Qed.

Lemma mentions_app_r ws w1 w2 : mentions ws w2 -> mentions ws (w1 ++ w2).
Proof.
  intros (ty & pre & m & post & Hty & -> & Hm).
  exists ty, (w1 ++ pre)%list, m, post. by rewrite <- !app_assoc.
Qed.

Lemma must_seq_l ws r1 r2 : must ws r1 -> must ws (Seq r1 r2).
Proof. intros H w L. inversion L; subst. apply mentions_app_l. by apply H. Qed.

Lemma must_seq_r ws r1 r2 : must ws r2 -> must ws (Seq r1 r2).
Proof. intros H w L. inversion L; subst. apply mentions_app_r. by apply H. Qed.

Lemma must_grp ws n r : must ws r -> must ws (Grp n r).
Proof. intros H w L. inversion L; subst. by apply H. Qed.

Lemma must_seqs ws rs : Exists (must ws) rs -> must ws (seqs rs).
Proof.
  induction 1 as [r rs Hr|r rs Hrs IH]; destruct rs as [|r' rs]; simpl.
  - done.
  - by apply must_seq_l.
  - by apply Exists_nil in Hrs.
  - by apply must_seq_r.
Qed.

Lemma lang_lit (s : string) (w : list ascii) :
  lang (lit s) w ->
  map JsString.lowerChar w = map JsString.lowerChar (list_ascii_of_string s).
Proof.
  revert w. induction s as [|a s IH]; intros w L; simpl in L.
  - by inversion L.
  - inversion L as [| |r1 r2 w1 w2 L1 L2| | | | |]; subst.
    inversion L1 as [|p b Hb| | | | | |]; subst. simpl.
    apply Ascii.eqb_eq in Hb. rewrite Hb. f_equal. by apply IH.
Qed.

Lemma must_lits ws : must ws (lits ws).
Proof.
  unfold lits. intros w L.
  assert (H : exists ty, ty ∈ ws /\ lang (lit ty) w).
  { revert L. induction ws as [|ty ws IH]; simpl.
    - intros L. inversion L as [|p b Hb| | | | | |]; subst. done.
    - destruct ws as [|ty' ws].
      + intros L. exists ty. split; [by left|done].
      + intros L. inversion L; subst.
        * exists ty. split; [by left|done].
        * destruct IH as (ty0 & Hin & L0); [done|].
          exists ty0. split; [by right|done]. }
  destruct H as (ty & Hin & Lty).
  exists ty, [], w, []. rewrite app_nil_r. split; [done|]. split; [done|].
  by apply lang_lit.
Qed.











End RegexFacts.

Lemma toLowerCase_list (s : string) :
  JsString.toLowerCase s
  = string_of_list_ascii (map JsString.lowerChar (list_ascii_of_string s)).
Proof. induction s as [|a s IH]; simpl; [done|]. by rewrite IH. Qed.

Lemma string_of_list_ascii_app (a b : list ascii) :
  string_of_list_ascii (a ++ b) = string_of_list_ascii a ++ string_of_list_ascii b.
Proof.
  induction a as [|x a IH]; simpl; [done|]. by rewrite append_cons, IH.
Qed.






Lemma stabbingAlert_location :
  extractPostLocationStaged stabbingAlert = (StageAddress, mkLocation "3 men st" 0.9%Q).
Proof. vm_compute. reflexivity. Qed.



(** The alert of the witness has street-type letters inside its words, and so
    has the plain alert none at all; neither gets an address. *)
Lemma alerts_without_address :
  JsString.includes (JsString.toLowerCase (text threatAlert)) "ct" = true
  /\ map (fun p => fst (extractPostLocationStaged p)) [threatAlert; plainAlert]
     = [StageNone; StageNone].
Proof. split; vm_compute; reflexivity. Qed.

Lemma determineSeverity_monotone_witness :
  (severityOrder (determineSeverity [quietReport])
   <= severityOrder (determineSeverity [loudReport]))%Z.
Proof.
  apply (determineSeverity_monotone [quietReport] [loudReport]).
  - reflexivity.
  - reflexivity.
  - vm_compute. discriminate.
Defined.

(** * Further properties of the pipeline *)

(** ** Engagement totals *)

Lemma totals_fold (posts : list XPost) (acc : TotalEngagement) :
  fold_left (fun acc post =>
    mkTotal (totalLikes acc + likes (engagement post))
            (totalRetweets acc + retweets (engagement post))
            (totalReplies acc + replies (engagement post))
            (totalQuotes acc + quotes (engagement post))
            (totalViews acc + views (engagement post)))%Z posts acc
  = addTotals acc (calculateTotalEngagement posts).
Proof.
  unfold calculateTotalEngagement. revert acc.
  induction posts as [|p posts IH]; intros acc; simpl.
  - destruct acc. unfold addTotals. simpl. f_equal; lia.
  - match goal with
    | |- fold_left _ posts ?a = addTotals _ (fold_left _ posts ?b) =>
        rewrite (IH a), (IH b)
    end.
    unfold addTotals. simpl. f_equal; lia.
Qed.

Lemma totals_nonNegative (posts : list XPost) :
  Forall (fun p => countsNonNegative (engagement p)) posts ->
  (0 <= totalLikes (calculateTotalEngagement posts)
   /\ 0 <= totalRetweets (calculateTotalEngagement posts)
   /\ 0 <= totalReplies (calculateTotalEngagement posts)
   /\ 0 <= totalQuotes (calculateTotalEngagement posts)
   /\ 0 <= totalViews (calculateTotalEngagement posts))%Z.
Proof.
  induction posts as [|p posts IH] using rev_ind; intros Hall.
  - unfold calculateTotalEngagement. simpl. lia.
  - apply Forall_app in Hall as [Hposts Hp]. apply Forall_cons in Hp as [Hp _].
    specialize (IH Hposts). unfold countsNonNegative in Hp.
    destruct Hp as (? & ? & ? & ? & ?).
    unfold calculateTotalEngagement in *. rewrite fold_left_app. simpl. lia.
Qed.

Lemma totals_app (ps qs : list XPost) :
  calculateTotalEngagement (ps ++ qs)
  = addTotals (calculateTotalEngagement ps) (calculateTotalEngagement qs).
Proof.
  unfold calculateTotalEngagement at 1. rewrite fold_left_app.
  fold (calculateTotalEngagement ps). apply totals_fold.
Qed.

(** X1. When the counts of two post lists are non-negative and the totals of
    the two lists put together stay within the range in which the code's
    additions are exact (up to 2^53 - 1), so do the totals of each list, and
    the totals of the whole are the component-wise sums of the totals of the
    parts; so are the likes plus reshares that rank incidents and decide
    their severity. *)
Theorem calculateTotalEngagement_app (ps qs : list XPost) :
  exactTotals (ps ++ qs) ->
  exactTotals ps /\ exactTotals qs
  /\ calculateTotalEngagement (ps ++ qs)
     = addTotals (calculateTotalEngagement ps) (calculateTotalEngagement qs)
  /\ totalReactions (ps ++ qs) = (totalReactions ps + totalReactions qs)%Z.
Proof.
  intros [Hall Hsafe]. apply Forall_app in Hall as [Hps Hqs].
  pose proof (totals_nonNegative ps Hps) as (? & ? & ? & ? & ?).
  pose proof (totals_nonNegative qs Hqs) as (? & ? & ? & ? & ?).
  rewrite totals_app in Hsafe. unfold withinSafe, addTotals in Hsafe.
  cbn [totalLikes totalRetweets totalReplies totalQuotes totalViews] in Hsafe.
  destruct Hsafe as (? & ? & ? & ?).
  split; [split; [done|unfold withinSafe; lia]|].
  split; [split; [done|unfold withinSafe; lia]|].
  split; [apply totals_app|].
  unfold totalReactions. rewrite totals_app. unfold addTotals.
  cbn [totalLikes totalRetweets]. lia.
Qed.

Lemma calculateTotalEngagement_app_witness :
  calculateTotalEngagement ([quietReport] ++ [loudReport])
  = addTotals (calculateTotalEngagement [quietReport]) (calculateTotalEngagement [loudReport])
  /\ totalReactions ([quietReport] ++ [loudReport]) = 1900%Z.
Proof.
  destruct (calculateTotalEngagement_app [quietReport] [loudReport]) as (_ & _ & Htot & Hre).
  - split.
    + repeat constructor; vm_compute; discriminate.
    + unfold withinSafe. vm_compute. repeat split; discriminate.
  - split; [exact Htot|]. rewrite Hre. reflexivity.
Defined.

(** ** Sentiment *)





Lemma single_post_sentiment (post : XPost) :
  sentiment (analyzeSentiment [post]) = negative
  <-> JsString.includesAny (JsString.toLowerCase (text post)) negativeWords = true.
Proof.
  unfold analyzeSentiment. cbn [fold_left length]. unfold countPost.
  destruct (JsString.includesAny (JsString.toLowerCase (text post)) negativeWords);
    [|destruct (JsString.includesAny (JsString.toLowerCase (text post)) positiveWords)];
    destruct (verified (author post)); simpl; split; done.
Qed.

(** X3. A cluster of one post is left out of the live incidents exactly when
    the text of the post contains one of the words false, hoax, fake,
    debunked, unconfirmed, rumor (in any letter case), whether or not it also
    contains a confirming word and whoever its author is. *)
Theorem single_post_published_iff (post : XPost) (anchoredLocation : string) :
  liveIncident ([post], anchoredLocation) = Some None
  <-> JsString.includesAny (JsString.toLowerCase (text post)) negativeWords = true.
Proof.
  rewrite <- single_post_sentiment. split.
  - intros H. destruct (decide (sentiment (analyzeSentiment [post]) = negative)); [done|].
    by apply (other_single_post_cluster_kept post anchoredLocation) in H.
  - intros Hneg. unfold liveIncident. simpl fst. simpl snd. simpl length.
    by rewrite (proj2 (skipped_single_post _) Hneg).
Qed.

(** ** Keywords and letter case *)

Lemma existsb_pointwise {A : Type} (f g : A -> bool) (l : list A) :
  (forall x, f x = g x) -> existsb f l = existsb g l.
Proof.
  intros H. induction l as [|x l IH]; simpl; [done|]. by rewrite H, IH.
Qed.

Lemma lowerChar_not_S (a : ascii) : Ascii.eqb (JsString.lowerChar a) "S" = false.
Proof. destruct a as [[] [] [] [] [] [] [] []]; reflexivity. Qed.

(** A lower-cased text never contains the upper-case word. *)
Lemma includes_lower_SWAT (s : string) :
  JsString.includes (JsString.toLowerCase s) "SWAT" = false.
Proof.
  induction s as [|a s IH]; [reflexivity|].
  cbn [JsString.toLowerCase]. rewrite includes_cons.
  cbn [JsString.startsWith]. by rewrite lowerChar_not_S.
Qed.

(** X4. The critical keyword "SWAT" is compared, in upper case, with the
    lower-cased text and therefore never found: a cluster counts as having a
    critical keyword exactly when one of its texts contains emergency,
    evacuate, police or lockdown. *)
Theorem hasCriticalKeyword_effective (posts : list XPost) :
  hasCriticalKeyword posts
  = existsb (fun post =>
      JsString.includesAny (JsString.toLowerCase (text post)) effectiveCriticalKeywords) posts.
Proof.
  unfold hasCriticalKeyword. apply existsb_pointwise. intros post.
  unfold JsString.includesAny, criticalKeywords, effectiveCriticalKeywords.
  cbn [existsb]. rewrite includes_lower_SWAT.
  by destruct (JsString.includes _ "emergency"), (JsString.includes _ "evacuate"),
       (JsString.includes _ "police").
Qed.

(** ** Topic tagger *)

(** X5. The tagger returns its labels without repetition and always in the
    same order: the result is a sub-list of shooting, active_shooter, arrest,
    suspect, casualties, evacuation, lockdown. *)
Theorem extractTopics_vocabulary (post : XPost) :
  extractTopics post `sublist_of` topicVocabulary /\ NoDup (extractTopics post).
Proof.
  assert (H : extractTopics post `sublist_of` topicVocabulary).
  { unfold extractTopics.
    change topicVocabulary
      with (["shooting"] ++ ["active_shooter"] ++ ["arrest"] ++ ["suspect"]
            ++ ["casualties"] ++ ["evacuation"] ++ ["lockdown"])%list.
    repeat apply sublist_app;
      match goal with
      | |- (if ?b then _ else _) `sublist_of` _ =>
          destruct b; [reflexivity|apply sublist_nil_l]
      end. }
  split; [exact H|].
  eapply sublist_NoDup; [|exact H].
  apply (bool_decide_unpack _). vm_compute. exact I.
Qed.

(** ** Location extractor: confidences and shadowed entries *)

Lemma scanPlaces_confidence (textLower : string) (places : list Place) (r : LocationMatch) :
  scanPlaces textLower places = Some r ->
  loc_confidence r = 0.95%Q \/ loc_confidence r = 0.75%Q.
Proof.
  induction places as [|pl places IH]; simpl; [done|].
  destruct (JsString.includesAny textLower (keywords pl)); [|exact IH].
  intros [= <-]. simpl. destruct (priority pl =? 1)%Z; auto.
Qed.

Lemma scanBuilding_confidence (text : string) (patterns : list Regex.re) (r : LocationMatch) :
  scanBuilding text patterns = Some r -> loc_confidence r = 0.85%Q.
Proof.
  induction patterns as [|pattern rest IH]; simpl; [done|].
  destruct (truthyGroup 1 (Regex.jsMatch pattern text)) as [m1|]; [|exact IH].
  destruct (negb _); [|exact IH]. by intros [= <-].
Qed.

Lemma scanIntersection_confidence (text : string) (r : LocationMatch) :
  scanIntersection text = Some r -> loc_confidence r = 0.85%Q.
Proof.
  unfold scanIntersection.
  destruct (truthyGroup 1 _); [|done]. destruct (truthyGroup 2 _); [|done].
  by intros [= <-].
Qed.

Lemma scanNeighborhood_confidence (text : string) (r : LocationMatch) :
  scanNeighborhood text = Some r -> loc_confidence r = 0.7%Q.
Proof.
  unfold scanNeighborhood. destruct (truthyGroup 1 _); [|done]. by intros [= <-].
Qed.

Lemma staged_confidence (post : XPost) :
  loc_confidence (snd (extractPostLocationStaged post))
    ∈ stageConfidences (fst (extractPostLocationStaged post))
  /\ (fst (extractPostLocationStaged post) = StageNone ->
      snd (extractPostLocationStaged post) = mkLocation "" 0%Q).
Proof.
  unfold extractPostLocationStaged.
  destruct (scanPlaces _ _) as [r|] eqn:H1.
  { simpl. split; [|done]. apply scanPlaces_confidence in H1 as [-> | ->].
    - by left.
    - right. by left. }
  destruct (scanAddress _ _ _) as [r|] eqn:H2.
  { simpl. split; [|done]. apply scanAddress_guard in H2 as [-> _]. by left. }
  destruct (scanBuilding _ _) as [r|] eqn:H3.
  { simpl. split; [|done]. apply scanBuilding_confidence in H3 as ->. by left. }
  destruct (scanIntersection _) as [r|] eqn:H4.
  { simpl. split; [|done]. apply scanIntersection_confidence in H4 as ->. by left. }
  destruct (scanNeighborhood _) as [r|] eqn:H5.
  { simpl. split; [|done]. apply scanNeighborhood_confidence in H5 as ->. by left. }
  simpl. split; [by left|done].
Qed.

(** X6. The confidence of a location is fixed by the stage that produced it
    (0.95 or 0.75 for the catalogue, 0.9 for an address, 0.85 for a venue or an
    intersection, 0.7 for a neighborhood, 0 for no match); hence the first
    pass of the anchoring, which skips confidences below 0.5, skips a post
    exactly when no stage matched, and then the location is the empty
    string. *)
Theorem extractPostLocation_confidence (post : XPost) :
  loc_confidence (extractPostLocation post)
    ∈ stageConfidences (fst (extractPostLocationStaged post))
  /\ (located post = false <-> fst (extractPostLocationStaged post) = StageNone)
  /\ (located post = false -> extractPostLocation post = mkLocation "" 0%Q).
Proof.
  destruct (staged_confidence post) as [Hconf Hnone].
  unfold located, extractPostLocation in *.
  assert (Hiff : negb (Qlt_bool (loc_confidence (snd (extractPostLocationStaged post))) 0.5)
                 = false <-> fst (extractPostLocationStaged post) = StageNone).
  { destruct (fst (extractPostLocationStaged post)); simpl in Hconf;
      repeat (apply elem_of_cons in Hconf as [->|Hconf]);
      try (by apply elem_of_nil in Hconf); split; try done; vm_compute; discriminate. }
  split; [done|]. split; [done|]. intros H. apply Hnone. by apply Hiff.
Qed.

Lemma includes_suffix (s t1 t2 : string) :
  JsString.includes s (t1 ++ t2) = true -> JsString.includes s t2 = true.
Proof.
  rewrite !includes_spec. intros (pre & post & ->).
  exists (pre ++ t1), post. by rewrite !string_app_assoc.
Qed.

(** [find] stops at the first hit: with a hit at [x], the element found is
    [x] or stands before it. *)
Lemma jsFind_before {A : Type} (p : A -> bool) (l1 l2 : list A) (x : A) :
  p x = true -> exists v, jsFind p (l1 ++ x :: l2) = Some v /\ v ∈ (l1 ++ [x])%list.
Proof.
  intros Hx. induction l1 as [|y l1 IH]; simpl.
  - rewrite Hx. exists x. split; [done|]. by left.
  - destruct (p y).
    + exists y. split; [done|]. by left.
    + destruct IH as (v & Hv & Hin). exists v. split; [done|]. by right.
Qed.

(** X7. The catalogue entry "East Palo Alto" is shadowed by "Palo Alto",
    which stands before it in the table and whose keyword is part of its
    keyword: the catalogue stage never answers "East Palo Alto". *)
Theorem east_palo_alto_shadowed (post : XPost) :
  extractPostLocationStaged post <> (StagePlace, mkLocation "East Palo Alto" 0.75%Q).
Proof.
  unfold extractPostLocationStaged. rewrite sortedPlaces_specificPlaces.
  set (textLower := JsString.toLowerCase (text post)).
  destruct (scanPlaces textLower specificPlaces) as [r|] eqn:Hscan.
  - intros [= ->]. rewrite scanPlaces_find in Hscan.
    destruct (jsFind (hit textLower) specificPlaces) as [v|] eqn:Hfind; [|done].
    simpl in Hscan. injection Hscan as Hname _.
    destruct (jsFind_Some _ _ _ Hfind) as [Hin Hhit].
    assert (Hv : v = mkPlace "East Palo Alto" ["east palo alto"] 3).
    { apply list_elem_of_In in Hin. simpl in Hin.
      repeat (destruct Hin as [<-|Hin]; [try discriminate Hname; try reflexivity|]).
      destruct Hin. }
    subst v. unfold hit in Hhit. simpl in Hhit. rewrite orb_false_r in Hhit.
    apply (includes_suffix _ "east " "palo alto") in Hhit.
    destruct (jsFind_before (hit textLower) (take 12 specificPlaces) (drop 13 specificPlaces)
                (mkPlace "Palo Alto" ["palo alto"] 3)) as (v' & Hfind' & Hin').
    { unfold hit. simpl. by rewrite Hhit. }
    change (take 12 specificPlaces ++ mkPlace "Palo Alto" ["palo alto"] 3
              :: drop 13 specificPlaces)%list with specificPlaces in Hfind'.
    rewrite Hfind in Hfind'. injection Hfind' as <-.
    apply list_elem_of_In in Hin'. simpl in Hin'.
    repeat (destruct Hin' as [Hin'|Hin']; [discriminate Hin'|]). destruct Hin'.
  - destruct (scanAddress _ _ _); [done|]. destruct (scanBuilding _ _); [done|].
    destruct (scanIntersection _); [done|]. by destruct (scanNeighborhood _).
Qed.

Lemma east_palo_alto_example :
  extractPostLocation (rowPost "8101" "Shots fired in East Palo Alto" 0)
  = mkLocation "Palo Alto" 0.75%Q.
Proof. vm_compute. reflexivity. Qed.

(** ** Coordinates *)

(** X8. No location is ever given the coordinates listed for East Palo Alto:
    a location whose name contains "east palo alto" contains "palo alto" (or
    "stanford"), whose entry comes first. *)
Theorem getCoordinates_never_east_palo_alto (location : string) :
  getCoordinates location <> mkCoordinates 37.4688 (-122.1411).
Proof.
  unfold getCoordinates. set (locLower := JsString.toLowerCase location).
  set (p := fun entry : string * Coordinates => JsString.includes locLower (fst entry)).
  destruct (jsFind p locationMap) as [entry|] eqn:Hfind; [|discriminate].
  destruct (jsFind_Some _ _ _ Hfind) as [Hin Hhit].
  intros Hcoord.
  assert (Hentry : entry = ("east palo alto", mkCoordinates 37.4688 (-122.1411))).
  { apply list_elem_of_In in Hin. simpl in Hin.
    repeat (destruct Hin as [<-|Hin]; [try discriminate Hcoord; try reflexivity|]).
    destruct Hin. }
  subst entry. unfold p in Hhit. simpl in Hhit.
  apply (includes_suffix _ "east " "palo alto") in Hhit.
  destruct (jsFind_before p (take 1 locationMap) (drop 2 locationMap)
              ("palo alto", mkCoordinates 37.4419 (-122.1430))) as (v' & Hfind' & Hin').
  { exact Hhit. }
  change (take 1 locationMap ++ ("palo alto", mkCoordinates 37.4419 (-122.1430))
            :: drop 2 locationMap)%list with locationMap in Hfind'.
  rewrite Hfind in Hfind'. injection Hfind' as <-.
  apply list_elem_of_In in Hin'. simpl in Hin'.
  repeat (destruct Hin' as [Hin'|Hin']; [discriminate Hin'|]). destruct Hin'.
Qed.

Lemma getCoordinates_east_palo_alto_example :
  getCoordinates "East Palo Alto" = mkCoordinates 37.4419 (-122.1430).
Proof. vm_compute. reflexivity. Qed.

(** ** Anchoring: shape of the clusters *)

Lemma step_wellFormed (batch : list XPost) (post : XPost) (st st' : AnchorState) :
  post ∈ batch -> step post st st' ->
  Forall (wellFormed batch) (incidents st) -> Forall (wellFormed batch) (incidents st').
Proof.
  intros Hpost [->|i c c' Hnew Hproc Hi Hinc Hgrow|c' Hnew Hproc Hinc Hposts Hts] Hall;
    [done| |]; rewrite Hinc.
  - apply Forall_insert; [done|].
    destruct Hgrow as [Hposts Hts Hnear].
    destruct (Forall_lookup_1 _ _ _ _ Hall Hi) as [Hne Hmem (m0 & Hm0 & Hm0t)].
    split.
    + rewrite Hposts. by destruct (c_posts c).
    + intros m. rewrite Hposts, elem_of_app, list_elem_of_singleton.
      intros [Hm| ->]; auto.
    + destruct Hts as [Hts|Hts]; rewrite Hposts, Hts.
      * exists m0. split; [|done]. apply elem_of_app. by left.
      * exists post. split; [|done]. apply elem_of_app. right.
        by apply list_elem_of_singleton.
  - apply Forall_app. split; [done|]. apply Forall_singleton. split.
    + by rewrite Hposts.
    + intros m. rewrite Hposts, list_elem_of_singleton. by intros ->.
    + exists post. rewrite Hposts, Hts. split; [|done]. by apply list_elem_of_singleton.
Qed.

Lemma passes_wellFormed (batch : list XPost) :
  Forall (wellFormed batch) (incidents (pass2 batch (pass1 batch))).
Proof.
  apply (passes_invariant (fun st => Forall (wellFormed batch) (incidents st)));
    [constructor|].
  intros post st st' Hpost Hstep. by apply (step_wellFormed batch post).
Qed.

Lemma filter_all {A : Type} (f : A -> bool) (l : list A) :
  Forall (fun x => f x = true) l -> List.filter f l = l.
Proof.
  induction 1 as [|x l Hx Hl IH]; simpl; [done|]. by rewrite Hx, IH.
Qed.

(** The output filter (at least one member post) removes nothing. *)
Lemma anchor_unfiltered (batch : list XPost) :
  anchorIncidentsToLocations batch = incidents (pass2 batch (pass1 batch)).
Proof.
  unfold anchorIncidentsToLocations. apply filter_all.
  eapply Forall_impl; [apply passes_wellFormed|].
  intros c [Hne _ _]. simpl. destruct (c_posts c); [done|]. reflexivity.
Qed.

Lemma step_tracked (post : XPost) (st st' : AnchorState) :
  step post st st' -> tracked st -> tracked st'.
Proof.
  intros Hstep Htr. destruct (step_adds _ _ _ Hstep) as [->|(Hnew & Hproc & Hperm)]; [done|].
  intros i. rewrite Hproc, Hperm. simpl.
  rewrite elem_of_union, elem_of_singleton, elem_of_cons. by rewrite (Htr i).
Qed.

Lemma passes_tracked (batch : list XPost) : tracked (pass2 batch (pass1 batch)).
Proof.
  apply passes_invariant.
  - intros i. simpl. split; intros H; [by apply elem_of_empty in H|by apply elem_of_nil in H].
  - intros post st st' _. apply step_tracked.
Qed.

Lemma length_concat_nonempty {A : Type} (ls : list (list A)) :
  Forall (fun l => l <> []) ls -> (length ls <= length (concat ls))%nat.
Proof.
  induction 1 as [|l ls Hl Hls IH]; simpl; [done|].
  rewrite length_app. destruct l; [done|]. simpl. lia.
Qed.

(** X9. Every cluster the anchoring engine returns has at least one member
    post, all its members are posts of the batch, and its timestamp is the
    timestamp of one of its members; in particular the final filter on the
    number of members removes nothing, and there are never more clusters
    than posts in the batch. *)
Theorem anchor_clusters_wellFormed (batch : list XPost) :
  Forall (wellFormed batch) (anchorIncidentsToLocations batch)
  /\ anchorIncidentsToLocations batch = incidents (pass2 batch (pass1 batch))
  /\ (length (anchorIncidentsToLocations batch) <= length batch)%nat.
Proof.
  assert (Hwf : Forall (wellFormed batch) (anchorIncidentsToLocations batch))
    by (rewrite anchor_unfiltered; apply passes_wellFormed).
  split; [exact Hwf|]. split; [apply anchor_unfiltered|].
  transitivity (length (allPosts (anchorIncidentsToLocations batch))).
  - unfold allPosts. rewrite <- (length_map c_posts (anchorIncidentsToLocations batch)) at 1.
    apply length_concat_nonempty. apply Forall_fmap.
    eapply Forall_impl; [exact Hwf|]. by intros c [Hne _ _].
  - rewrite <- (length_map id (allPosts _)), <- (length_map id batch).
    apply submseteq_length, NoDup_submseteq; [apply anchor_ids_NoDup|].
    intros i Hi. apply list_elem_of_fmap in Hi as (m & -> & Hm).
    apply elem_of_allPosts in Hm as (c & Hc & Hm).
    apply list_elem_of_fmap_2. rewrite Forall_forall in Hwf.
    by apply (wf_members _ _ (Hwf c Hc)).
Qed.

(** ** Anchoring: where location and topics come from *)

Lemma passes_direct (P : AnchorState -> Prop) (batch : list XPost) :
  P (mkAnchor [] ∅) ->
  (forall st post, P st -> P (pass1Step st post)) ->
  (forall st post, P st -> P (pass2Step st post)) ->
  P (pass2 batch (pass1 batch)).
Proof.
  intros H0 H1 H2.
  assert (Hfold : forall (f : AnchorState -> XPost -> AnchorState) l st,
             (forall st post, P st -> P (f st post)) -> P st -> P (fold_left f l st)).
  { intros f l. induction l as [|x l IH]; intros st Hf Hst; simpl; [done|].
    apply IH; [done|]. by apply Hf. }
  unfold pass2, pass1. apply Hfold; [done|]. by apply Hfold.
Qed.

Lemma unionTopics_spec (topics postTopics : list string) (t : string) :
  t ∈ unionTopics topics postTopics <-> t ∈ topics \/ t ∈ postTopics.
Proof.
  unfold unionTopics. revert topics.
  induction postTopics as [|x postTopics IH]; intros topics; simpl.
  - rewrite elem_of_nil. tauto.
  - rewrite IH, elem_of_cons. unfold arrIncludes.
    destruct (bool_decide (x ∈ topics)) eqn:Hx.
    + apply bool_decide_eq_true in Hx. split; [tauto|].
      intros [H|[->|H]]; auto.
    + rewrite elem_of_app, list_elem_of_singleton. tauto.
Qed.

Lemma unionTopics_NoDup (topics postTopics : list string) :
  NoDup topics -> NoDup (unionTopics topics postTopics).
Proof.
  unfold unionTopics. revert topics.
  induction postTopics as [|x postTopics IH]; intros topics Hnd; simpl; [done|].
  apply IH. unfold arrIncludes.
  destruct (bool_decide (x ∈ topics)) eqn:Hx; [done|].
  apply bool_decide_eq_false in Hx.
  apply NoDup_app. split; [done|]. split; [|apply NoDup_singleton].
  intros y Hy Hy'. apply list_elem_of_singleton in Hy' as ->. done.
Qed.

Lemma extractTopics_NoDup (post : XPost) : NoDup (extractTopics post).
Proof.
  assert (H : extractTopics post `sublist_of` topicVocabulary).
  { unfold extractTopics.
    change topicVocabulary
      with (["shooting"] ++ ["active_shooter"] ++ ["arrest"] ++ ["suspect"]
            ++ ["casualties"] ++ ["evacuation"] ++ ["lockdown"])%list.
    repeat apply sublist_app;
      match goal with
      | |- (if ?b then _ else _) `sublist_of` _ =>
          destruct b; [reflexivity|apply sublist_nil_l]
      end. }
  eapply sublist_NoDup; [|exact H].
  apply (bool_decide_unpack _). vm_compute. exact I.
Qed.

Lemma provenance_seed (post : XPost) :
  located post = true ->
  provenance (mkCluster [post] (location (extractPostLocation post))
                        (extractTopics post) (timestamp post)).
Proof.
  intros Hloc. split; simpl.
  - exists post. split; [by apply list_elem_of_singleton|done].
  - apply extractTopics_NoDup.
  - intros t. split.
    + intros Ht. exists post. split; [by apply list_elem_of_singleton|done].
    + intros (m & Hm & Ht). by apply list_elem_of_singleton in Hm as ->.
Qed.

Lemma provenance_topics_grow (c : Cluster) (post : XPost) (t : string) :
  (forall u, u ∈ c_topics c <-> exists m, m ∈ c_posts c /\ u ∈ extractTopics m) ->
  t ∈ unionTopics (c_topics c) (extractTopics post)
  <-> exists m, m ∈ (c_posts c ++ [post])%list /\ t ∈ extractTopics m.
Proof.
  intros Hc. rewrite unionTopics_spec, Hc. split.
  - intros [(m & Hm & Ht)|Ht].
    + exists m. split; [|done]. apply elem_of_app. by left.
    + exists post. split; [|done]. apply elem_of_app. right.
      by apply list_elem_of_singleton.
  - intros (m & Hm & Ht). apply elem_of_app in Hm as [Hm|Hm].
    + left. by exists m.
    + apply list_elem_of_singleton in Hm as ->. by right.
Qed.

Lemma provenance_attach1 (post : XPost) (c : Cluster) :
  located post = true -> provenance c ->
  provenance (attach1 post (extractPostLocation post) (extractTopics post)
                      (timestamp post) c).
Proof.
  intros Hloc [(m0 & Hm0 & Hm0l & Hm0c) Hnd Htop]. unfold attach1. split; simpl.
  - destruct (Qgt_bool _ _ && _).
    + exists post. split; [|done]. apply elem_of_app. right.
      by apply list_elem_of_singleton.
    + exists m0. split; [|done]. apply elem_of_app. by left.
  - by apply unionTopics_NoDup.
  - intros t. by apply provenance_topics_grow.
Qed.

Lemma provenance_attach2 (post : XPost) (c : Cluster) :
  provenance c -> provenance (attach2 post (extractTopics post) c).
Proof.
  intros [(m0 & Hm0 & Hm0l & Hm0c) Hnd Htop]. unfold attach2. split; simpl.
  - exists m0. split; [|done]. apply elem_of_app. by left.
  - by apply unionTopics_NoDup.
  - intros t. by apply provenance_topics_grow.
Qed.

Lemma passes_provenance (batch : list XPost) :
  Forall provenance (incidents (pass2 batch (pass1 batch))).
Proof.
  apply (passes_direct (fun st => Forall provenance (incidents st))); [constructor| |].
  - intros st post Hall. unfold pass1Step.
    destruct (bool_decide (id post ∈ processed st)); [done|].
    destruct (Qlt_bool (loc_confidence (extractPostLocation post)) 0.5) eqn:Hconf; [done|].
    assert (Hloc : located post = true) by (unfold located; by rewrite Hconf).
    destruct (findIndex _ (incidents st)) as [i|]; simpl.
    + apply Forall_alter; [done|]. intros c _ Hc. by apply provenance_attach1.
    + apply Forall_app. split; [done|]. apply Forall_singleton. by apply provenance_seed.
  - intros st post Hall. unfold pass2Step.
    destruct (bool_decide (id post ∈ processed st)); [done|].
    destruct (findIndex _ (incidents st)) as [i|]; simpl; [|done].
    apply Forall_alter; [done|]. intros c _ Hc. by apply provenance_attach2.
Qed.

(** X10. The location of every returned cluster is the location the extractor
    found, with confidence at least 0.5, in one of the cluster's own posts;
    its topic list has no repetition and holds exactly the topics of its
    member posts. *)
Theorem anchor_clusters_provenance (batch : list XPost) :
  Forall provenance (anchorIncidentsToLocations batch).
Proof. rewrite anchor_unfiltered. apply passes_provenance. Qed.

(** ** Anchoring: which posts are clustered *)

Lemma step_processed_mono (post : XPost) (st st' : AnchorState) :
  step post st st' -> processed st ⊆ processed st'.
Proof.
  intros [->|i c c' Hnew Hproc Hi Hinc Hgrow|c' Hnew Hproc Hinc Hposts Hts]; [done| |];
    rewrite Hproc; apply union_subseteq_r.
Qed.

Lemma fold_processed_mono (f : AnchorState -> XPost -> AnchorState)
      (l : list XPost) (st : AnchorState) :
  (forall st post, step post st (f st post)) ->
  processed st ⊆ processed (fold_left f l st).
Proof.
  intros Hf. revert st. induction l as [|x l IH]; intros st; simpl; [done|].
  etrans; [|apply IH]. by eapply step_processed_mono.
Qed.

Lemma pass1Step_processes (st : AnchorState) (post : XPost) :
  located post = true -> id post ∈ processed (pass1Step st post).
Proof.
  unfold located, pass1Step. intros Hloc.
  destruct (bool_decide (id post ∈ processed st)) eqn:Hp.
  - by apply bool_decide_eq_true in Hp.
  - apply negb_true_iff in Hloc. rewrite Hloc. simpl.
    apply elem_of_union. left. by apply elem_of_singleton.
Qed.

Lemma pass1_processes (l : list XPost) (st : AnchorState) (post : XPost) :
  post ∈ l -> located post = true -> id post ∈ processed (fold_left pass1Step l st).
Proof.
  revert st. induction l as [|x l IH]; intros st Hin Hloc; simpl.
  - by apply elem_of_nil in Hin.
  - apply elem_of_cons in Hin as [->|Hin]; [|by apply IH].
    apply (fold_processed_mono pass1Step l _ pass1Step_step).
    by apply pass1Step_processes.
Qed.

(** X11. No located post is lost: for every post of the batch in which the
    extractor finds a location with confidence at least 0.5, a post with the
    same id is a member of one of the returned clusters. *)
Theorem located_post_clustered (batch : list XPost) (post : XPost) :
  post ∈ batch -> located post = true ->
  exists c m, c ∈ anchorIncidentsToLocations batch /\ m ∈ c_posts c /\ id m = id post.
Proof.
  intros Hin Hloc. rewrite anchor_unfiltered.
  assert (Hproc : id post ∈ processed (pass2 batch (pass1 batch))).
  { unfold pass2. apply (fold_processed_mono pass2Step batch _ pass2Step_step).
    by apply pass1_processes. }
  apply (passes_tracked batch) in Hproc.
  apply list_elem_of_fmap in Hproc as (m & Hid & Hm).
  apply elem_of_allPosts in Hm as (c & Hc & Hm). by exists c, m.
Qed.

Lemma located_post_clustered_witness :
  exists c m, c ∈ anchorIncidentsToLocations [unlocatedPost; postA; postD]
              /\ m ∈ c_posts c /\ id m = id postD.
Proof.
  apply (located_post_clustered [unlocatedPost; postA; postD] postD).
  - apply list_elem_of_In. simpl. tauto.
  - vm_compute. reflexivity.
Defined.

Lemma pass1_unlocated (l : list XPost) (st : AnchorState) :
  Forall (fun post => located post = false) l -> fold_left pass1Step l st = st.
Proof.
  intros Hall. revert st. induction Hall as [|x l Hx Hl IH]; intros st; simpl; [done|].
  assert (Hstep : pass1Step st x = st).
  { unfold pass1Step. destruct (bool_decide (id x ∈ processed st)); [done|].
    unfold located in Hx. apply negb_false_iff in Hx. by rewrite Hx. }
  rewrite Hstep. apply IH.
Qed.

Lemma pass2_no_cluster (l : list XPost) (st : AnchorState) :
  incidents st = [] -> fold_left pass2Step l st = st.
Proof.
  intros Hst. induction l as [|x l IH]; simpl; [done|].
  assert (Hstep : pass2Step st x = st).
  { unfold pass2Step. destruct (bool_decide (id x ∈ processed st)); [done|].
    by rewrite Hst. }
  by rewrite Hstep.
Qed.

Lemma anchor_unlocated (batch : list XPost) :
  Forall (fun post => located post = false) batch ->
  anchorIncidentsToLocations batch = [].
Proof.
  intros Hall. rewrite anchor_unfiltered. unfold pass2, pass1.
  rewrite (pass1_unlocated batch _ Hall). by rewrite pass2_no_cluster.
Qed.

(** X12. Only located posts seed clusters: when the extractor finds no
    location of confidence at least 0.5 in any post of the batch (in
    particular for the empty batch), no cluster is returned, whatever the
    posts mention. *)
Theorem unlocated_batch_no_cluster (batch : list XPost) :
  Forall (fun post => located post = false) batch ->
  anchorIncidentsToLocations batch = [].
Proof. apply anchor_unlocated. Qed.

Lemma unlocated_batch_no_cluster_witness :
  anchorIncidentsToLocations [unlocatedPost; unlocatedPost] = [].
Proof.
  apply (unlocated_batch_no_cluster [unlocatedPost; unlocatedPost]).
  repeat constructor.
Defined.

(** ** Deduplication by post id *)

Lemma existsb_id (acc : list XPost) (tweet : XPost) :
  existsb (fun p => String.eqb (id p) (id tweet)) acc = true <-> id tweet ∈ map id acc.
Proof.
  rewrite existsb_exists, list_elem_of_fmap. split.
  - intros (p & Hin & Heq). apply String.eqb_eq in Heq.
    exists p. split; [done|]. by apply list_elem_of_In.
  - intros (p & Heq & Hin). exists p. split; [by apply list_elem_of_In|].
    by apply String.eqb_eq.
Qed.

Lemma addIfNew_cases (acc : list XPost) (tweet : XPost) :
  (id tweet ∈ map id acc /\ addIfNew acc tweet = acc)
  \/ ((id tweet ∉ map id acc) /\ addIfNew acc tweet = (acc ++ [tweet])%list).
Proof.
  unfold addIfNew.
  destruct (existsb (fun p => String.eqb (id p) (id tweet)) acc) eqn:He.
  - left. split; [by apply existsb_id|done].
  - right. split; [|done]. intros Hin. apply existsb_id in Hin. congruence.
Qed.

(** What one accumulation pass adds to the accumulator: the first occurrence
    of each id that the accumulator does not hold yet, in order. *)
Lemma fold_addIfNew_spec (l acc : list XPost) :
  exists k,
    fold_left addIfNew l acc = (acc ++ k)%list
    /\ k `sublist_of` l
    /\ NoDup (map id k)
    /\ (forall p, p ∈ k -> id p ∉ map id acc)
    /\ (forall i, i ∈ map id l -> i ∈ map id acc \/ i ∈ map id k)
    /\ (forall p, p ∈ k -> exists l1 l2, l = (l1 ++ p :: l2)%list /\ id p ∉ map id l1).
Proof.
  revert acc. induction l as [|x l IH]; intros acc; simpl.
  - exists []. rewrite app_nil_r. split; [done|]. split; [done|]. split; [constructor|].
    split; [|split]; intros ? H; by apply elem_of_nil in H.
  - destruct (addIfNew_cases acc x) as [[Hin ->]|[Hnew ->]].
    + destruct (IH acc) as (k & Hk & Hsub & Hnd & Hfresh & Hall & Hfirst).
      exists k. split; [done|]. split; [by apply sublist_cons|]. split; [done|].
      split; [done|]. split.
      * intros i Hi. apply elem_of_cons in Hi as [->|Hi]; [by left|by apply Hall].
      * intros p Hp. destruct (Hfirst p Hp) as (l1 & l2 & -> & Hl1).
        exists (x :: l1), l2. split; [done|]. simpl. apply not_elem_of_cons. split; [|done].
        intros Heq. apply (Hfresh p Hp). by rewrite Heq.
    + destruct (IH (acc ++ [x])%list) as (k & Hk & Hsub & Hnd & Hfresh & Hall & Hfirst).
      exists (x :: k). rewrite Hk, <- app_assoc. split; [done|].
      split; [by apply sublist_skip|].
      assert (Hxk : id x ∉ map id k).
      { intros Hin. apply list_elem_of_fmap in Hin as (p & Heq & Hp).
        apply (Hfresh p Hp). rewrite <- Heq, map_app. apply elem_of_app. right. by left. }
      split; [simpl; by apply NoDup_cons|]. split; [|split].
      * intros p Hp. apply elem_of_cons in Hp as [->|Hp]; [done|].
        intros Hin. apply (Hfresh p Hp). rewrite map_app. apply elem_of_app. by left.
      * intros i Hi. apply elem_of_cons in Hi as [->|Hi]; [right; by left|].
        destruct (Hall i Hi) as [Hacc|Hk']; [|right; by right].
        rewrite map_app in Hacc. apply elem_of_app in Hacc as [Hacc|Hacc]; [by left|].
        right. apply list_elem_of_singleton in Hacc as ->. by left.
      * intros p Hp. apply elem_of_cons in Hp as [->|Hp].
        -- exists [], l. split; [done|]. apply not_elem_of_nil.
        -- destruct (Hfirst p Hp) as (l1 & l2 & -> & Hl1).
           exists (x :: l1), l2. split; [done|]. simpl. apply not_elem_of_cons. split; [|done].
           intros Heq. apply (Hfresh p Hp). rewrite Heq, map_app.
           apply elem_of_app. right. by left.
Qed.

Lemma fold_addIfNew_fresh (l acc : list XPost) :
  NoDup (map id l) -> (forall p, p ∈ l -> id p ∉ map id acc) ->
  fold_left addIfNew l acc = (acc ++ l)%list.
Proof.
  revert acc. induction l as [|x l IH]; intros acc Hnd Hfresh; simpl.
  - by rewrite app_nil_r.
  - simpl in Hnd. apply NoDup_cons in Hnd as [Hx Hnd].
    destruct (addIfNew_cases acc x) as [[Hin _]|[_ ->]].
    + exfalso. apply (Hfresh x); [by left|done].
    + rewrite IH; [by rewrite <- app_assoc|done|].
      intros p Hp. rewrite map_app. cbn [map]. rewrite elem_of_app, list_elem_of_singleton.
      intros [Hin|Heq].
      * apply (Hfresh p); [by right|done].
      * apply Hx. rewrite <- Heq. by apply list_elem_of_fmap_2.
Qed.

Lemma dedupeById_ids (tweets : list XPost) : NoDup (map id (dedupeById tweets)).
Proof.
  unfold dedupeById.
  destruct (fold_addIfNew_spec tweets []) as (k & Hk & _ & Hnd & _).
  by rewrite Hk.
Qed.

(** X13. Deduplication by id keeps, in their order, exactly the first post
    of each id: the result has pairwise different ids, is a sub-list of the
    input, holds every id of the input, each kept post is preceded in the
    input by no post of the same id, and deduplicating twice changes
    nothing. *)
Theorem dedupeById_first_occurrences (tweets : list XPost) :
  NoDup (map id (dedupeById tweets))
  /\ dedupeById tweets `sublist_of` tweets
  /\ (forall i, i ∈ map id tweets -> i ∈ map id (dedupeById tweets))
  /\ (forall p, p ∈ dedupeById tweets ->
        exists l1 l2, tweets = (l1 ++ p :: l2)%list /\ id p ∉ map id l1)
  /\ dedupeById (dedupeById tweets) = dedupeById tweets.
Proof.
  unfold dedupeById.
  destruct (fold_addIfNew_spec tweets []) as (k & Hk & Hsub & Hnd & Hfresh & Hall & Hfirst).
  rewrite Hk. simpl. split; [done|]. split; [done|]. split; [|split; [done|]].
  - intros i Hi. destruct (Hall i Hi) as [H|H]; [by apply elem_of_nil in H|done].
  - rewrite fold_addIfNew_fresh; [done|done|].
    intros p _. apply not_elem_of_nil.
Qed.

Lemma fold_left_concat {A B : Type} (f : A -> B -> A) (ls : list (list B)) (a : A) :
  fold_left f (concat ls) a = fold_left (fun a l => fold_left f l a) ls a.
Proof.
  revert a. induction ls as [|l ls IH]; intros a; simpl; [done|].
  by rewrite fold_left_app, IH.
Qed.

(** X14. Adding the tweets query after query to one accumulator, as the city
    search and the catalogue refresh do, gives the deduplication of all the
    results put end to end: the order of the queries decides which post of
    an id is kept, the grouping into queries does not matter. *)
Theorem accumulateQueries_dedupe (results : list (list XPost)) :
  accumulateQueries results = dedupeById (concat results).
Proof. unfold accumulateQueries, dedupeById. by rewrite fold_left_concat. Qed.

(** ** The merge of the default path *)

Lemma addPoliceIfNew_markVerified (l acc : list XPost) :
  fold_left addPoliceIfNew l acc = fold_left addIfNew (map markVerified l) acc.
Proof.
  revert acc. induction l as [|x l IH]; intros acc; simpl; [done|]. by rewrite IH.
Qed.

(** X15. In the post map of the default path the ids are pairwise different
    and every id returned by a city, police or general search is present; a
    post whose id came from the police search and from no city search is
    marked verified, while a police report that a city search had already
    returned keeps the flag it came with. *)
Theorem mergeSearches_ids (citySearches policeReports generalSearches : list XPost) :
  let merged := mergeSearches citySearches policeReports generalSearches in
  NoDup (map id merged)
  /\ (forall i, i ∈ map id merged <->
        i ∈ map id citySearches \/ i ∈ map id policeReports \/ i ∈ map id generalSearches)
  /\ (forall q, q ∈ merged -> id q ∉ map id citySearches -> id q ∈ map id policeReports ->
        verified (author q) = true)
  /\ (forall q, q ∈ merged -> id q ∈ map id citySearches -> q ∈ citySearches).
Proof.
  unfold mergeSearches. rewrite addPoliceIfNew_markVerified.
  destruct (fold_addIfNew_spec citySearches []) as (kc & -> & Hsc & Hndc & _ & Hallc & _).
  simpl app.
  destruct (fold_addIfNew_spec (map markVerified policeReports) kc)
    as (kp & -> & Hsp & Hndp & Hfp & Hallp & _).
  destruct (fold_addIfNew_spec generalSearches (kc ++ kp)%list)
    as (kg & -> & Hsg & Hndg & Hfg & Hallg & _).
  assert (Hidsp : map id (map markVerified policeReports) = map id policeReports).
  { rewrite map_map. by apply map_ext. }
  assert (Hcity : forall i, i ∈ map id citySearches <-> i ∈ map id kc).
  { intros i. split.
    - intros Hi. destruct (Hallc i Hi) as [H|H]; [by apply elem_of_nil in H|done].
    - intros Hi. apply list_elem_of_fmap in Hi as (p & -> & Hp).
      apply list_elem_of_fmap_2. by apply (sublist_subseteq _ _ Hsc). }
  assert (Hpol : forall p, p ∈ kp -> verified (author p) = true /\ id p ∈ map id policeReports).
  { intros p Hp. apply (sublist_subseteq _ _ Hsp) in Hp.
    apply list_elem_of_fmap in Hp as (q & -> & Hq). split; [done|].
    by apply (list_elem_of_fmap_2 id) in Hq. }
  simpl. repeat split.
  - rewrite !map_app. apply NoDup_app. split; [|split; [|done]].
    + apply NoDup_app. split; [done|]. split; [|done].
      intros i Hi Hi'. apply list_elem_of_fmap in Hi' as (p & -> & Hp). by apply (Hfp p Hp).
    + intros i Hi Hi'. apply list_elem_of_fmap in Hi' as (p & -> & Hp).
      apply (Hfg p Hp). by rewrite map_app.
  - rewrite !map_app, !elem_of_app. intros [[Hi|Hi]|Hi].
    + left. by apply Hcity.
    + right. left. apply list_elem_of_fmap in Hi as (p & -> & Hp). by apply Hpol.
    + right. right. apply list_elem_of_fmap in Hi as (p & -> & Hp).
      apply list_elem_of_fmap_2. by apply (sublist_subseteq _ _ Hsg).
  - rewrite !map_app, !elem_of_app. intros [Hi|[Hi|Hi]].
    + left. left. by apply Hcity.
    + rewrite <- Hidsp in Hi. destruct (Hallp i Hi); auto.
    + destruct (Hallg i Hi) as [H|H]; [|by right].
      left. rewrite map_app in H. by apply elem_of_app.
  - intros q Hq Hnc Hp. rewrite !elem_of_app in Hq. destruct Hq as [[Hq|Hq]|Hq].
    + exfalso. apply Hnc, Hcity. by apply list_elem_of_fmap_2.
    + by apply Hpol.
    + exfalso. apply (Hfg q Hq). rewrite map_app, elem_of_app.
      rewrite <- Hidsp in Hp. destruct (Hallp _ Hp); auto.
  - intros q Hq Hc. rewrite !elem_of_app in Hq. destruct Hq as [[Hq|Hq]|Hq].
    + by apply (sublist_subseteq _ _ Hsc).
    + exfalso. apply (Hfp q Hq). by apply Hcity.
    + exfalso. apply (Hfg q Hq). rewrite map_app, elem_of_app. left. by apply Hcity.
Qed.

(** ** The fallback location *)

Lemma extractLocation_unfold (posts : list XPost) :
  extractLocation posts
  = if (length (fold_left scoreStep posts []) =? 0)%nat
    then match fold_left citiesStep posts [] with
         | f0 :: _ => capitalize f0
         | [] => "Bay Area, CA"
         end
    else fst (fold_left pickBest (fold_left scoreStep posts []) ("", 0%Q)).
Proof.
  unfold extractLocation, scoreStep, citiesStep, cityStep, pickBest. reflexivity.
Qed.

Lemma fold_left_step {A B : Type} (f : A -> B -> A) (x : B) (l : list B) (a : A) :
  fold_left f (x :: l) a = fold_left f l (f a x).
Proof. reflexivity. Qed.

Lemma Qgt_bool_lt (a b : Q) : Qgt_bool a b = true -> (b < a)%Q.
Proof.
  unfold Qgt_bool, Qlt_bool. rewrite negb_true_iff. intros H.
  apply Qnot_le_lt. intros Hle. apply Qle_bool_iff in Hle. congruence.
Qed.

Lemma bumpScore_positive (scores : list (string * Q)) (loc : string) (conf : Q) :
  loc <> "" -> (0 < conf)%Q ->
  Forall (fun e => fst e <> "" /\ (0 < snd e)%Q) scores ->
  Forall (fun e => fst e <> "" /\ (0 < snd e)%Q) (bumpScore scores loc conf).
Proof.
  intros Hloc Hconf Hall. unfold bumpScore.
  destruct (findIndex _ scores) as [i|] eqn:Hfind.
  - apply Forall_alter; [done|]. intros x _ [Hx Hpos]. cbn [fst snd]. split; [done|].
    rewrite <- (Qplus_0_l 0). apply Qplus_lt_le_compat; [done|]. by apply Qlt_le_weak.
  - apply Forall_app. split; [done|].
    apply Forall_singleton. cbn [fst snd]. split; [done|]. by rewrite Qplus_0_l.
Qed.

Lemma scoreStep_positive (posts : list XPost) (scores : list (string * Q)) :
  Forall (fun e => fst e <> "" /\ (0 < snd e)%Q) scores ->
  Forall (fun e => fst e <> "" /\ (0 < snd e)%Q) (fold_left scoreStep posts scores).
Proof.
  revert scores. induction posts as [|p posts IH]; intros scores Hs; [done|].
  rewrite fold_left_step. apply IH. unfold scoreStep.
  destruct (negb (String.eqb (location (extractPostLocation p)) "")) eqn:Hloc; [|done].
  destruct (Qgt_bool (loc_confidence (extractPostLocation p)) 0.5) eqn:Hconf; [|done].
  cbn [andb]. apply bumpScore_positive; [| |done].
  - intros Heq. rewrite Heq in Hloc. done.
  - apply Qgt_bool_lt in Hconf. by eapply Qlt_trans; [|exact Hconf].
Qed.

Lemma best_score_member (l : list (string * Q)) (best : string * Q) :
  fold_left pickBest l best ∈ l
  \/ (fold_left pickBest l best = best
      /\ Forall (fun e => Qgt_bool (snd e) (snd best) = false) l).
Proof.
  revert best. induction l as [|e l IH]; intros best; [|rewrite fold_left_step].
  - right. split; [done|constructor].
  - destruct (Qgt_bool (snd e) (snd best)) eqn:He.
    + assert (Hpick : pickBest best e = e) by (unfold pickBest; by rewrite He).
      rewrite Hpick. destruct (IH e) as [Hin|[Heq _]].
      * left. by right.
      * left. rewrite Heq. by left.
    + assert (Hpick : pickBest best e = best) by (unfold pickBest; by rewrite He).
      rewrite Hpick. destruct (IH best) as [Hin|[Heq Hall]].
      * left. by right.
      * right. split; [done|]. by constructor.
Qed.

Lemma capitalize_nonempty (s : string) : s <> "" -> capitalize s <> "".
Proof. by destruct s. Qed.

Lemma cityStep_nonempty (text : string) (cities found : list string) :
  Forall (fun c => c <> "") cities -> Forall (fun c => c <> "") found ->
  Forall (fun c => c <> "") (fold_left (cityStep text) cities found).
Proof.
  intros Hcities. revert found.
  induction Hcities as [|c cs Hc Hcs IHc]; intros found Hfound; [done|].
  rewrite fold_left_step. apply IHc. unfold cityStep.
  destruct (JsString.includes text c && negb (arrIncludes found c)); [|done].
  apply Forall_app. split; [done|]. by apply Forall_singleton.
Qed.

Lemma fallbackCities_nonempty : Forall (fun c => c <> "") fallbackCities.
Proof. unfold fallbackCities. repeat (constructor; [discriminate|]). constructor. Qed.

Lemma citiesStep_nonempty (posts : list XPost) (found : list string) :
  Forall (fun c => c <> "") found ->
  Forall (fun c => c <> "") (fold_left citiesStep posts found).
Proof.
  revert found. induction posts as [|p posts IH]; intros found Hfound; [done|].
  rewrite fold_left_step. apply IH. unfold citiesStep.
  apply cityStep_nonempty; [apply fallbackCities_nonempty|done].
Qed.

Lemma extractLocation_not_empty (posts : list XPost) : extractLocation posts <> "".
Proof.
  rewrite extractLocation_unfold.
  pose proof (scoreStep_positive posts [] (Forall_nil_2 _)) as Hscores.
  destruct (fold_left scoreStep posts []) as [|e scores] eqn:Hfold; cbn [length Nat.eqb].
  - pose proof (citiesStep_nonempty posts [] (Forall_nil_2 _)) as Hfound.
    destruct (fold_left citiesStep posts []) as [|f0 fs]; [done|].
    apply capitalize_nonempty. by apply Forall_cons in Hfound as [Hf0 _].
  - destruct (best_score_member (e :: scores) ("", 0%Q)) as [Hin|[_ Hall]].
    + rewrite Forall_forall in Hscores. by apply Hscores.
    + exfalso. apply Forall_cons in Hall as [He _].
      apply Forall_cons in Hscores as [[_ Hpos] _].
      unfold Qgt_bool, Qlt_bool in He. apply negb_false_iff, Qle_bool_iff in He.
      cbn [snd] in He. by apply Qlt_not_le in Hpos.
Qed.

(** X16. The fallback [extractLocation] never returns the empty string: it
    answers with a location that the extractor found in one of the posts,
    with a capitalised city name, or with "Bay Area, CA". So the location
    [anchoredLocation || extractLocation(posts)] of a live incident is never
    empty. *)
Theorem extractLocation_nonempty (posts : list XPost) (anchoredLocation : string) :
  extractLocation posts <> "" /\ strOr anchoredLocation (extractLocation posts) <> "".
Proof.
  pose proof (extractLocation_not_empty posts) as H.
  split; [exact H|]. by destruct anchoredLocation.
Qed.

(** ** Narrative synthesizer: size and silence *)

Lemma generateTLDR_defined (posts : list XPost) (incidentLocation : string) :
  exists r, generateTLDR posts incidentLocation = Some r.
Proof.
  destruct posts as [|p0 posts]; [by eexists|].
  destruct (relevantPosts_sources (p0 :: posts) incidentLocation) as [Hne Hsrc].
  unfold generateTLDR. simpl length. simpl Nat.eqb. cbv iota.
  destruct (buildSummary_wellCited (p0 :: posts) _ Hsrc incidentLocation
              (fold_left extractStep (take 7 (jsSort cmpRelevance (p0 :: posts)))
                         (mkExtracted [] [] [] []))
              (existsb (fun p => JsString.includes (JsString.toLowerCase (text p)) "shooting")
                       (take 7 (jsSort cmpRelevance (p0 :: posts)))))
    as (r & Hr & _); [by apply Hne|].
  by exists r.
Qed.

Lemma whatBlock_one (incidentLocation : string) (relevantPosts : list XPost)
      (cas : list string) (d : Draft) :
  whatBlock incidentLocation relevantPosts cas (mkDraft "" [] ∅) = Some d ->
  (length (d_citations d) <= 1)%nat.
Proof.
  unfold whatBlock. destruct (orElse _ _) as [pp|]; [|done]. simpl.
  destruct (negb (bool_decide (url pp ∈ ∅))); intros [= <-]; simpl; lia.
Qed.

Lemma suspectBlock_one_more (relevantPosts : list XPost) (s0 : string) (d : Draft) :
  (length (d_citations (suspectBlock relevantPosts s0 d)) <= S (length (d_citations d)))%nat.
Proof.
  unfold suspectBlock. destruct (orElse _ _) as [sp|]; simpl; [|lia].
  destruct (negb (bool_decide (url sp ∈ d_usedUrls d))); simpl; [|lia].
  rewrite length_app. simpl. lia.
Qed.

Lemma buildSummary_two (incidentLocation : string) (relevantPosts : list XPost)
      (ex : Extracted) (sh : bool) (r : TLDR) :
  buildSummary incidentLocation relevantPosts ex sh = Some r ->
  (length (citations r) <= 2)%nat.
Proof.
  unfold buildSummary.
  destruct (if (0 <? length (whatHappened ex))%nat && sh
            then whatBlock incidentLocation relevantPosts (casualties ex) (mkDraft "" [] ∅)
            else Some (mkDraft "" [] ∅)) as [d1|] eqn:Hd1; simpl; [|done].
  assert (H1 : (length (d_citations d1) <= 1)%nat).
  { destruct ((0 <? length (whatHappened ex))%nat && sh).
    - by eapply whatBlock_one.
    - injection Hd1 as <-. simpl. lia. }
  intros [= <-]. simpl. destruct (suspectInfo ex) as [|s0 ?]; [lia|].
  pose proof (suspectBlock_one_more relevantPosts s0 d1). lia.
Qed.

(** X17. The synthesizer always returns (it never reads a field of a post
    that is not there) and cites at most two posts, whatever the size of the
    cluster. *)
Theorem generateTLDR_at_most_two_citations (posts : list XPost) (incidentLocation : string) :
  exists r, generateTLDR posts incidentLocation = Some r
            /\ (length (citations r) <= 2)%nat.
Proof.
  destruct (generateTLDR_defined posts incidentLocation) as [r Hr].
  exists r. split; [done|]. revert Hr. unfold generateTLDR.
  destruct (length posts =? 0)%nat.
  - intros [= <-]. simpl. lia.
  - apply buildSummary_two.
Qed.

Lemma lowerChar_idempotent (a : ascii) :
  JsString.lowerChar (JsString.lowerChar a) = JsString.lowerChar a.
Proof. destruct a as [[] [] [] [] [] [] [] []]; reflexivity. Qed.

Lemma toLowerCase_idempotent (s : string) :
  JsString.toLowerCase (JsString.toLowerCase s) = JsString.toLowerCase s.
Proof.
  induction s as [|a s IH]; simpl; [done|]. by rewrite lowerChar_idempotent, IH.
Qed.

(** A text in which a pattern matches contains one of the words every match
    of the pattern must contain. *)
Lemma match_mentions (ws : list string) (pattern : Regex.re) (text : string)
      (c : Regex.captures) :
  RegexLang.must ws pattern -> Regex.jsMatch pattern text = Some c ->
  exists w, w ∈ ws
            /\ JsString.includes (JsString.toLowerCase text) (JsString.toLowerCase w) = true.
Proof.
  intros Hmust Hm. unfold Regex.jsMatch in Hm.
  apply RegexFacts.search_sound in Hm as (pre & x & post & Htext & L).
  destruct (Hmust x L) as (w & pre' & m & post' & Hw & -> & Hm).
  exists w. split; [done|]. apply includes_spec.
  exists (string_of_list_ascii (map JsString.lowerChar (pre ++ pre'))),
         (string_of_list_ascii (map JsString.lowerChar (post' ++ post))).
  rewrite (toLowerCase_list text), (toLowerCase_list w), Htext, <- Hm.
  rewrite <- !string_of_list_ascii_app. f_equal.
  rewrite !map_app, <- !app_assoc. done.
Qed.

Lemma pushContext_silent (ws : list string) (text cleanText : string) (acc : list string) :
  mentionsNone ws text ->
  pushContext ws (JsString.toLowerCase text) cleanText acc = acc.
Proof.
  intros Hnone. unfold pushContext, Regex.test.
  destruct (Regex.jsMatch (Regex.lits ws) (JsString.toLowerCase text)) as [c|] eqn:Hm; [|done].
  destruct (match_mentions ws _ _ c (RegexFacts.must_lits ws) Hm) as (w & Hw & Hinc).
  rewrite toLowerCase_idempotent, (Hnone w Hw) in Hinc. done.
Qed.

Lemma mentionsNone_app (ws1 ws2 : list string) (text : string) :
  mentionsNone (ws1 ++ ws2) text -> mentionsNone ws1 text /\ mentionsNone ws2 text.
Proof.
  intros H. split; intros w Hw; apply H, elem_of_app; auto.
Qed.

Lemma extractStep_silent (l : list XPost) (acc : Extracted) :
  Forall (fun p => mentionsNone (TldrPatterns.whatWords ++ TldrPatterns.suspectWords
                                   ++ TldrPatterns.resolutionWords) (text p)) l ->
  whatHappened (fold_left extractStep l acc) = whatHappened acc
  /\ suspectInfo (fold_left extractStep l acc) = suspectInfo acc
  /\ resolution (fold_left extractStep l acc) = resolution acc.
Proof.
  intros Hall. revert acc. induction Hall as [|p l Hp Hl IH]; intros acc; simpl; [done|].
  destruct (IH (extractStep acc p)) as (-> & -> & ->).
  apply mentionsNone_app in Hp as [Hw Hp]. apply mentionsNone_app in Hp as [Hs Hr].
  unfold extractStep. cbn [whatHappened suspectInfo resolution].
  by rewrite !pushContext_silent.
Qed.

Lemma buildSummary_silent (incidentLocation : string) (relevantPosts : list XPost)
      (ex : Extracted) (sh : bool) :
  whatHappened ex = [] -> suspectInfo ex = [] -> resolution ex = [] ->
  buildSummary incidentLocation relevantPosts ex sh = Some (mkTLDR "" []).
Proof.
  destruct ex as [w s r c]. simpl. intros -> -> ->. reflexivity.
Qed.

(** X18. When no post of a cluster mentions, in any letter case, one of the
    words the synthesizer looks for (shooting, shots fired, gunfire, active
    shooter; suspect, arrested, in custody, perpetrator; resolved, cleared,
    evacuated, contained, under control), the summary is the empty string and
    there is no citation. *)
Theorem generateTLDR_silent (posts : list XPost) (incidentLocation : string) :
  posts <> [] ->
  Forall (fun p => mentionsNone (TldrPatterns.whatWords ++ TldrPatterns.suspectWords
                                   ++ TldrPatterns.resolutionWords) (text p)) posts ->
  generateTLDR posts incidentLocation = Some (mkTLDR "" []).
Proof.
  intros Hne Hall. unfold generateTLDR.
  destruct posts as [|p0 posts]; [done|]. simpl length. simpl Nat.eqb. cbv iota.
  set (topPosts := take 7 (jsSort cmpRelevance (p0 :: posts))).
  assert (Htop : Forall (fun p => mentionsNone (TldrPatterns.whatWords ++ TldrPatterns.suspectWords
                                   ++ TldrPatterns.resolutionWords) (text p)) topPosts).
  { rewrite Forall_forall in Hall. apply Forall_forall. intros p Hp. apply Hall.
    apply (jsSort_elem_of cmpRelevance). by eapply (sublist_subseteq _ _ (sublist_take _ _)). }
  destruct (extractStep_silent topPosts (mkExtracted [] [] [] []) Htop) as (Hw & Hs & Hr).
  by apply buildSummary_silent.
Qed.

Lemma generateTLDR_silent_witness :
  generateTLDR [weatherPost] "Santana Row" = Some (mkTLDR "" []).
Proof.
  apply (generateTLDR_silent [weatherPost] "Santana Row").
  - discriminate.
  - apply Forall_singleton. intros w Hw. apply list_elem_of_In in Hw. simpl in Hw.
    repeat (destruct Hw as [<-|Hw]; [vm_compute; reflexivity|]). destruct Hw.
Defined.

(** ** The catalogue path *)

Lemma filter_sublist {A : Type} (f : A -> bool) (l : list A) :
  List.filter f l `sublist_of` l.
Proof.
  induction l as [|x l IH]; simpl; [done|].
  destruct (f x); [by apply sublist_skip|by apply sublist_cons].
Qed.

Lemma filterLowEngagementPosts_engaged (posts : list XPost) :
  Forall (fun p => hasEngagement p = true) (filterLowEngagementPosts posts).
Proof.
  apply Forall_forall. intros p Hp. unfold filterLowEngagementPosts in Hp.
  by apply list_elem_of_In, filter_In in Hp as [_ Hp].
Qed.

Lemma catalogueSeverity_not_low (description : string) :
  catalogueSeverity description <> low.
Proof.
  unfold catalogueSeverity.
  repeat match goal with
         | |- context [if ?b then _ else _] => destruct b
         end; discriminate.
Qed.

Lemma hardcodedIncident_cases (incidentData : KnownIncident) :
  (cataloguePosts incidentData = [] /\ hardcodedIncident incidentData = None)
  \/ (cataloguePosts incidentData <> [] /\
      exists i, hardcodedIncident incidentData = Some i
                /\ i_sources i = cataloguePosts incidentData
                /\ i_severity i = catalogueSeverity (k_description incidentData)
                /\ i_location i = k_location incidentData
                /\ i_totalEngagement i = calculateTotalEngagement (cataloguePosts incidentData)).
Proof.
  unfold hardcodedIncident. fold (cataloguePosts incidentData).
  destruct (cataloguePosts incidentData) as [|p ps] eqn:Hposts.
  - left. by split.
  - right. split; [done|]. cbn [length Nat.eqb].
    destruct (generateTLDR_defined (p :: ps) (k_location incidentData)) as [r ->].
    eexists. split; [reflexivity|]. done.
Qed.

Lemma fetchHardcodedIncidents_sources (catalogue : list KnownIncident) :
  map i_sources (fetchHardcodedIncidents catalogue)
  = List.filter (fun posts => negb (length posts =? 0)%nat) (map cataloguePosts catalogue)
  /\ Forall (fun i => i_severity i <> low
                      /\ i_totalEngagement i = calculateTotalEngagement (i_sources i))
            (fetchHardcodedIncidents catalogue).
Proof.
  unfold fetchHardcodedIncidents.
  induction catalogue as [|k catalogue [IH1 IH2]]; [by split|].
  cbn [omap list_omap map List.filter].
  destruct (hardcodedIncident_cases k) as [[Hnil ->]|[Hne (i & -> & Hs & Hsev & _ & Htot)]].
  - rewrite Hnil. by split.
  - destruct (cataloguePosts k) as [|p ps] eqn:Hk; [done|]. cbn [length Nat.eqb negb].
    split.
    + cbn [map]. by rewrite Hs, IH1.
    + constructor; [|done]. split.
      * rewrite Hsev. apply catalogueSeverity_not_low.
      * by rewrite Htot, Hs.
Qed.

(** X19. The catalogue refresh returns one incident for each entry whose
    queries brought back at least one post with engagement, in catalogue
    order, and none for the other entries; the sources of an incident are
    the engaged posts of its entry, deduplicated by id, and its severity is
    never low. *)
Theorem fetchHardcodedIncidents_spec (catalogue : list KnownIncident) :
  map i_sources (fetchHardcodedIncidents catalogue)
  = List.filter (fun posts => negb (length posts =? 0)%nat) (map cataloguePosts catalogue)
  /\ Forall (fun i => i_sources i <> []
                      /\ Forall (fun p => hasEngagement p = true) (i_sources i)
                      /\ NoDup (map id (i_sources i))
                      /\ i_severity i <> low)
            (fetchHardcodedIncidents catalogue).
Proof.
  destruct (fetchHardcodedIncidents_sources catalogue) as [Hsrc Hall].
  split; [exact Hsrc|].
  apply Forall_forall. intros i Hi.
  assert (Hin : i_sources i ∈ List.filter (fun posts => negb (length posts =? 0)%nat)
                                          (map cataloguePosts catalogue)).
  { rewrite <- Hsrc. by apply list_elem_of_fmap_2. }
  apply list_elem_of_In, filter_In in Hin as [Hin Hlen].
  apply in_map_iff in Hin as (k & Hk & _).
  rewrite Forall_forall in Hall. destruct (Hall i Hi) as [Hsev _].
  split; [|split; [|split; [|done]]].
  - intros Hnil. by rewrite Hnil in Hlen.
  - rewrite <- Hk. apply filterLowEngagementPosts_engaged.
  - rewrite <- Hk. unfold cataloguePosts, filterLowEngagementPosts.
    eapply sublist_NoDup; [|apply fmap_sublist, filter_sublist].
    apply dedupeById_ids.
Qed.

(** ** Live incidents *)

Lemma fold_mathMax_spec (l : list (option Z)) (a : option Z) :
  match fold_left mathMax l a with
  | Some m => exists x, a = Some x /\ (x <= m)%Z
                        /\ (forall t, t ∈ l -> exists y, t = Some y /\ (y <= m)%Z)
                        /\ (m = x \/ Some m ∈ l)
  | None => a = None \/ None ∈ l
  end.
Proof.
  revert a. induction l as [|t l IH]; intros a; cbn [fold_left].
  - destruct a as [x|]; [|by left]. exists x. split; [done|]. split; [lia|].
    split; [|by left]. intros t Ht. by apply elem_of_nil in Ht.
  - specialize (IH (mathMax a t)). destruct (fold_left mathMax l (mathMax a t)) as [m|].
    + destruct IH as (x' & Hmax & Hle & Hall & Hmem).
      destruct a as [x|]; [|done]. destruct t as [y|]; [|done].
      cbn in Hmax. injection Hmax as <-.
      exists x. split; [done|]. split; [lia|]. split.
      * intros t Ht. apply elem_of_cons in Ht as [->|Ht]; [|by apply Hall].
        exists y. split; [done|lia].
      * destruct Hmem as [->|Hin]; [|right; by right].
        destruct (Z.max_spec x y) as [[_ ->]|[_ ->]]; [right; left|by left].
    + destruct IH as [Hmax|Hin]; [|right; by right].
      destruct a as [x|]; [|by left]. destruct t as [y|]; [done|]. right. left.
Qed.

(** The most recent timestamp is defined exactly for a non-empty list of
    posts whose timestamps all parse, and is then the latest of them. *)
Lemma mostRecent_spec (posts : list XPost) :
  match mostRecent posts with
  | Some m => (forall p, p ∈ posts -> exists t, timestamp p = Some t /\ (t <= m)%Z)
              /\ exists p, p ∈ posts /\ timestamp p = Some m
  | None => posts = [] \/ exists p, p ∈ posts /\ timestamp p = None
  end.
Proof.
  destruct posts as [|q posts]; cbn [mostRecent]; [by left|].
  pose proof (fold_mathMax_spec (map timestamp posts) (timestamp q)) as H.
  destruct (fold_left mathMax (map timestamp posts) (timestamp q)) as [m|].
  - destruct H as (x & Hq & Hle & Hall & Hmem). split.
    + intros p Hp. apply elem_of_cons in Hp as [->|Hp]; [by exists x|].
      apply Hall. by apply list_elem_of_fmap_2.
    + destruct Hmem as [->|Hin]; [exists q; split; [left|done]|].
      apply list_elem_of_fmap in Hin as (p & Hp & Hin). exists p. split; [by right|done].
  - right. destruct H as [Hq|Hin]; [exists q; split; [left|done]|].
    apply list_elem_of_fmap in Hin as (p & Hp & Hin). exists p. split; [by right|done].
Qed.

Lemma mostRecent_defined (posts : list XPost) :
  posts <> [] -> Forall (fun p => is_Some (timestamp p)) posts ->
  is_Some (mostRecent posts).
Proof.
  intros Hne Hall. pose proof (mostRecent_spec posts) as H.
  destruct (mostRecent posts) as [m|]; [by eexists|].
  destruct H as [H|(p & Hp & Hnone)]; [done|].
  rewrite Forall_forall in Hall. destruct (Hall p Hp) as [t Ht]. congruence.
Qed.

Lemma strOr_nonempty (s d : string) : d <> "" -> strOr s d <> "".
Proof. intros Hd. destruct s; [exact Hd|discriminate]. Qed.

(** What the loop body does with a group: it skips it, it throws on the
    timestamps, or it builds an incident from the group's posts. *)
Lemma liveIncident_cases (group : list XPost * string) :
  (keptGroup group = false /\ liveIncident group = Some None)
  \/ (keptGroup group = true /\ mostRecent (fst group) = None
      /\ liveIncident group = None)
  \/ (keptGroup group = true
      /\ exists i, liveIncident group = Some (Some i)
                   /\ i_sources i = fst group /\ builtFrom i).
Proof.
  unfold keptGroup, liveIncident.
  destruct (skipped _ _); [left; by split|right]. cbv zeta.
  destruct (generateTLDR_defined (fst group)
              (strOr (snd group) (extractLocation (fst group)))) as [r ->].
  cbn [mbind option_bind negb].
  pose proof (mostRecent_spec (fst group)) as Hrecent.
  destruct (mostRecent (fst group)) as [m|]; [right|left; by repeat split].
  split; [done|]. eexists. split; [reflexivity|]. split; [reflexivity|].
  destruct Hrecent as [Hle Hex].
  constructor; cbn [i_location i_severity i_sources i_totalEngagement i_timestamp];
    [|done|done|done|done].
  apply strOr_nonempty, extractLocation_not_empty.
Qed.

Lemma liveIncidents_spec (groups : list (list XPost * string)) :
  match liveIncidents groups with
  | Some live => map i_sources live = map fst (List.filter keptGroup groups)
                 /\ Forall builtFrom live
  | None => Exists (fun g => keptGroup g = true /\ mostRecent (fst g) = None) groups
  end.
Proof.
  induction groups as [|g groups IH]; [by split|].
  cbn [liveIncidents List.filter].
  destruct (liveIncident_cases g)
    as [[Hkept ->]|[(Hkept & Hnone & ->)|(Hkept & i & -> & Hi & Hb)]];
    cbn [mbind option_bind].
  - destruct (liveIncidents groups) as [live|]; cbn [mbind option_bind].
    + by rewrite Hkept.
    + by apply Exists_cons_tl.
  - by apply Exists_cons_hd.
  - destruct (liveIncidents groups) as [live|]; cbn [mbind option_bind].
    + rewrite Hkept. destruct IH as [Hsrc Hall]. split.
      * cbn [map]. by rewrite Hi, Hsrc.
      * by constructor.
    + by apply Exists_cons_tl.
Qed.

Lemma liveIncidents_None (groups : list (list XPost * string)) :
  liveIncidents groups = None
  <-> Exists (fun g => keptGroup g = true /\ mostRecent (fst g) = None) groups.
Proof.
  split.
  - intros H. pose proof (liveIncidents_spec groups) as Hs. by rewrite H in Hs.
  - induction 1 as [g groups [Hkept Hnone]|g groups _ IH]; cbn [liveIncidents].
    + destruct (liveIncident_cases g)
        as [[Hk _]|[(_ & _ & ->)|(_ & i & Hlive & Hi & Hb)]]; [congruence|done|].
      exfalso. destruct Hb as [_ _ _ _ (p & Hp & Hts)].
      pose proof (mostRecent_spec (fst g)) as Hs. rewrite Hnone in Hs. rewrite Hi in Hp.
      unfold liveIncident in Hlive. fold (keptGroup g) in Hlive.
      revert Hlive. unfold keptGroup in Hkept. apply negb_true_iff in Hkept.
      rewrite Hkept, Hnone. cbv zeta. by destruct (generateTLDR _ _).
    + rewrite IH. by destruct (liveIncident g).
Qed.

Lemma concat_filter_sublist {A B : Type} (f : A -> list B) (keep : A -> bool) (l : list A) :
  concat (map f (List.filter keep l)) `sublist_of` concat (map f l).
Proof.
  induction l as [|x l IH]; simpl; [done|].
  destruct (keep x); simpl.
  - by apply sublist_app.
  - by apply sublist_inserts_l.
Qed.

Lemma groupPostsByIncident_groups (posts : list XPost) :
  map fst (groupPostsByIncident posts) = map c_posts (anchorIncidentsToLocations posts).
Proof. unfold groupPostsByIncident. rewrite map_map. by apply map_ext. Qed.

Lemma live_sources_sublist (posts : list XPost) (live : list Incident) :
  map i_sources live = map fst (List.filter keptGroup (groupPostsByIncident posts)) ->
  concat (map i_sources live) `sublist_of` allPosts (anchorIncidentsToLocations posts).
Proof.
  intros ->. unfold allPosts. rewrite <- groupPostsByIncident_groups.
  apply concat_filter_sublist.
Qed.

(** The groups of a batch are its clusters: none is empty, and their posts
    are posts of the batch. *)
Lemma groups_wellFormed (posts : list XPost) (g : list XPost * string) :
  g ∈ groupPostsByIncident posts ->
  fst g <> [] /\ forall p, p ∈ fst g -> p ∈ posts.
Proof.
  unfold groupPostsByIncident. intros Hg.
  apply list_elem_of_fmap in Hg as (c & -> & Hc). rewrite anchor_unfiltered in Hc.
  pose proof (passes_wellFormed posts) as Hwf. rewrite Forall_forall in Hwf.
  by destruct (Hwf c Hc) as [Hne Hmem _].
Qed.

(** With timestamps that all parse, the loop over the groups of a batch
    does not throw. *)
Lemma liveIncidents_defined (posts : list XPost) :
  Forall (fun p => is_Some (timestamp p)) posts ->
  is_Some (liveIncidents (groupPostsByIncident posts)).
Proof.
  intros Hvalid. destruct (liveIncidents _) as [live|] eqn:Hlive; [by eexists|].
  apply liveIncidents_None, Exists_exists in Hlive as (g & Hg & _ & Hnone).
  destruct (groups_wellFormed posts g Hg) as [Hne Hmem].
  destruct (mostRecent_defined (fst g) Hne) as [m Hm]; [|congruence].
  rewrite Forall_forall in Hvalid. apply Forall_forall. auto.
Qed.

(** X20. From the groups of a batch whose timestamps all parse the
    assembler builds its live incidents without failing; no post, by id, is a
    source of two of them or twice of one; every live incident has at least
    one source, all its sources are posts of the batch, its location is not
    empty, its severity and totals are those of its sources, and its
    timestamp is the latest timestamp among its sources. *)
Theorem liveIncidents_of_batch (posts : list XPost) :
  Forall (fun p => is_Some (timestamp p)) posts ->
  exists live,
    liveIncidents (groupPostsByIncident posts) = Some live
    /\ NoDup (map id (concat (map i_sources live)))
    /\ Forall (fun i => i_sources i <> []
                        /\ (forall p, p ∈ i_sources i -> p ∈ posts)
                        /\ builtFrom i) live.
Proof.
  intros Hvalid. destruct (liveIncidents_defined posts Hvalid) as [live Hlive].
  pose proof (liveIncidents_spec (groupPostsByIncident posts)) as Hspec.
  rewrite Hlive in Hspec. destruct Hspec as [Hsrc Hall].
  exists live. split; [done|]. split.
  - eapply sublist_NoDup; [apply (anchor_ids_NoDup posts)|].
    by apply fmap_sublist, live_sources_sublist.
  - apply Forall_forall. intros i Hi.
    assert (Hs : i_sources i ∈ map i_sources live) by by apply list_elem_of_fmap_2.
    rewrite Hsrc in Hs. apply list_elem_of_fmap in Hs as (g & Hfst & Hg).
    apply list_elem_of_In, filter_In in Hg as [Hg%list_elem_of_In _].
    destruct (groups_wellFormed posts g Hg) as [Hne Hmem]. rewrite Hfst.
    split; [done|]. split; [done|].
    rewrite Forall_forall in Hall. by apply Hall.
Qed.

Lemma liveIncidents_of_batch_witness :
  Forall (fun p => is_Some (timestamp p)) [postA; postB; postD; hoaxPost]
  /\ exists live,
       liveIncidents (groupPostsByIncident [postA; postB; postD; hoaxPost]) = Some live
       /\ NoDup (map id (concat (map i_sources live)))
       /\ Forall (fun i => i_sources i <> []
                           /\ (forall p, p ∈ i_sources i -> p ∈ [postA; postB; postD; hoaxPost])
                           /\ builtFrom i) live.
Proof.
  assert (Hvalid : Forall (fun p => is_Some (timestamp p)) [postA; postB; postD; hoaxPost])
    by (repeat constructor; by eexists).
  split; [exact Hvalid|].
  apply (liveIncidents_of_batch [postA; postB; postD; hoaxPost] Hvalid).
Defined.

Lemma liveIncidents_None_clusters (posts : list XPost) :
  liveIncidents (groupPostsByIncident posts) = None
  <-> exists c p, c ∈ anchorIncidentsToLocations posts
                  /\ keptGroup (c_posts c, c_location c) = true
                  /\ p ∈ c_posts c /\ timestamp p = None.
Proof.
  rewrite liveIncidents_None, Exists_exists. split.
  - intros (g & Hg & Hkept & Hnone).
    destruct (groups_wellFormed posts g Hg) as [Hne _].
    unfold groupPostsByIncident in Hg.
    apply list_elem_of_fmap in Hg as (c & -> & Hc).
    pose proof (mostRecent_spec (c_posts c)) as Hs. cbn [fst] in Hnone, Hne.
    rewrite Hnone in Hs. destruct Hs as [Hs|(p & Hp & Hts)]; [done|].
    by exists c, p.
  - intros (c & p & Hc & Hkept & Hp & Hts).
    exists (c_posts c, c_location c). split; [|split; [done|]].
    + unfold groupPostsByIncident.
      by apply (list_elem_of_fmap_2 (fun incident => (c_posts incident, c_location incident))).
    + cbn [fst]. pose proof (mostRecent_spec (c_posts c)) as Hs.
      destruct (mostRecent (c_posts c)) as [m|]; [|done].
      destruct Hs as [Hle _]. destruct (Hle p Hp) as (t & Ht & _). congruence.
Qed.

(** X21. Building the live incidents of a batch throws, and with it the
    whole call of the query path is rejected, catalogue incidents included,
    exactly when a cluster that passes the reliability gate has a member post
    whose timestamp does not parse; a post with such a timestamp that joins no
    cluster, or only a skipped one, does no harm. *)
Theorem liveIncidents_throws_iff (catalogue : list KnownIncident) (posts : list XPost) :
  (liveIncidents (groupPostsByIncident posts) = None
   <-> exists c p, c ∈ anchorIncidentsToLocations posts
                   /\ keptGroup (c_posts c, c_location c) = true
                   /\ p ∈ c_posts c /\ timestamp p = None)
  /\ (fetchRealTimeIncidents_query catalogue posts = None
      <-> exists c p, c ∈ anchorIncidentsToLocations (filterLowEngagementPosts posts)
                      /\ keptGroup (c_posts c, c_location c) = true
                      /\ p ∈ c_posts c /\ timestamp p = None).
Proof.
  split; [apply liveIncidents_None_clusters|].
  rewrite <- liveIncidents_None_clusters. unfold fetchRealTimeIncidents_query.
  destruct posts as [|t posts].
  - cbn [length Nat.eqb]. split; [done|]. by vm_compute.
  - cbn [length Nat.eqb].
    destruct (liveIncidents _) as [live|]; cbn [mbind option_bind]; by split.
Qed.

(** A located post with engagement whose timestamp does not parse: the query
    path throws, and the two catalogue incidents are lost with it. *)
Lemma unparsable_timestamp_rejects :
  fetchRealTimeIncidents_query sampleCatalogue [undatedPost] = None
  /\ fetchRealTimeIncidents_default sampleCatalogue [undatedPost] [] [] = None
  /\ length (fetchHardcodedIncidents sampleCatalogue) = 2%nat.
Proof. repeat split; vm_compute; reflexivity. Qed.

(** ** The assembled feed *)

Lemma Forall_of_sublist {A : Type} (P : A -> Prop) (l k : list A) :
  Forall P l -> k `sublist_of` l -> Forall P k.
Proof.
  intros Hl Hsub. induction Hsub as [|x k l _ IH|x k l _ IH]; [done| |].
  - apply Forall_cons in Hl as [Hx Hl]. constructor; auto.
  - apply Forall_cons in Hl as [_ Hl]. auto.
Qed.

Lemma fetch_query_defined (catalogue : list KnownIncident) (tweets : list XPost) :
  Forall (fun p => is_Some (timestamp p)) tweets ->
  is_Some (fetchRealTimeIncidents_query catalogue tweets).
Proof.
  intros Hvalid. unfold fetchRealTimeIncidents_query.
  destruct (length tweets =? 0)%nat; [by eexists|].
  destruct (liveIncidents_defined (filterLowEngagementPosts tweets)) as [live ->];
    [|by eexists].
  unfold filterLowEngagementPosts.
  eapply Forall_of_sublist; [exact Hvalid|apply filter_sublist].
Qed.

Lemma fold_addIfNew_Forall (P : XPost -> Prop) (l acc : list XPost) :
  Forall P l -> Forall P acc -> Forall P (fold_left addIfNew l acc).
Proof.
  intros Hl Hacc. destruct (fold_addIfNew_spec l acc) as (k & -> & Hsub & _).
  apply Forall_app. split; [done|]. exact (Forall_of_sublist P l k Hl Hsub).
Qed.

Lemma mergeSearches_timestamps (city police general : list XPost) :
  Forall (fun p => is_Some (timestamp p)) city ->
  Forall (fun p => is_Some (timestamp p)) police ->
  Forall (fun p => is_Some (timestamp p)) general ->
  Forall (fun p => is_Some (timestamp p))
         (fold_left addIfNew general
            (fold_left addPoliceIfNew police (fold_left addIfNew city []))).
Proof.
  intros Hc Hp Hg. rewrite addPoliceIfNew_markVerified.
  apply fold_addIfNew_Forall; [done|].
  apply fold_addIfNew_Forall; [by apply Forall_fmap|].
  by apply fold_addIfNew_Forall.
Qed.

Lemma fetch_default_defined (catalogue : list KnownIncident)
      (city police general : list XPost) :
  Forall (fun p => is_Some (timestamp p)) city ->
  Forall (fun p => is_Some (timestamp p)) police ->
  Forall (fun p => is_Some (timestamp p)) general ->
  is_Some (fetchRealTimeIncidents_default catalogue city police general).
Proof.
  intros Hc Hp Hg. unfold fetchRealTimeIncidents_default. cbv zeta.
  destruct (length _ =? 0)%nat; [by eexists|].
  match goal with |- context [groupPostsByIncident ?l] =>
    destruct (liveIncidents_defined l) as [live ->] end; [|by eexists].
  unfold filterLowEngagementPosts.
  eapply Forall_of_sublist;
    [exact (mergeSearches_timestamps city police general Hc Hp Hg)|apply filter_sublist].
Qed.

(** X22. With a non-blank query that brought back at least one tweet, all
    with timestamps that parse, the assembler returns a feed: it holds exactly
    the catalogue incidents and the live incidents of the engaged tweets, each
    as often as it was built, in descending order of severity rank and, within
    a rank, of likes plus reshares. *)
Theorem fetch_query_feed (catalogue : list KnownIncident) (tweets : list XPost) :
  tweets <> [] ->
  Forall (fun p => is_Some (timestamp p)) tweets ->
  exists result live,
    fetchRealTimeIncidents_query catalogue tweets = Some result
    /\ liveIncidents (groupPostsByIncident (filterLowEngagementPosts tweets)) = Some live
    /\ result ≡ₚ (fetchHardcodedIncidents catalogue ++ live)%list
    /\ Sorted (before cmpIncident) result.
Proof.
  intros Hne Hvalid. destruct (fetch_query_defined catalogue tweets Hvalid) as [result Hres].
  destruct (fetch_query_merge catalogue tweets result Hne Hres) as (live & Hlive & Hperm & Hs).
  by exists result, live.
Qed.

Lemma fetch_query_feed_witness :
  exists result live,
    fetchRealTimeIncidents_query sampleCatalogue [stabbingAlert] = Some result
    /\ liveIncidents (groupPostsByIncident (filterLowEngagementPosts [stabbingAlert])) = Some live
    /\ result ≡ₚ (fetchHardcodedIncidents sampleCatalogue ++ live)%list
    /\ Sorted (before cmpIncident) result.
Proof.
  apply (fetch_query_feed sampleCatalogue [stabbingAlert]); [discriminate|].
  repeat constructor. by eexists.
Defined.

(** X23. On the default path, when the timestamps of the posts that the
    city, police and general searches returned all parse, the assembler
    returns a feed, and every catalogue incident is in it, as often as the
    catalogue produced it. *)
Theorem fetch_default_keeps_catalogue (catalogue : list KnownIncident)
        (citySearches policeReports generalSearches : list XPost) :
  Forall (fun p => is_Some (timestamp p)) citySearches ->
  Forall (fun p => is_Some (timestamp p)) policeReports ->
  Forall (fun p => is_Some (timestamp p)) generalSearches ->
  exists result,
    fetchRealTimeIncidents_default catalogue citySearches policeReports generalSearches
      = Some result
    /\ fetchHardcodedIncidents catalogue ⊆+ result.
Proof.
  intros Hc Hp Hg.
  destruct (fetch_default_defined catalogue citySearches policeReports generalSearches
              Hc Hp Hg) as [result Hres].
  exists result. split; [done|].
  pose proof Hres as Hres'. unfold fetchRealTimeIncidents_default in Hres'.
  destruct (filterLowEngagementPosts _) as [|p ps] eqn:Hall in Hres'.
  - cbn in Hres'. by inversion Hres'.
  - assert (Hne : filterLowEngagementPosts
                    (fold_left addIfNew generalSearches
                       (fold_left addPoliceIfNew policeReports
                          (fold_left addIfNew citySearches []))) <> [])
      by (rewrite Hall; discriminate).
    destruct (fetch_default_merge catalogue citySearches policeReports generalSearches
                result Hne Hres) as (live & _ & Hperm & _).
    rewrite Hperm. by apply submseteq_inserts_r.
Qed.

Lemma fetch_default_keeps_catalogue_witness :
  exists result,
    fetchRealTimeIncidents_default sampleCatalogue [postA; postB] [policeReport] [hoaxPost]
      = Some result
    /\ fetchHardcodedIncidents sampleCatalogue ⊆+ result.
Proof.
  apply (fetch_default_keeps_catalogue sampleCatalogue [postA; postB] [policeReport] [hoaxPost]);
    repeat constructor; by eexists.
Defined.

(** X24. When no tweet with engagement has a location the extractor finds,
    the query path builds no live incident: the feed is the catalogue
    incidents, sorted. *)
Theorem fetch_query_unlocated (catalogue : list KnownIncident) (tweets : list XPost) :
  tweets <> [] ->
  Forall (fun post => located post = false) (filterLowEngagementPosts tweets) ->
  fetchRealTimeIncidents_query catalogue tweets
  = Some (jsSort cmpIncident (fetchHardcodedIncidents catalogue)).
Proof.
  intros Hne Hall. unfold fetchRealTimeIncidents_query, groupPostsByIncident.
  destruct tweets as [|t tweets]; [done|]. cbn [length Nat.eqb].
  rewrite (anchor_unlocated _ Hall). cbn [map liveIncidents mbind option_bind].
  by rewrite app_nil_r.
Qed.

Lemma fetch_query_unlocated_witness :
  [unlocatedPost] <> []
  /\ Forall (fun post => located post = false) (filterLowEngagementPosts [unlocatedPost])
  /\ fetchRealTimeIncidents_query sampleCatalogue [unlocatedPost]
     = Some (jsSort cmpIncident (fetchHardcodedIncidents sampleCatalogue)).
Proof.
  assert (Hall : Forall (fun post => located post = false)
                        (filterLowEngagementPosts [unlocatedPost])).
  { apply Forall_forall. intros p Hp.
    apply list_elem_of_In, filter_In in Hp as [[<-|[]] _]. vm_compute. reflexivity. }
  split; [discriminate|]. split; [exact Hall|].
  apply (fetch_query_unlocated sampleCatalogue [unlocatedPost]); [discriminate|exact Hall].
Defined.

(** ** The fetch layer *)



Lemma processTweets_elem (now : Z) (users : list (option RawUser))
      (tweets : list (option RawTweet)) (p : XPost) :
  p ∈ processTweets now users tweets <->
  exists t, Some t ∈ tweets /\ keepTweet (indexUsers users) (Some t) = true
            /\ p = toPost now (indexUsers users) t.
Proof.
  unfold processTweets. cbv zeta. rewrite list_elem_of_omap. split.
  - intros (o & Ho & Hp). apply list_elem_of_In, filter_In in Ho as [Ho Hkeep].
    destruct o as [t|]; [|done]. injection Hp as <-.
    exists t. split; [by apply list_elem_of_In|done].
  - intros (t & Ht & Hkeep & ->). exists (Some t). split; [|done].
    apply list_elem_of_In, filter_In. split; [by apply list_elem_of_In|done].
Qed.

Lemma processTweets_length (now : Z) (users : list (option RawUser))
      (tweets : list (option RawTweet)) :
  (length (processTweets now users tweets) <= length tweets)%nat.
Proof.
  unfold processTweets. cbv zeta.
  transitivity (length (List.filter (keepTweet (indexUsers users)) tweets)).
  - generalize (List.filter (keepTweet (indexUsers users)) tweets). intros l.
    induction l as [|[t|] l IH];
      cbn [omap list_omap fmap option_fmap option_map length] in *; lia.
  - apply sublist_length, filter_sublist.
Qed.

Lemma keepTweet_fields (users : gmap string RawUser) (t : RawTweet) :
  keepTweet users (Some t) = true -> t_id t <> "" /\ t_text t <> "".
Proof.
  unfold keepTweet.
  destruct (String.eqb_spec (t_id t) ""), (String.eqb_spec (t_text t) ""); simpl; done.
Qed.

Lemma strOr_id (s : string) : s <> "" -> strOr s "" = s.
Proof. by destruct s. Qed.

(** X25. Every post [searchTweets] makes of a response has a non-empty id,
    a non-empty text and a non-empty author handle, and its link is built from
    that handle and that id; there are never more posts than tweets in the
    response. *)
Theorem processTweets_posts (now : Z) (users : list (option RawUser))
        (tweets : list (option RawTweet)) :
  Forall (fun p => id p <> "" /\ text p <> "" /\ username (author p) <> ""
                   /\ url p = "https://twitter.com/" ++ username (author p)
                                ++ "/status/" ++ id p)
         (processTweets now users tweets)
  /\ (length (processTweets now users tweets) <= length tweets)%nat.
Proof.
  split; [|apply processTweets_length].
  apply Forall_forall. intros p Hp.
  apply processTweets_elem in Hp as (t & _ & Hkeep & ->).
  apply keepTweet_fields in Hkeep as [Hid Htext].
  unfold toPost. cbv zeta. cbn [id text author url].
  split; [done|]. split; [by rewrite strOr_id|].
  destruct (indexUsers users !! t_author_id t) as [a|]; cbn [username from_option].
  - split; [|done]. by apply strOr_nonempty.
  - split; [discriminate|done].
Qed.

Lemma metric_positive (field : RawMetrics -> option Z) (t : RawTweet) :
  (metric field t > 0)%Z -> t_public_metrics t <> None.
Proof. unfold metric. destruct (t_public_metrics t); [done|]. simpl. lia. Qed.

(** X26. A post reaches the engagement filter's output only if its tweet
    came with metrics and one of its like, retweet, reply or impression
    counts is positive: a tweet of the response without [public_metrics]
    never feeds an incident, whatever its text and author. *)
Theorem processTweets_engaged (now : Z) (users : list (option RawUser))
        (tweets : list (option RawTweet)) :
  Forall (fun p => exists t, Some t ∈ tweets /\ p = toPost now (indexUsers users) t
                             /\ rawEngaged t /\ t_public_metrics t <> None)
         (filterLowEngagementPosts (processTweets now users tweets)).
Proof.
  apply Forall_forall. intros p Hp.
  unfold filterLowEngagementPosts in Hp.
  apply list_elem_of_In, filter_In in Hp as [Hp Heng]. apply list_elem_of_In in Hp.
  apply processTweets_elem in Hp as (t & Ht & _ & ->).
  exists t. split; [done|]. split; [done|].
  assert (Hraw : rawEngaged t).
  { unfold hasEngagement, toPost in Heng. cbv zeta in Heng.
    cbn [engagement likes retweets replies views] in Heng.
    unfold rawEngaged.
    destruct (Z.gtb_spec (metric like_count t) 0); [lia|].
    destruct (Z.gtb_spec (metric retweet_count t) 0); [lia|].
    destruct (Z.gtb_spec (metric reply_count t) 0); [lia|].
    destruct (Z.gtb_spec (metric impression_count t) 0); [lia|done]. }
  split; [done|].
  destruct Hraw as [H|[H|[H|H]]]; by apply metric_positive in H.
Qed.




(** A response whose first tweet is [null] makes [searchTweets] throw, although
    the tweet after it would make a post. *)
Lemma null_first_tweet_rejects :
  searchTweetsResponse 0 [Some rawUser78] [None; Some rawTweetLiked] = None
  /\ length (processTweets 0 [Some rawUser78] [None; Some rawTweetLiked]) = 1%nat.
Proof. split; vm_compute; reflexivity. Qed.
